(** * Label log and distribution engine of the labeler server

    A shallow embedding of [db-provider.ts] (the SQLite-backed label store)
    and of the [LabelerServer] class (label creation, signing, live
    fan-out, the [subscribeLabels] catch-up handler and the [emitEvent]
    moderation endpoint), followed by the properties established about
    them. *)

From Stdlib Require Import ZArith List String Ascii Bool Lia Arith Sorted Permutation.
From Stdlib Require Import Strings.Byte.
Import ListNotations.
Local Open Scope string_scope.
Local Open Scope list_scope.
Local Open Scope Z_scope.

Set Implicit Arguments.

(* ================================================================== *)
(** ** JavaScript string helpers *)
(* ================================================================== *)

Module Js.

Definition chars (s : string) : list ascii := list_ascii_of_string s.
Definition str (l : list ascii) : string := string_of_list_ascii l.

Definition percent : ascii := "%"%char.
Definition underscore : ascii := "_"%char.
Definition star : ascii := "*"%char.
Definition backslash : ascii := "\"%char.
Definition slash : ascii := "/"%char.

(** [s.replaceAll(/%/g, "")] *)
Definition remove_percent (l : list ascii) : list ascii :=
  filter (fun c => negb (Ascii.eqb c percent)) l.

(** [s.replaceAll(/_/g, "\\_")]: every underscore becomes the two
    characters backslash, underscore. *)
Definition escape_underscore (l : list ascii) : list ascii :=
  flat_map (fun c => if Ascii.eqb c underscore
                     then [backslash; underscore] else [c]) l.

(** [s.indexOf("*")]; [None] stands for -1. *)
Fixpoint indexOf (x : ascii) (l : list ascii) : option nat :=
  match l with
  | [] => None
  | c :: l' => if Ascii.eqb c x then Some O
               else option_map S (indexOf x l')
  end.

(** [s.slice(0, -1)] *)
Definition slice_0_m1 (l : list ascii) : list ascii := removelast l.

(** [s.split(sep)] for a one-character separator. *)
Fixpoint split_on (sep : ascii) (l : list ascii) : list (list ascii) :=
  match l with
  | [] => [[]]
  | c :: l' =>
      if Ascii.eqb c sep then [] :: split_on sep l'
      else match split_on sep l' with
           | [] => [[c]]
           | w :: ws => (c :: w) :: ws
           end
  end.

(** [s.startsWith(p)] on character lists. *)
Fixpoint starts_with (p l : list ascii) : bool :=
  match p, l with
  | [], _ => true
  | _ :: _, [] => false
  | a :: p', b :: l' => Ascii.eqb a b && starts_with p' l'
  end.

(** [s.replace(p, "")] for a plain string [p]: the first occurrence of
    [p] is removed. *)
Fixpoint remove_first (p l : list ascii) : list ascii :=
  if starts_with p l then skipn (List.length p) l
  else match l with
       | [] => []
       | c :: l' => c :: remove_first p l'
       end.

(** [s.replace(/\/$/, "")]: one trailing slash is removed. *)
Definition strip_trailing_slash (l : list ascii) : list ascii :=
  match rev l with
  | c :: r => if Ascii.eqb c slash then rev r else l
  | [] => l
  end.

End Js.

(* ================================================================== *)
(** ** Data model ([util/types.ts]) *)
(* ================================================================== *)

(** A label object as it exists at run time.  [UnsignedLabel],
    [SignedLabel] and [FormattedLabel] are structural types over the same
    object shape; optional keys are [option]s, an absent or nullish key is
    [None]. *)
Record Label : Type := mkLabel {
  cts : string;
  src : string;
  uri : string;
  val : string;
  cid : option string;
  exp : option string;
  neg : option bool;
  ver : option Z;
  sig : option (list byte)
}.

(** [SavedLabel = SignedLabel & { id: number }] *)
Record SavedLabel : Type := mkSaved {
  id : Z;
  label : Label
}.

(** [CreateLabelData] *)
Record CreateLabelData : Type := mkCreate {
  c_val : string;
  c_uri : string;
  c_cid : option string;
  c_neg : option bool;
  c_src : option string;
  c_cts : option string;
  c_exp : option string
}.

(** Errors that the code throws: [XRPCError(status, {kind, description})]
    and plain [Error(message)]. *)
Inductive error : Type :=
| XRPCError (status : Z) (kind description : string)
| JsError (message : string).

(** Frames handed to the wire codec ([frameToBytes]); the byte layout is
    the codec's business, a frame is identified by its logical content. *)
Inductive Frame : Type :=
| MessageFrame (seq : Z) (l : Label)
| ErrorFrame (err message : string).

(* ================================================================== *)
(** ** The label store ([db-provider.ts], [DefaultDbProvider]) *)
(* ================================================================== *)

Module Sql.

(** ASCII lower-casing, as the LIKE operator of SQLite folds case. *)
Definition lower (c : ascii) : ascii :=
  let n := nat_of_ascii c in
  if (andb (Nat.leb 65 n) (Nat.leb n 90)) then ascii_of_nat (n + 32) else c.

Definition eqb_nocase (a b : ascii) : bool := Ascii.eqb (lower a) (lower b).

(** [text LIKE pattern] without an ESCAPE clause: [%] matches any run of
    characters, [_] matches exactly one character, every other
    character (the backslash too) matches itself up to ASCII case. *)
Fixpoint like (p : list ascii) (s : list ascii) {struct p} : bool :=
  match p with
  | [] => match s with [] => true | _ => false end
  | c :: p' =>
      if Ascii.eqb c Js.percent then
        (fix any (t : list ascii) : bool :=
           like p' t || match t with
                        | [] => false
                        | _ :: t' => any t'
                        end) s
      else if Ascii.eqb c Js.underscore then
        match s with
        | [] => false
        | _ :: s' => like p' s'
        end
      else
        match s with
        | [] => false
        | d :: s' => eqb_nocase c d && like p' s'
        end
  end.

(** [ORDER BY id ASC]: insertion sort on the id column. *)
Fixpoint insert_by_id (r : SavedLabel) (l : list SavedLabel) : list SavedLabel :=
  match l with
  | [] => [r]
  | x :: l' => if id r <=? id x then r :: l else x :: insert_by_id r l'
  end.

Definition order_by_id (l : list SavedLabel) : list SavedLabel :=
  fold_right insert_by_id [] l.

(** [LIMIT n]: a negative bound means no bound. *)
Definition limit_rows (n : Z) (l : list SavedLabel) : list SavedLabel :=
  if n <? 0 then l else firstn (Z.to_nat n) l.

(** [SELECT MAX(id)]: NULL on an empty table. *)
Definition max_id (l : list SavedLabel) : option Z :=
  match l with
  | [] => None
  | x :: l' => Some (fold_left (fun m r => Z.max m (id r)) l' (id x))
  end.

(** The pieces of the WHERE clause that [searchLabels] concatenates.  The
    text carries no parentheses around the LIKE alternatives, so the
    clause is a flat sequence of atoms joined by AND and OR. *)
Inductive token : Type :=
| TTrue                          (* 1 = 1 *)
| TAnd
| TOr
| TUriLike (p : string)          (* uri LIKE ? *)
| TSrcIn (ss : list string)      (* src IN (?, ..., ?) *)
| TIdGt (c : Z).                 (* id > ? *)

Definition eval_atom (t : token) (r : SavedLabel) : bool :=
  match t with
  | TTrue => true
  | TUriLike p => like (Js.chars p) (Js.chars (uri (label r)))
  | TSrcIn ss => existsb (String.eqb (src (label r))) ss
  | TIdGt c => c <? id r
  | TAnd | TOr => true
  end.

(** Evaluation of a flat boolean expression with SQL's precedence: AND
    binds tighter than OR.  [acc] is the value of the conjunction being
    read. *)
Fixpoint eval_flat (ts : list token) (r : SavedLabel) (acc : bool) : bool :=
  match ts with
  | [] => acc
  | TOr :: ts' => acc || eval_flat ts' r true
  | TAnd :: ts' => eval_flat ts' r acc
  | t :: ts' => eval_flat ts' r (acc && eval_atom t r)
  end.

Definition eval_where (ts : list token) (r : SavedLabel) : bool :=
  eval_flat ts r true.

(** [xs.join(sep)] on token lists. *)
Fixpoint join (sep : token) (xs : list token) : list token :=
  match xs with
  | [] => []
  | [x] => [x]
  | x :: xs' => x :: sep :: join sep xs'
  end.

End Sql.

(** How an INSERT statement can go wrong: [stmt.run] throws (a constraint
    is violated, the storage is unavailable), or it returns without having
    changed a row. *)
Inductive Fault : Type :=
| RunThrows (message : string)
| NoChange.

(** The object that [stmt.run] returns. *)
Record RunResult : Type := mkRunResult {
  changes : Z;
  lastInsertRowid : Z
}.

(** The database file: the [labels] table, the AUTOINCREMENT counter that
    SQLite keeps for it (the largest id ever assigned), and what the next
    INSERT statements are going to run into ([None]: nothing; an exhausted
    list: nothing any more). *)
Record Db : Type := mkDb {
  rows : list SavedLabel;
  sqlite_sequence : Z;
  faults : list (option Fault)
}.

(** What the iterator of [iterateLabels] shows of rows inserted while it
    is being read depends on the store behind the [DbProvider]
    interface.  The iterator that [stmt.iterate] of libsql returns, which
    [DefaultDbProvider] hands out, steps the statement a batch of rows
    at a time, the first batch at the first [next()]: each batch reads
    the table as it is when it is fetched, the rows of a batch are
    handed out one by one from a buffer, and a batch that comes back
    short ends the statement for good.  Other stores may step the
    statement at every [next()], or fix the result when the iterator is
    opened. *)
Inductive ScanMode : Type :=
| BatchScan (size : positive)
| LazyScan
| SnapshotScan.

(** An open iterator: the buffer of a batching iterator, the id that its
    statement has reached and whether the statement has more to give;
    the id that a lazy statement has reached; or the rows that a snapshot
    has still to return. *)
Inductive Iterator : Type :=
| Buffered (size : positive) (buffer : list SavedLabel) (pos : Z) (more : bool)
| LazyAt (pos : Z)
| Remaining (rest : list SavedLabel).

Module DbProvider.

(** A database created by the constructor's [CREATE TABLE IF NOT EXISTS]
    on a fresh file. *)
Definition empty (fs : list (option Fault)) : Db :=
  {| rows := []; sqlite_sequence := 0; faults := fs |}.

Definition truthy_neg (l : Label) : bool :=
  match neg l with Some true => true | _ => false end.

(** The row that the INSERT of [saveLabel] writes: the eight bound
    columns; [neg] is bound as [neg ? 1 : 0] and the table has no [ver]
    column. *)
Definition row_of (l : Label) : Label :=
  {| cts := cts l; src := src l; uri := uri l; val := val l;
     cid := cid l; exp := exp l; neg := Some (truthy_neg l);
     ver := None; sig := sig l |}.

(** The largest rowid that has ever existed in the table: the
    AUTOINCREMENT counter, or a larger id found in the table. *)
Definition largest_rowid (d : Db) : Z :=
  match Sql.max_id (rows d) with
  | Some m => Z.max m (sqlite_sequence d)
  | None => sqlite_sequence d
  end.

(** [stmt.run(src, uri, cid, val, neg ? 1 : 0, cts, exp, sig)] of the
    INSERT: with AUTOINCREMENT the new row gets an id one larger than
    the largest rowid that has ever existed in the table.  A statement
    that fails leaves the table as it was. *)
Definition run_insert (l : Label) (d : Db) : (error + RunResult) * Db :=
  match faults d with
  | Some (RunThrows m) :: fs =>
      (inl (JsError m),
       {| rows := rows d; sqlite_sequence := sqlite_sequence d; faults := fs |})
  | Some NoChange :: fs =>
      (inr {| changes := 0; lastInsertRowid := sqlite_sequence d |},
       {| rows := rows d; sqlite_sequence := sqlite_sequence d; faults := fs |})
  | _ =>
      let i := largest_rowid d + 1 in
      (inr {| changes := 1; lastInsertRowid := i |},
       {| rows := rows d ++ [mkSaved i (row_of l)];
          sqlite_sequence := i;
          faults := tl (faults d) |})
  end.

(** [saveLabel(label)] *)
Definition saveLabel (l : Label) (d : Db) : (error + Z) * Db :=
  match run_insert l d with
  | (inl e, d') => (inl e, d')
  | (inr result, d') =>
      if changes result =? 0
      then (inl (JsError "Failed to insert label"), d')
      else (inr (lastInsertRowid result), d')
  end.

(** [queryLabels(identifier, cursor = 0, limit = 1)] *)
Definition queryLabels (identifier : string) (cursor limit : option Z) (d : Db)
  : list SavedLabel :=
  let c := match cursor with Some c => c | None => 0 end in
  let n := match limit with Some n => n | None => 1 end in
  Sql.limit_rows n
    (Sql.order_by_id
       (filter (fun r => String.eqb (val (label r)) identifier && (c <? id r))
               (rows d))).

(** The body of the [uriPatterns.map] callback: the LIKE pattern for one
    uri pattern, or the thrown error. *)
Definition like_pattern (pattern : string) : error + string :=
  let p := Js.escape_underscore (Js.remove_percent (Js.chars pattern)) in
  match Js.indexOf Js.star p with
  | None => inr (Js.str p)
  | Some starIndex =>
      if negb (Nat.eqb starIndex (List.length p - 1)) then
        inl (XRPCError 400 "InvalidRequest"
               "Only trailing wildcards are supported in uriPatterns")
      else inr (Js.str (Js.slice_0_m1 p ++ [Js.percent]))
  end.

(** [xs.map(f)] for a callback that may throw: the first error wins. *)
Fixpoint map_throw (A B : Type) (f : A -> error + B) (xs : list A)
  : error + list B :=
  match xs with
  | [] => inr []
  | x :: xs' =>
      match f x with
      | inl e => inl e
      | inr y => match map_throw f xs' with
                 | inl e => inl e
                 | inr ys => inr (y :: ys)
                 end
      end
  end.

Definition patterns_of (uriPatterns : list string) : error + list string :=
  if existsb (String.eqb "*") uriPatterns then inr []
  else map_throw like_pattern uriPatterns.

(** JavaScript truthiness of [cursor?: number]. *)
Definition cursor_truthy (cursor : option Z) : option Z :=
  match cursor with
  | Some c => if c =? 0 then None else Some c
  | None => None
  end.

(** The WHERE clause of [searchLabels], as the template literal writes
    it. *)
Definition where_clause (patterns sources : list string) (cursor : option Z)
  : list Sql.token :=
  [Sql.TTrue]
  ++ (match patterns with
      | [] => []
      | _ => Sql.TAnd :: Sql.join Sql.TOr (map Sql.TUriLike patterns)
      end)
  ++ (match sources with
      | [] => []
      | _ => [Sql.TAnd; Sql.TSrcIn sources]
      end)
  ++ (match cursor_truthy cursor with
      | Some c => [Sql.TAnd; Sql.TIdGt c]
      | None => []
      end).

(** [searchLabels(cursor?, limit = 50, uriPatterns = [], sources = [])].
    The SELECT is taken to prepare and run: what the SQL engine itself
    may refuse (a LIKE pattern beyond its length limit) is not
    modelled. *)
Definition searchLabels (cursor limit : option Z)
           (uriPatterns sources : list string) (d : Db)
  : error + list SavedLabel :=
  match patterns_of uriPatterns with
  | inl e => inl e
  | inr patterns =>
      let n := match limit with Some n => n | None => 50 end in
      inr (Sql.limit_rows n
             (Sql.order_by_id
                (filter (Sql.eval_where (where_clause patterns sources cursor))
                        (rows d))))
  end.

(** [isCursorInTheFuture(cursor)]: [cursor > latest.id]; on an empty
    table [latest.id] is [null], which the comparison converts to 0. *)
Definition isCursorInTheFuture (cursor : Z) (d : Db) : bool :=
  match Sql.max_id (rows d) with
  | Some m => m <? cursor
  | None => 0 <? cursor
  end.

(** [iterateLabels(cursor = 0)], read to the end at once. *)
Definition iterateLabels (cursor : Z) (d : Db) : list SavedLabel :=
  Sql.order_by_id (filter (fun r => cursor <? id r) (rows d)).

(** The first row above a position, in the table as it is now. *)
Definition next_row (pos : Z) (d : Db) : option SavedLabel :=
  hd_error (iterateLabels pos d).

(** [iterateLabels(cursor)] as the iterator it returns.  A batching
    iterator starts with an empty buffer and fetches at its first
    [next()]. *)
Definition open_scan (mode : ScanMode) (cursor : Z) (d : Db) : Iterator :=
  match mode with
  | BatchScan size => Buffered size [] cursor true
  | LazyScan => LazyAt cursor
  | SnapshotScan => Remaining (iterateLabels cursor d)
  end.

(** One [next()] of the iterator: the row it yields ([None] when it is
    done) and the iterator afterwards.  A batching iterator hands out
    its buffer; when the buffer is used up it is done if the last batch
    came back short, and otherwise steps the statement on from the last
    row it fetched, for up to [size] rows of the table as it is now. *)
Definition next (it : Iterator) (d : Db) : option SavedLabel * Iterator :=
  match it with
  | Buffered size (r :: buffer) pos more => (Some r, Buffered size buffer pos more)
  | Buffered size [] pos false => (None, Buffered size [] pos false)
  | Buffered size [] pos true =>
      match firstn (Pos.to_nat size) (iterateLabels pos d) with
      | [] => (None, Buffered size [] pos false)
      | r :: batch =>
          (Some r,
           Buffered size batch (id (last batch r))
                    (Nat.eqb (List.length (r :: batch)) (Pos.to_nat size)))
      end
  | LazyAt pos =>
      match next_row pos d with
      | Some r => (Some r, LazyAt (id r))
      | None => (None, LazyAt pos)
      end
  | Remaining [] => (None, Remaining [])
  | Remaining (r :: rest) => (Some r, Remaining rest)
  end.

End DbProvider.

(* ================================================================== *)
(** ** The labeler server ([LabelerServer]) *)
(* ================================================================== *)

(** A WebSocket connection ([WSContext]) is identified by a number. *)
Definition WS : Type := nat.

(** The immutable part of a [LabelerServer] instance together with the
    collaborators it calls: the signature primitive behind [signLabel],
    the system clock behind [new Date().toISOString()] (the n-th reading),
    the token verifier [verifyJwt(token, did, nsid)], which yields the
    issuer or throws, and the kind of iterator the store hands out. *)
Record Env : Type := mkEnv {
  did : string;
  signingKey : list byte;
  auth : string -> bool;
  sign_bytes : list byte -> Label -> list byte;
  clock : nat -> string;
  verifyJwt : string -> string -> string -> error + string;
  scan_mode : ScanMode
}.

(** The mutable state a handler can touch: the database, the
    [connections] map (insertion-ordered, as a JavaScript [Map] of [Set]s
    is), the frames sent so far on every socket, the sockets closed by the
    server, and the number of clock readings taken. *)
Record Server : Type := mkServer {
  db : Db;
  connections : list (string * list WS);
  sent : list (WS * Frame);
  closed : list WS;
  ticks : nat
}.

Definition set_db (d : Db) (s : Server) : Server :=
  {| db := d; connections := connections s; sent := sent s;
     closed := closed s; ticks := ticks s |}.

Definition set_connections (c : list (string * list WS)) (s : Server) : Server :=
  {| db := db s; connections := c; sent := sent s;
     closed := closed s; ticks := ticks s |}.

(** [ws.send(bytes)] *)
Definition ws_send (ws : WS) (f : Frame) (s : Server) : Server :=
  {| db := db s; connections := connections s; sent := sent s ++ [(ws, f)];
     closed := closed s; ticks := ticks s |}.

(** [ws.close()] *)
Definition ws_close (ws : WS) (s : Server) : Server :=
  {| db := db s; connections := connections s; sent := sent s;
     closed := closed s ++ [ws]; ticks := ticks s |}.

Definition tick (s : Server) : Server :=
  {| db := db s; connections := connections s; sent := sent s;
     closed := closed s; ticks := S (ticks s) |}.

(** The frames a socket has been sent, oldest first. *)
Definition received (ws : WS) (s : Server) : list Frame :=
  map snd (filter (fun p => Nat.eqb (fst p) ws) (sent s)).

Definition is_message (seq : Z) (f : Frame) : bool :=
  match f with
  | MessageFrame q _ => q =? seq
  | ErrorFrame _ _ => false
  end.

(** The socket has been sent the label frame with sequence number [seq]. *)
Definition delivered (ws : WS) (seq : Z) (s : Server) : bool :=
  existsb (is_message seq) (received ws s).

(** Computations that read and write the server state and may throw; the
    state survives a throw. *)
Definition M (A : Type) : Type := Server -> (error + A) * Server.

Definition ret (A : Type) (a : A) : M A := fun s => (inr a, s).
Definition throw (A : Type) (e : error) : M A := fun s => (inl e, s).
Arguments throw {A} e.
Definition bind (A B : Type) (m : M A) (k : A -> M B) : M B :=
  fun s => match m s with
           | (inl e, s') => (inl e, s')
           | (inr a, s') => k a s'
           end.

Notation "x <- m ;; k" := (bind m (fun x => k))
  (at level 61, m at next level, right associativity).
Notation "m ;;; k" := (bind m (fun _ => k))
  (at level 61, right associativity).

Module Map.

(** [connections.get(nsid)] *)
Fixpoint get (nsid : string) (m : list (string * list WS)) : option (list WS) :=
  match m with
  | [] => None
  | (k, v) :: m' => if String.eqb k nsid then Some v else get nsid m'
  end.

(** [connections.set(nsid, subs)]: an existing key keeps its place. *)
Fixpoint set (nsid : string) (v : list WS) (m : list (string * list WS))
  : list (string * list WS) :=
  match m with
  | [] => [(nsid, v)]
  | (k, w) :: m' => if String.eqb k nsid then (k, v) :: m'
                    else (k, w) :: set nsid v m'
  end.

(** [connections.delete(nsid)] *)
Fixpoint delete (nsid : string) (m : list (string * list WS))
  : list (string * list WS) :=
  match m with
  | [] => []
  | (k, w) :: m' => if String.eqb k nsid then m'
                    else (k, w) :: delete nsid m'
  end.

(** [subs.add(ws)] on a [Set]: a member is not added twice. *)
Definition add (ws : WS) (subs : list WS) : list WS :=
  if existsb (Nat.eqb ws) subs then subs else subs ++ [ws].

(** [subs.delete(ws)] *)
Definition remove (ws : WS) (subs : list WS) : list WS :=
  filter (fun x => negb (Nat.eqb x ws)) subs.

End Map.

Definition subscribeLabels : string := "com.atproto.label.subscribeLabels".

Module LabelerServer.

(** Modelled from the spec: [labelIsSigned] of util/labels.js, which is
    not among the sources.  A label is signed when it already carries a
    non-empty [sig]. *)
Definition labelIsSigned (l : Label) : bool :=
  match sig l with
  | Some (_ :: _) => true
  | _ => false
  end.

Definition unsigned (l : Label) : Label :=
  {| cts := cts l; src := src l; uri := uri l; val := val l; cid := cid l;
     exp := exp l; neg := neg l; ver := ver l; sig := None |}.

(** Modelled from the spec: [signLabel] of util/labels.js, which is not
    among the sources.  The signature is computed with the private key
    over the unsigned fields and attached as [sig]. *)
Definition signLabel (E : Env) (l : Label) (key : list byte) : Label :=
  {| cts := cts l; src := src l; uri := uri l; val := val l; cid := cid l;
     exp := exp l; neg := neg l; ver := ver l;
     sig := Some (sign_bytes E key (unsigned l)) |}.

(** The first statement of [saveLabel]:
    [labelIsSigned(label) ? label : signLabel(label, this.signingKey)]. *)
Definition sign (E : Env) (l : Label) : Label :=
  if labelIsSigned l then l else signLabel E l (signingKey E).

(** [addSubscription(nsid, ws)] *)
Definition addSubscription (nsid : string) (ws : WS) (s : Server) : Server :=
  let subs := match Map.get nsid (connections s) with
              | Some subs => subs
              | None => []
              end in
  set_connections (Map.set nsid (Map.add ws subs) (connections s)) s.

(** [removeSubscription(nsid, ws)] *)
Definition removeSubscription (nsid : string) (ws : WS) (s : Server) : Server :=
  match Map.get nsid (connections s) with
  | Some subs =>
      let subs' := Map.remove ws subs in
      match subs' with
      | [] => set_connections (Map.delete nsid (connections s)) s
      | _ => set_connections (Map.set nsid subs' (connections s)) s
      end
  | None => s
  end.

(** [emitLabel(seq, label)]: one frame, sent to every subscriber of the
    label stream in the order of the set. *)
Definition emitLabel (seq : Z) (l : Label) (s : Server) : Server :=
  match Map.get subscribeLabels (connections s) with
  | Some subs => fold_left (fun st ws => ws_send ws (MessageFrame seq l) st) subs s
  | None => s
  end.

(** [this.db.saveLabel(signed)] as a step of a handler. *)
Definition db_saveLabel (l : Label) : M Z :=
  fun s => let '(r, d) := DbProvider.saveLabel l (db s) in (r, set_db d s).

(** [saveLabel(label)] *)
Definition saveLabel (E : Env) (l : Label) : M SavedLabel :=
  let signed := sign E l in
  i <- db_saveLabel signed ;;
  (fun s => (inr tt, emitLabel i signed s)) ;;;
  ret (mkSaved i signed).

(** [label.cts ?? new Date().toISOString()]: the clock is read only when
    the field is absent. *)
Definition cts_or_now (E : Env) (c : option string) : M string :=
  match c with
  | Some t => ret t
  | None => fun s => (inr (clock E (ticks s)), tick s)
  end.

(** [createLabel(label)] *)
Definition createLabel (E : Env) (data : CreateLabelData) : M SavedLabel :=
  t <- cts_or_now E (c_cts data) ;;
  saveLabel E
    {| cts := t;
       src := match c_src data with Some a => a | None => did E end;
       uri := c_uri data;
       val := c_val data;
       cid := c_cid data;
       exp := c_exp data;
       neg := c_neg data;
       ver := None;
       sig := None |}.

(** A [for (const val of vals)] loop that creates one label per value
    and pushes it onto [createdLabels]. *)
Fixpoint create_each (E : Env) (u : string) (c : option string)
         (n : option bool) (vals : list string) (createdLabels : list SavedLabel)
  : M (list SavedLabel) :=
  match vals with
  | [] => ret createdLabels
  | v :: vals' =>
      created <- createLabel E
                   {| c_val := v; c_uri := u; c_cid := c; c_neg := n;
                      c_src := None; c_cts := None; c_exp := None |} ;;
      create_each E u c n vals' (createdLabels ++ [created])
  end.

(** [createLabels(subject, labels)] *)
Definition createLabels (E : Env) (subject : string * option string)
           (labels : option (list string) * option (list string))
  : M (list SavedLabel) :=
  let '(u, c) := subject in
  let '(create, negate) := labels in
  l1 <- match create with
        | Some vals => create_each E u c None vals []
        | None => ret []
        end ;;
  match negate with
  | Some vals => create_each E u c (Some true) vals l1
  | None => ret l1
  end.

End LabelerServer.

(* ------------------------------------------------------------------ *)
(** *** The moderation-event endpoint *)
(* ------------------------------------------------------------------ *)

(** A key of a JSON object that the code takes without testing it:
    missing ([undefined] when read), [null], or present with a value. *)
Inductive Key (A : Type) : Type :=
| Absent
| Null
| Given (a : A).

Arguments Absent {A}.
Arguments Null {A}.
Arguments Given {A} a.

(** The parts of the JSON body of [tools.ozone.moderation.emitEvent] that
    the handler reads.  Where the handler only tests a key for
    truthiness or reads it through [?.], a key that is missing or [null]
    is [None]; [subjectBlobCids] is taken with a destructuring default,
    which replaces a missing key and leaves [null]. *)
Record ModEvent : Type := mkEvent {
  e_type : option string;                    (* $type *)
  createLabelVals : option (list string);
  negateLabelVals : option (list string)
}.

Record Subject : Type := mkSubject {
  s_type : option string;                    (* $type *)
  s_did : option string;
  s_uri : option string;
  s_cid : option string
}.

Record Body : Type := mkBody {
  event : option ModEvent;
  subject : option Subject;
  subjectBlobCids : Key (list string);
  createdBy : option string
}.

(** A request as the handlers see it: [url] is [HonoRequest.url], the
    whole URL of the request with its scheme and host. *)
Record Request : Type := mkRequest {
  authorization : option string;             (* the Authorization header *)
  url : string;
  body : Body
}.

(** The JSON answer of the endpoint; [subjectBlobCids] can be [null]
    ([None]). *)
Record EmitEventOutput : Type := mkOutput {
  o_id : Z;
  o_event : ModEvent;
  o_subject : Subject;
  o_subjectBlobCids : option (list string);
  o_createdBy : string;
  o_createdAt : string
}.

Module Handlers.

Import LabelerServer.

(** JavaScript truthiness of an optional string: absent and empty are
    falsy. *)
Definition truthy_str (o : option string) : option string :=
  match o with
  | Some "" => None
  | Some s => Some s
  | None => None
  end.

(** Truthiness of [vals?.length]. *)
Definition has_length (o : option (list string)) : bool :=
  match o with
  | Some (_ :: _) => true
  | _ => false
  end.

Definition nsid_of_url (u : string) : string :=
  let first := match Js.split_on "?"%char (Js.chars u) with
               | w :: _ => w
               | [] => []
               end in
  Js.str (Js.strip_trailing_slash
            (Js.remove_first (Js.chars "/xrpc/") first)).

(** [parseAuthHeaderDid(req)] *)
Definition parseAuthHeaderDid (E : Env) (req : Request) : M string :=
  match truthy_str (authorization req) with
  | None => throw (XRPCError 401 "AuthRequired" "Authorization header is required")
  | Some authHeader =>
      let parts := Js.split_on " "%char (Js.chars authHeader) in
      let type := nth_error parts 0 in
      let token := nth_error parts 1 in
      match type, token with
      | Some ty, Some (c :: tk) =>
          if String.eqb (Js.str ty) "Bearer" then
            match verifyJwt E (Js.str (c :: tk)) (did E) (nsid_of_url (url req)) with
            | inl e => throw e
            | inr iss => ret iss
            end
          else throw (XRPCError 400 "MissingJwt" "Missing or invalid bearer token")
      | _, _ => throw (XRPCError 400 "MissingJwt" "Missing or invalid bearer token")
      end
  end.

Definition modEventLabel : string := "tools.ozone.moderation.defs#modEventLabel".
Definition repoRef : string := "com.atproto.admin.defs#repoRef".
Definition strongRef : string := "com.atproto.repo.strongRef".

Definition type_is (t : option string) (name : string) : bool :=
  match t with
  | Some s => String.eqb s name
  | None => false
  end.

(** [emitEventHandler(c)] *)
Definition emitEventHandler (E : Env) (req : Request) : M EmitEventOutput :=
  actorDid <- parseAuthHeaderDid E req ;;
  if negb (auth E actorDid) then
    throw (XRPCError 401 "AuthRequired" "Unauthorized")
  else
    match event (body req), subject (body req), truthy_str (createdBy (body req)) with
    | Some ev, Some subj, Some by_ =>
        if negb (type_is (e_type ev) modEventLabel) then
          throw (XRPCError 400 "InvalidRequest" "Unsupported event type")
        else if negb (has_length (createLabelVals ev))
                && negb (has_length (negateLabelVals ev)) then
          throw (XRPCError 400 "InvalidRequest" "Must provide at least one label value")
        else
          let u := if type_is (s_type subj) repoRef then s_did subj
                   else if type_is (s_type subj) strongRef then s_uri subj
                   else None in
          let c := if type_is (s_type subj) strongRef then s_cid subj else None in
          match truthy_str u with
          | None => throw (XRPCError 400 "InvalidRequest" "Invalid subject")
          | Some u' =>
              labels <- createLabels E (u', c)
                          (createLabelVals ev, negateLabelVals ev) ;;
              match labels with
              | first :: _ =>
                  if id first =? 0 then throw (JsError "No labels were created")
                  else
                    fun s =>
                      (inr {| o_id := id first;
                              o_event := ev;
                              o_subject := subj;
                              o_subjectBlobCids :=
                                match subjectBlobCids (body req) with
                                | Absent => Some []
                                | Null => None
                                | Given l => Some l
                                end;
                              o_createdBy := by_;
                              o_createdAt := clock E (ticks s) |}, tick s)
              | [] => throw (JsError "No labels were created")
              end
          end
    | _, _, _ => throw (XRPCError 400 "InvalidRequest" "Missing required field(s)")
    end.

End Handlers.

(* ------------------------------------------------------------------ *)
(** *** The subscription handler and its interleaving with writers *)
(* ------------------------------------------------------------------ *)

(** [subscribeLabelsHandler] and [saveLabel] are [async]: each [await]
    hands control back to the event loop, and the [DbProvider] interface
    lets every store operation be a promise.  A run of the server is
    therefore a sequence of atomic slices, each the code between two
    [await]s of one call. *)

(** Where the [onOpen] callback of one subscriber is suspended. *)
Inductive SubPc : Type :=
| SubOpening                              (* onOpen has not started *)
| SubChecked (future : bool)              (* await this.db.isCursorInTheFuture(cursor) *)
| SubScanning (row : option SavedLabel) (it : Iterator)
                                          (* for await: the result of next() *)
| SubLive                                 (* addSubscription done, callback returned *)
| SubClosed.                              (* error frame sent, socket closed, returned *)

(** The server, the [saveLabel] calls suspended on
    [await this.db.saveLabel(signed)] (the id they were given and the
    signed label), and the subscriber's position. *)
Record World : Type := mkWorld {
  server : Server;
  pending : list (Z * Label);
  pc : SubPc
}.

(** What the event loop runs next.  The subscriber's socket stays open in
    the runs considered: [onClose] is not among the actions. *)
Inductive Action : Type :=
| CallSaveLabel (l : Label)      (* a new saveLabel(l) runs up to its await *)
| ResumeSaveLabel (k : nat)      (* the k-th suspended saveLabel resumes *)
| RunSubscriber.                 (* the subscriber's callback runs one slice *)

Module Subscription.

Import LabelerServer.

Definition futureCursor : Frame := ErrorFrame "FutureCursor" "Cursor is in the future".

(** [xs] without its k-th element. *)
Definition drop_nth (A : Type) (k : nat) (xs : list A) : list A :=
  firstn k xs ++ skipn (S k) xs.

(** One slice of [onOpen] for the socket [ws] opened with [cursor] (the
    integer that the query parameter parses to).  The codec is taken to
    succeed, so the [catch] branch of the scan is not entered. *)
Definition onOpen_step (E : Env) (ws : WS) (cursor : Z) (w : World) : World :=
  match pc w with
  | SubOpening =>
      {| server := server w; pending := pending w;
         pc := SubChecked (DbProvider.isCursorInTheFuture cursor (db (server w))) |}
  | SubChecked true =>
      {| server := ws_close ws (ws_send ws futureCursor (server w));
         pending := pending w;
         pc := SubClosed |}
  | SubChecked false =>
      let '(row, it) :=
        DbProvider.next (DbProvider.open_scan (scan_mode E) cursor (db (server w)))
                        (db (server w)) in
      {| server := server w; pending := pending w; pc := SubScanning row it |}
  | SubScanning (Some r) it =>
      let s := ws_send ws (MessageFrame (id r) (label r)) (server w) in
      let '(row, it') := DbProvider.next it (db s) in
      {| server := s; pending := pending w; pc := SubScanning row it' |}
  | SubScanning None _ =>
      {| server := addSubscription subscribeLabels ws (server w);
         pending := pending w;
         pc := SubLive |}
  | SubLive => w
  | SubClosed => w
  end.

(** [saveLabel(l)] up to its [await]: the label is signed and inserted. *)
Definition saveLabel_call (E : Env) (l : Label) (w : World) : World :=
  let signed := sign E l in
  match DbProvider.saveLabel signed (db (server w)) with
  | (inl _, d) =>
      {| server := set_db d (server w); pending := pending w; pc := pc w |}
  | (inr i, d) =>
      {| server := set_db d (server w);
         pending := pending w ++ [(i, signed)];
         pc := pc w |}
  end.

(** The rest of a suspended [saveLabel]: the label is emitted. *)
Definition saveLabel_resume (k : nat) (w : World) : World :=
  match nth_error (pending w) k with
  | Some (i, signed) =>
      {| server := emitLabel i signed (server w);
         pending := drop_nth k (pending w);
         pc := pc w |}
  | None => w
  end.

Definition step (E : Env) (ws : WS) (cursor : Z) (w : World) (a : Action) : World :=
  match a with
  | CallSaveLabel l => saveLabel_call E l w
  | ResumeSaveLabel k => saveLabel_resume k w
  | RunSubscriber => onOpen_step E ws cursor w
  end.

Definition run (E : Env) (ws : WS) (cursor : Z) (sched : list Action) (w : World)
  : World :=
  fold_left (step E ws cursor) sched w.

(** The scan of the subscriber can no longer return a row inserted now:
    it has reached its end, or its statement has (the last batch came
    back short and only buffered rows are left), or it reads a snapshot
    taken earlier. *)
Definition scan_blind (p : SubPc) : bool :=
  match p with
  | SubScanning None _ => true
  | SubScanning (Some _) (Buffered _ _ _ false) => true
  | SubScanning (Some _) (Remaining _) => true
  | _ => false
  end.

(** Bookkeeping over a run, for stating what is delivered: the ids
    inserted while the scan could no longer return them and the socket
    was not registered yet, and those among them that were also emitted
    in that window. *)
Record Seam : Type := mkSeam {
  seam_inserted : list Z;
  seam_emitted : list Z
}.

Definition mem (i : Z) (l : list Z) : bool := existsb (Z.eqb i) l.

Definition seam_step (E : Env) (w : World) (a : Action) (g : Seam) : Seam :=
  if scan_blind (pc w) then
    match a with
    | CallSaveLabel l =>
        match DbProvider.saveLabel (sign E l) (db (server w)) with
        | (inr i, _) =>
            {| seam_inserted := seam_inserted g ++ [i];
               seam_emitted := seam_emitted g |}
        | (inl _, _) => g
        end
    | ResumeSaveLabel k =>
        match nth_error (pending w) k with
        | Some (i, _) =>
            if mem i (seam_inserted g)
            then {| seam_inserted := seam_inserted g;
                    seam_emitted := seam_emitted g ++ [i] |}
            else g
        | None => g
        end
    | RunSubscriber => g
    end
  else g.

Definition run_seam (E : Env) (ws : WS) (cursor : Z) (sched : list Action)
           (wg : World * Seam) : World * Seam :=
  fold_left (fun wg a => (step E ws cursor (fst wg) a, seam_step E (fst wg) a (snd wg)))
            sched wg.

(** The ids both inserted and emitted in the window in which the scan
    could no longer return them and the socket was not yet registered. *)
Definition seam_lost (E : Env) (ws : WS) (cursor : Z) (sched : list Action)
           (w : World) : list Z :=
  seam_emitted (snd (run_seam E ws cursor sched (w, mkSeam [] []))).

(** The socket is in the live set of the label stream. *)
Definition registered (ws : WS) (s : Server) : bool :=
  match Map.get subscribeLabels (connections s) with
  | Some subs => existsb (Nat.eqb ws) subs
  | None => false
  end.

End Subscription.

(* ------------------------------------------------------------------ *)
(** *** Runs of the store used in the statements *)
(* ------------------------------------------------------------------ *)

(** The ids returned by the successful calls among a sequence of
    [saveLabel] calls on the store, and the store they leave. *)
Fixpoint save_all (ls : list Label) (d : Db) : list Z * Db :=
  match ls with
  | [] => ([], d)
  | l :: ls' =>
      match DbProvider.saveLabel l d with
      | (inr i, d') => let '(js, d'') := save_all ls' d' in (i :: js, d'')
      | (inl _, d') => save_all ls' d'
      end
  end.

(** [s+1, s+2, ..., s+n] *)
Fixpoint ids_from (s : Z) (n : nat) : list Z :=
  match n with
  | O => []
  | S n' => (s + 1) :: ids_from (s + 1) n'
  end.

(** No INSERT of the store is going to fail. *)
Definition healthy (d : Db) : bool :=
  forallb (fun o => match o with None => true | Some _ => false end) (faults d).

(** The error that a failing INSERT makes [saveLabel] throw. *)
Definition fault_error (f : Fault) : error :=
  match f with
  | RunThrows m => JsError m
  | NoChange => JsError "Failed to insert label"
  end.

(** The [CreateLabelData] that a loop of [createLabels] passes to
    [createLabel] for the value [v]. *)
Definition batch_data (u : string) (c : option string) (n : option bool)
           (v : string) : CreateLabelData :=
  {| c_val := v; c_uri := u; c_cid := c; c_neg := n;
     c_src := None; c_cts := None; c_exp := None |}.

(** The values of an optional list ([undefined] loops over nothing). *)
Definition vals_of (o : option (list string)) : list string :=
  match o with Some l => l | None => [] end.

(** The [createLabel] calls of one [createLabels] call, in order: the
    value and the [neg] key of each. *)
Definition calls_of (create negate : option (list string))
  : list (string * option bool) :=
  map (fun v => (v, None)) (vals_of create)
  ++ map (fun v => (v, Some true)) (vals_of negate).

(** The value and the negation flag of a record. *)
Definition val_neg (r : SavedLabel) : string * option bool :=
  (val (label r), neg (label r)).

(** The next [k] INSERT statements succeed. *)
Definition next_ok (k : nat) (fs : list (option Fault)) : Prop :=
  forall i, (i < k)%nat -> nth i fs None = None.

(** A record as the table stores it. *)
Definition stored (r : SavedLabel) : SavedLabel :=
  mkSaved (id r) (DbProvider.row_of (label r)).

(** The filters of [searchLabels] other than the uri patterns: the row's
    [src] is one of [sources] (when the list is not empty) and its id is
    above the cursor (when the cursor is truthy). *)
Definition passes (sources : list string) (cursor : option Z) (r : SavedLabel) : bool :=
  match sources with
  | [] => true
  | _ => existsb (String.eqb (src (label r))) sources
  end
  && match DbProvider.cursor_truthy cursor with
     | Some c => c <? id r
     | None => true
     end.

(** The bound that [searchLabels] passes to LIMIT. *)
Definition limit_of (limit : option Z) : Z :=
  match limit with Some n => n | None => 50 end.

(** Ascending order on ids. *)
Definition id_le (a b : SavedLabel) : Prop := id a <= id b.

(** The rows that an open iterator, having just yielded [x], is still
    going to yield or has in hand. *)
Definition to_come (it : Iterator) (x r : SavedLabel) : Prop :=
  match it with
  | Buffered _ buffer pos more =>
      In (id r) (map id (x :: buffer)) \/ (more = true /\ pos < id r)
  | LazyAt _ => id x <= id r
  | Remaining rest => In r (x :: rest)
  end.

(** What the callback of the socket [ws], opened with the cursor [c], has
    achieved at each of its positions, in terms of the rows above the
    cursor: during the scan every row has been sent, is still to come, or
    was inserted out of the scan's sight; once the scan is over every row
    has been sent or was inserted out of its sight; a row inserted out of
    sight is waiting to be emitted or was emitted already; once the
    socket is live every row has been sent, is waiting to be emitted, or
    was emitted before the registration. *)
Definition seam_inv (ws : WS) (c : Z) (w : World) (g : Subscription.Seam) : Prop :=
  match pc w with
  | SubOpening => Subscription.seam_inserted g = []
  | SubChecked _ => Subscription.seam_inserted g = []
  | SubScanning (Some x) it =>
      match it with
      | Buffered _ _ pos more =>
          more = true ->
          (exists y, In y (rows (db (server w))) /\ pos = id y)
          /\ Subscription.seam_inserted g = []
      | LazyAt pos =>
          pos = id x /\ In x (rows (db (server w)))
          /\ Subscription.seam_inserted g = []
      | Remaining _ => True
      end
      /\ (forall r, In r (rows (db (server w))) -> c < id r ->
                    delivered ws (id r) (server w) = true
                    \/ to_come it x r
                    \/ In (id r) (Subscription.seam_inserted g))
      /\ (forall i, In i (Subscription.seam_inserted g) ->
                    In i (map fst (pending w))
                    \/ In i (Subscription.seam_emitted g))
  | SubScanning None _ =>
      (forall r, In r (rows (db (server w))) -> c < id r ->
                 delivered ws (id r) (server w) = true
                 \/ In (id r) (Subscription.seam_inserted g))
      /\ (forall i, In i (Subscription.seam_inserted g) ->
                    In i (map fst (pending w))
                    \/ In i (Subscription.seam_emitted g))
  | SubLive =>
      Subscription.registered ws (server w) = true
      /\ (forall r, In r (rows (db (server w))) -> c < id r ->
                    delivered ws (id r) (server w) = true
                    \/ In (id r) (map fst (pending w))
                    \/ In (id r) (Subscription.seam_emitted g))
  | SubClosed => True
  end.

(** A concrete server for examples: a labeler whose signature primitive
    returns the key, whose clock is stopped, whose verifier accepts the
    token [good] as issued by the labeler itself, and whose store is the
    default one, fetching 100 rows at a time. *)
Module Demo.

Definition E : Env :=
  {| did := "did:plc:labeler";
     signingKey := [x01; x02; x03];
     auth := fun d => String.eqb d "did:plc:labeler";
     sign_bytes := fun key _ => x2a :: key;
     clock := fun _ => "2024-01-01T00:00:00.000Z";
     verifyJwt := fun token _ _ =>
                    if String.eqb token "good" then inr "did:plc:labeler"
                    else inl (XRPCError 401 "AuthRequired" "Invalid token");
     scan_mode := BatchScan 100 |}.

(** The same server on a store whose iterators step the statement at
    every [next()], and on one whose iterators read a snapshot. *)
Definition E_lazy : Env :=
  {| did := did E; signingKey := signingKey E; auth := auth E;
     sign_bytes := sign_bytes E; clock := clock E; verifyJwt := verifyJwt E;
     scan_mode := LazyScan |}.

Definition E_snapshot : Env :=
  {| did := did E; signingKey := signingKey E; auth := auth E;
     sign_bytes := sign_bytes E; clock := clock E; verifyJwt := verifyJwt E;
     scan_mode := SnapshotScan |}.

Definition fresh (fs : list (option Fault)) : Server :=
  {| db := DbProvider.empty fs; connections := []; sent := [];
     closed := []; ticks := O |}.

Definition lab (u s v : string) : Label :=
  {| cts := "2024-01-01T00:00:00.000Z"; src := s; uri := u; val := v;
     cid := None; exp := None; neg := None; ver := None;
     sig := Some [x2a] |}.

Definition unsigned_spam : Label :=
  LabelerServer.unsigned (lab "at://x" "did:plc:a" "spam").

(** A well-formed moderation event for the account did:plc:x, sent by the
    labeler itself, with and without the [createdBy] key. *)
Definition emit_request (by_ : option string) : Request :=
  {| authorization := Some "Bearer good";
     url := "http://localhost:4100/xrpc/tools.ozone.moderation.emitEvent";
     body := {| event := Some {| e_type := Some Handlers.modEventLabel;
                                 createLabelVals := Some ["spam"];
                                 negateLabelVals := None |};
                subject := Some {| s_type := Some Handlers.repoRef;
                                   s_did := Some "did:plc:x";
                                   s_uri := None;
                                   s_cid := None |};
                subjectBlobCids := Absent;
                createdBy := by_ |} |}.

(** A table of two rows, from two different sources. *)
Definition two_rows : Db :=
  {| rows := [mkSaved 1 (lab "a" "did:plc:other" "spam");
              mkSaved 2 (lab "b" "did:plc:labeler" "spam")];
     sqlite_sequence := 2;
     faults := [] |}.

(** A server with two labels in its log and no subscriber, on which the
    socket 7 is about to be opened. *)
Definition opening : World :=
  {| server := mkServer two_rows [] [] [] 0; pending := []; pc := SubOpening |}.

(** The socket catches up from cursor 0 (check, open the scan, send row
    1, send row 2 and reach the end); a label is then saved and emitted;
    the socket is registered; a second label is saved and emitted. *)
Definition seam_schedule : list Action :=
  [RunSubscriber; RunSubscriber; RunSubscriber; RunSubscriber;
   CallSaveLabel unsigned_spam; ResumeSaveLabel 0;
   RunSubscriber;
   CallSaveLabel unsigned_spam; ResumeSaveLabel 0].

(** A label is saved and emitted right after the scan has been opened,
    before its first row is sent; the socket then catches up and is
    registered. *)
Definition early_schedule : list Action :=
  [RunSubscriber; RunSubscriber;
   CallSaveLabel unsigned_spam; ResumeSaveLabel 0;
   RunSubscriber; RunSubscriber; RunSubscriber].

(** A table with the uris [a_b] and [a\_b]. *)
Definition underscore_rows : Db :=
  {| rows := [mkSaved 1 (lab "a_b" "did:plc:labeler" "spam");
              mkSaved 2 (lab "a\_b" "did:plc:labeler" "spam")];
     sqlite_sequence := 2;
     faults := [] |}.

(** A table with the uris [ab] and [a%b]. *)
Definition percent_rows : Db :=
  {| rows := [mkSaved 1 (lab "ab" "did:plc:labeler" "spam");
              mkSaved 2 (lab "a%b" "did:plc:labeler" "spam")];
     sqlite_sequence := 2;
     faults := [] |}.

End Demo.

Unset Implicit Arguments.

(* ================================================================== *)
(** ** Notions used in the further properties *)
(* ================================================================== *)

(** Two character lists are equal up to ASCII case. *)
Definition same_nocase (a b : list ascii) : Prop :=
  map Sql.lower a = map Sql.lower b.

(** A pattern without the characters that LIKE or [searchLabels] treat
    specially. *)
Definition plain (q : list ascii) : Prop :=
  ~ In Js.percent q /\ ~ In Js.underscore q /\ ~ In Js.star q.

(** Strictly ascending order on ids. *)
Definition id_lt (a b : SavedLabel) : Prop := id a < id b.

(** The ids of the table are pairwise different, as its PRIMARY KEY
    requires. *)
Definition primary_key (d : Db) : Prop := NoDup (map id (rows d)).

(** The row's uri matches a LIKE pattern. *)
Definition uri_like (q : string) (r : SavedLabel) : bool :=
  Sql.like (Js.chars q) (Js.chars (uri (label r))).

(** The [connections] map is a JavaScript [Map] of [Set]s that
    [removeSubscription] keeps free of empty sets: its keys are pairwise
    different, and every set is without repetition and not empty. *)
Definition registry_ok (m : list (string * list WS)) : Prop :=
  NoDup (map fst m)
  /\ forall k subs, In (k, subs) m -> NoDup subs /\ subs <> [].

(** The label object that [createLabel] hands to [saveLabel], when the
    clock shows [t]. *)
Definition created_label (E : Env) (data : CreateLabelData) (t : string) : Label :=
  {| cts := match c_cts data with Some c => c | None => t end;
     src := match c_src data with Some a => a | None => did E end;
     uri := c_uri data;
     val := c_val data;
     cid := c_cid data;
     exp := c_exp data;
     neg := c_neg data;
     ver := None;
     sig := None |}.

(** The frame that carries a record. *)
Definition frame_of (r : SavedLabel) : Frame := MessageFrame (id r) (label r).

(** The rows that an open iterator is going to return from the table
    [d], as long as the table is not written to. *)
Definition to_yield (it : Iterator) (d : Db) : list SavedLabel :=
  match it with
  | Buffered _ buffer pos more =>
      buffer ++ (if more then DbProvider.iterateLabels pos d else [])
  | LazyAt pos => DbProvider.iterateLabels pos d
  | Remaining rest => rest
  end.

(** The socket [ws] is sent the frames of the records [l], in order. *)
Definition send_all (ws : WS) (l : list SavedLabel) (s : Server) : Server :=
  fold_left (fun st r => ws_send ws (frame_of r) st) l s.

(* ------------------------------------------------------------------ *)
(** *** The query endpoint *)
(* ------------------------------------------------------------------ *)

(** The query string of [com.atproto.label.queryLabels] as the handler
    reads it: [c.req.queries(k)] is the list of the values of a key, or
    [undefined]; [c.req.query(k)] is one value, or [undefined]. *)
Record LabelsQuery : Type := mkQuery {
  q_uriPatterns : option (list string);
  q_sources : option (list string);
  q_cursor : option string;
  q_limit : option string
}.

Section QueryLabels.

(** [parseInt(s, 10)], with [None] for [NaN], and [n.toString(10)] are
    the language's; [formatLabel] of util/labels.js is not among the
    sources, and the handler only maps it over the rows. *)
Variable parseInt : string -> option Z.
Variable toString : Z -> string.
Variable F : Type.
Variable formatLabel : SavedLabel -> F.

(** [rows[rows.length - 1]?.id?.toString(10) || "0"] *)
Definition nextCursor (rows : list SavedLabel) : string :=
  match rows with
  | [] => "0"
  | r :: _ =>
      match Handlers.truthy_str (Some (toString (id (last rows r)))) with
      | Some t => t
      | None => "0"
      end
  end.

(** [queryLabelsHandler(c)]: the [cursor] and the [labels] of the JSON
    answer. *)
Definition queryLabelsHandler (q : LabelsQuery) (d : Db) : error + (string * list F) :=
  let uriPatterns := match q_uriPatterns q with Some l => l | None => [] end in
  let sources := match q_sources q with Some l => l | None => [] end in
  match parseInt (match q_cursor q with Some t => t | None => "0" end) with
  | None => inl (XRPCError 400 "InvalidRequest" "Cursor must be an integer")
  | Some cursor =>
      match parseInt (match Handlers.truthy_str (q_limit q) with
                      | Some t => t
                      | None => "50"
                      end) with
      | None =>
          inl (XRPCError 400 "InvalidRequest"
                 "Limit must be an integer between 1 and 250")
      | Some limit =>
          if (limit <? 1) || (250 <? limit) then
            inl (XRPCError 400 "InvalidRequest"
                   "Limit must be an integer between 1 and 250")
          else
            match DbProvider.searchLabels (Some cursor) (Some limit)
                    uriPatterns sources d with
            | inl e => inl e
            | inr rows => inr (nextCursor rows, map formatLabel rows)
            end
      end
  end.

End QueryLabels.

(** In a URL that starts with the characters [o] followed by [/xrpc/],
    no [/xrpc/] begins before the end of [o]. *)
Definition xrpc_first_after (o : list ascii) : Prop :=
  forall j, (j < List.length o)%nat ->
            Js.starts_with (Js.chars "/xrpc/") (skipn j (o ++ Js.chars "/xrpc/")) = false.

(** The rows that an iterator holds in its buffer. *)
Definition buffer_of (it : Iterator) : list SavedLabel :=
  match it with
  | Buffered _ buffer _ _ => buffer
  | LazyAt _ => []
  | Remaining rest => rest
  end.

(** The rows that the callback has taken from the table and not sent
    yet: the row in hand and the buffer of the iterator. *)
Definition in_hand (p : SubPc) : list SavedLabel :=
  match p with
  | SubScanning (Some x) it => x :: buffer_of it
  | _ => []
  end.

(** The suspended [saveLabel] calls hold the ids of different rows that
    have been inserted. *)
Definition pending_ok (w : World) : Prop :=
  NoDup (map fst (pending w))
  /\ forall p, In p (pending w) -> fst p <= DbProvider.largest_rowid (db (server w)).

(** What holds of a socket that was opened unregistered, however its
    callback is interleaved with writers: it is not registered before
    it is live; frames and suspended calls carry ids of the table; the
    rows in hand are older than every row inserted out of the scan's
    sight; nothing has been inserted out of sight while the scan could
    still fetch; a row inserted out of sight has not been sent while
    the socket is not live; and a row that was also emitted out of sight
    has not been sent and is not going to be emitted again. *)
Definition seam_clean (ws : WS) (w : World) (g : Subscription.Seam) : Prop :=
  (pc w <> SubLive -> Subscription.registered ws (server w) = false)
  /\ pending_ok w
  /\ (forall q, delivered ws q (server w) = true ->
                q <= DbProvider.largest_rowid (db (server w)))
  /\ (forall r, In r (in_hand (pc w)) ->
                id r <= DbProvider.largest_rowid (db (server w))
                /\ forall i, In i (Subscription.seam_inserted g) -> id r < i)
  /\ (Subscription.scan_blind (pc w) = false -> pc w <> SubLive ->
      Subscription.seam_inserted g = [])
  /\ (pc w <> SubLive ->
      forall i, In i (Subscription.seam_inserted g) ->
                delivered ws i (server w) = false)
  /\ (forall i, In i (Subscription.seam_emitted g) ->
                In i (Subscription.seam_inserted g)
                /\ delivered ws i (server w) = false
                /\ ~ In i (map fst (pending w))
                /\ i <= DbProvider.largest_rowid (db (server w))).

(* ================================================================== *)
(** ** Properties of the store *)
(* ================================================================== *)

Section StoreIds.

Lemma fold_max_ge (l : list SavedLabel) :
  forall a, a <= fold_left (fun m r => Z.max m (id r)) l a
            /\ forall r, In r l -> id r <= fold_left (fun m r => Z.max m (id r)) l a.
Proof.
  induction l as [|x l IH]; intros a; cbn [fold_left].
  - split; [lia | intros r []].
  - destruct (IH (Z.max a (id x))) as [H1 H2]. split; [lia|].
    intros r [<-|Hr]; [lia | apply H2, Hr].
Qed.

Lemma max_id_upper (l : list SavedLabel) (m : Z) :
  Sql.max_id l = Some m -> forall r, In r l -> id r <= m.
Proof.
  destruct l as [|x l]; cbn [Sql.max_id]; [discriminate|].
  intros H r Hr. inversion H; subst m. clear H.
  destruct (fold_max_ge l (id x)) as [H1 H2].
  destruct Hr as [<-|Hr]; [exact H1 | apply H2, Hr].
Qed.

Lemma max_id_snoc (l : list SavedLabel) (r : SavedLabel) :
  Sql.max_id (l ++ [r])
  = Some (match Sql.max_id l with
          | Some m => Z.max m (id r)
          | None => id r
          end).
Proof.
  destruct l as [|x l]; cbn [Sql.max_id app]; [reflexivity|].
  rewrite fold_left_app. reflexivity.
Qed.

(** No id of the table, and no earlier value of the counter, exceeds the
    largest rowid. *)
Lemma largest_rowid_upper (d : Db) :
  sqlite_sequence d <= DbProvider.largest_rowid d
  /\ forall r, In r (rows d) -> id r <= DbProvider.largest_rowid d.
Proof.
  unfold DbProvider.largest_rowid.
  destruct (Sql.max_id (rows d)) as [m|] eqn:Hm.
  - split; [lia|]. intros r Hr. pose proof (max_id_upper _ _ Hm r Hr). lia.
  - split; [lia|]. destruct (rows d); [intros r [] | discriminate].
Qed.

Lemma saveLabel_ok_id (l : Label) (d d' : Db) (i : Z) :
  DbProvider.saveLabel l d = (inr i, d') ->
  i = DbProvider.largest_rowid d + 1 /\
  sqlite_sequence d' = i /\
  rows d' = rows d ++ [mkSaved i (DbProvider.row_of l)] /\
  DbProvider.largest_rowid d' = i.
Proof.
  unfold DbProvider.saveLabel, DbProvider.run_insert.
  destruct (largest_rowid_upper d) as [Hseq Hrows].
  assert (Hnew : forall fs,
    DbProvider.largest_rowid
      {| rows := rows d ++ [mkSaved (DbProvider.largest_rowid d + 1) (DbProvider.row_of l)];
         sqlite_sequence := DbProvider.largest_rowid d + 1;
         faults := fs |} = DbProvider.largest_rowid d + 1).
  { intros fs. unfold DbProvider.largest_rowid at 1. cbn [rows sqlite_sequence].
    rewrite max_id_snoc. cbn [id].
    destruct (Sql.max_id (rows d)) as [m|] eqn:Hm; [|lia].
    assert (m <= DbProvider.largest_rowid d).
    { unfold DbProvider.largest_rowid. rewrite Hm. lia. }
    lia. }
  destruct (faults d) as [|[[m|]|] fs]; cbn; intros H; inversion H; subst;
    cbn [rows sqlite_sequence]; auto.
Qed.

Lemma saveLabel_fail_keeps (l : Label) (d d' : Db) (e : error) :
  DbProvider.saveLabel l d = (inl e, d') ->
  sqlite_sequence d' = sqlite_sequence d /\ rows d' = rows d
  /\ DbProvider.largest_rowid d' = DbProvider.largest_rowid d.
Proof.
  unfold DbProvider.saveLabel, DbProvider.run_insert.
  destruct (faults d) as [|[[m|]|] fs]; cbn; intros H; inversion H; subst; cbn; auto.
Qed.

Lemma save_all_ids (ls : list Label) :
  forall d,
    fst (save_all ls d)
    = ids_from (DbProvider.largest_rowid d) (List.length (fst (save_all ls d)))
    /\ map id (rows (snd (save_all ls d)))
       = map id (rows d) ++ fst (save_all ls d).
Proof.
  induction ls as [|l ls IH]; intros d; cbn [save_all].
  - cbn. rewrite app_nil_r. split; reflexivity.
  - destruct (DbProvider.saveLabel l d) as [[e|i] d'] eqn:Hs.
    + apply saveLabel_fail_keeps in Hs. destruct Hs as (_ & Hr & Hq).
      destruct (IH d') as (H1 & H3).
      rewrite Hq in H1. rewrite Hr in H3. auto.
    + apply saveLabel_ok_id in Hs. destruct Hs as (Hi & _ & Hr & Hq).
      destruct (IH d') as (H1 & H3).
      destruct (save_all ls d') as [js d''] eqn:Hrec. cbn [fst snd] in *.
      cbn [List.length ids_from]. rewrite Hq in H1. subst i.
      split.
      * f_equal. exact H1.
      * rewrite H3, Hr, map_app. cbn. rewrite <- app_assoc. reflexivity.
Qed.

Lemma ids_from_bounds (n : nat) :
  forall s i, In i (ids_from s n) <-> s < i <= s + Z.of_nat n.
Proof.
  induction n as [|n IH]; intros s i; cbn [ids_from In].
  - split; [tauto | lia].
  - rewrite IH. lia.
Qed.

Lemma ids_from_nth (n : nat) :
  forall s k, (k < n)%nat -> nth_error (ids_from s n) k = Some (s + 1 + Z.of_nat k).
Proof.
  induction n as [|n IH]; intros s k Hk; [lia|].
  destruct k as [|k]; cbn [ids_from nth_error].
  - f_equal. lia.
  - rewrite IH by lia. f_equal. lia.
Qed.

End StoreIds.

(** C3. Appending to an initially empty log hands out the ids 1, 2, 3, ...
    in this order: the k-th successful [saveLabel] call returns k, so every
    id is positive, larger than all ids handed out before it, and the ids
    in use have neither gaps nor duplicates; the table holds exactly these
    ids.  Calls that fail consume no id. *)
Theorem saveLabel_ids_are_1_2_3 (ls : list Label) (fs : list (option Fault)) :
  let ids := fst (save_all ls (DbProvider.empty fs)) in
  let n := List.length ids in
  ids = ids_from 0 n
  /\ (forall k, (k < n)%nat -> nth_error ids k = Some (Z.of_nat k + 1))
  /\ (forall i, In i ids <-> 1 <= i <= Z.of_nat n)
  /\ (forall j k a b, (j < k)%nat ->
        nth_error ids j = Some a -> nth_error ids k = Some b -> a < b)
  /\ NoDup ids
  /\ map id (rows (snd (save_all ls (DbProvider.empty fs)))) = ids.
Proof.
  intros ids n.
  destruct (save_all_ids ls (DbProvider.empty fs)) as (H1 & H3).
  fold ids in H1, H3. cbn in H1, H3. fold n in H1.
  assert (Hnth : forall k, (k < n)%nat -> nth_error ids k = Some (Z.of_nat k + 1)).
  { intros k Hk. rewrite H1, ids_from_nth by exact Hk. f_equal. lia. }
  assert (Hlt : forall j k a b, (j < k)%nat ->
             nth_error ids j = Some a -> nth_error ids k = Some b -> a < b).
  { intros j k a b Hjk Ha Hb.
    assert (Hk : (k < n)%nat) by (apply nth_error_Some; congruence).
    rewrite Hnth in Ha by lia. rewrite Hnth in Hb by lia.
    inversion Ha; inversion Hb; lia. }
  refine (conj H1 (conj Hnth (conj _ (conj Hlt (conj _ H3))))).
  - intros i. rewrite H1, ids_from_bounds. lia.
  - apply NoDup_nth_error. intros j k Hj Hjk.
    fold n in Hj.
    assert (Hk : (k < n)%nat).
    { apply nth_error_Some. rewrite <- Hjk. apply nth_error_Some. exact Hj. }
    rewrite (Hnth j Hj), (Hnth k Hk) in Hjk. inversion Hjk. lia.
Qed.

(* ================================================================== *)
(** ** Properties of signing and label creation *)
(* ================================================================== *)

Section Signing.

Variable E : Env.

Lemma sign_passes_signed (l : Label) :
  LabelerServer.labelIsSigned l = true -> LabelerServer.sign E l = l.
Proof. unfold LabelerServer.sign. intros ->. reflexivity. Qed.

Lemma sign_keeps_fields (l : Label) :
  uri (LabelerServer.sign E l) = uri l
  /\ cid (LabelerServer.sign E l) = cid l
  /\ val (LabelerServer.sign E l) = val l
  /\ neg (LabelerServer.sign E l) = neg l
  /\ src (LabelerServer.sign E l) = src l
  /\ cts (LabelerServer.sign E l) = cts l.
Proof.
  unfold LabelerServer.sign.
  destruct (LabelerServer.labelIsSigned l); cbn; auto 10.
Qed.

Lemma signLabel_is_signed (l : Label) (key : list byte) :
  sign_bytes E key (LabelerServer.unsigned l) <> [] ->
  LabelerServer.labelIsSigned (LabelerServer.signLabel E l key) = true.
Proof.
  unfold LabelerServer.labelIsSigned, LabelerServer.signLabel. cbn.
  destruct (sign_bytes E key (LabelerServer.unsigned l)); congruence.
Qed.

End Signing.

(** C6. The sign step of [saveLabel] passes a label that already carries
    a (non-empty) signature through unchanged, without calling the
    signature primitive; hence signing twice is signing once, for a signer
    whose signatures are non-empty byte strings. *)
Theorem sign_idempotent (E : Env)
        (Hsig : forall key l, sign_bytes E key l <> []) (x : Label) :
  (LabelerServer.labelIsSigned x = true -> LabelerServer.sign E x = x)
  /\ sig (LabelerServer.sign E (LabelerServer.sign E x)) = sig (LabelerServer.sign E x)
  /\ LabelerServer.sign E (LabelerServer.sign E x) = LabelerServer.sign E x.
Proof.
  split; [apply sign_passes_signed|].
  assert (H : LabelerServer.sign E (LabelerServer.sign E x) = LabelerServer.sign E x).
  { apply sign_passes_signed.
    unfold LabelerServer.sign at 1.
    destruct (LabelerServer.labelIsSigned x) eqn:Hx; [exact Hx|].
    apply signLabel_is_signed, Hsig. }
  split; [now rewrite H | exact H].
Qed.

Lemma sign_idempotent_witness :
  LabelerServer.labelIsSigned Demo.unsigned_spam = false
  /\ sig (LabelerServer.sign Demo.E Demo.unsigned_spam) = Some [x2a; x01; x02; x03]
  /\ LabelerServer.sign Demo.E (LabelerServer.sign Demo.E Demo.unsigned_spam)
     = LabelerServer.sign Demo.E Demo.unsigned_spam.
Proof.
  split; [reflexivity|]. split; [reflexivity|].
  apply (sign_idempotent Demo.E).
  intros key l. cbn. discriminate.
Defined.

Section Creation.

Variable E : Env.

Lemma emitLabel_frame (i : Z) (l : Label) (s : Server) :
  db (LabelerServer.emitLabel i l s) = db s
  /\ ticks (LabelerServer.emitLabel i l s) = ticks s
  /\ connections (LabelerServer.emitLabel i l s) = connections s
  /\ closed (LabelerServer.emitLabel i l s) = closed s.
Proof.
  unfold LabelerServer.emitLabel.
  destruct (Map.get subscribeLabels (connections s)) as [subs|]; [|auto].
  revert s. induction subs as [|w subs IH]; intros s; cbn [fold_left]; [auto|].
  destruct (IH (ws_send w (MessageFrame i l) s)) as (H1 & H2 & H3 & H4).
  rewrite H1, H2, H3, H4. cbn. auto.
Qed.

Lemma saveLabel_accepts (l : Label) (d : Db) :
  hd None (faults d) = None ->
  exists d',
    DbProvider.saveLabel l d = (inr (DbProvider.largest_rowid d + 1), d')
    /\ rows d' = rows d ++ [mkSaved (DbProvider.largest_rowid d + 1) (DbProvider.row_of l)]
    /\ faults d' = tl (faults d).
Proof.
  intros Hf. unfold DbProvider.saveLabel, DbProvider.run_insert.
  destruct (faults d) as [|[f|] fs]; cbn in Hf; try discriminate; cbn;
    eexists; repeat split; reflexivity.
Qed.

(** One [createLabel] call of a batch whose INSERT succeeds. *)
Lemma createLabel_batch_ok (u : string) (c : option string) (n : option bool)
      (v : string) (s : Server) :
  hd None (faults (db s)) = None ->
  exists r s',
    LabelerServer.createLabel E (batch_data u c n v) s = (inr r, s')
    /\ id r = DbProvider.largest_rowid (db s) + 1
    /\ val_neg r = (v, n) /\ uri (label r) = u /\ cid (label r) = c
    /\ rows (db s') = rows (db s) ++ [mkSaved (id r) (DbProvider.row_of (label r))]
    /\ faults (db s') = tl (faults (db s)).
Proof.
  intros Hf.
  unfold LabelerServer.createLabel, LabelerServer.cts_or_now, bind,
    LabelerServer.saveLabel, bind, LabelerServer.db_saveLabel, batch_data.
  cbn [c_cts c_src c_uri c_val c_cid c_exp c_neg].
  change (db (tick s)) with (db s).
  set (l := LabelerServer.sign E _).
  assert (Hl : val l = v /\ neg l = n /\ uri l = u /\ cid l = c).
  { subst l. cbn. auto. }
  destruct (saveLabel_accepts l (db s) Hf) as (d' & Hsave & Hrows & Hfaults).
  rewrite Hsave. cbn [fst snd].
  eexists. eexists. split; [reflexivity|]. cbn [id label].
  rewrite (proj1 (emitLabel_frame _ _ _)). cbn [db set_db].
  unfold val_neg. cbn [label]. destruct Hl as (-> & -> & -> & ->).
  repeat split; assumption.
Qed.

(** One [createLabel] call whose INSERT fails. *)
Lemma createLabel_batch_fail (data : CreateLabelData) (s : Server)
      (f : Fault) (fs : list (option Fault)) :
  faults (db s) = Some f :: fs ->
  exists s',
    LabelerServer.createLabel E data s = (inl (fault_error f), s')
    /\ rows (db s') = rows (db s).
Proof.
  intros Hf.
  unfold LabelerServer.createLabel, LabelerServer.cts_or_now, bind,
    LabelerServer.saveLabel, bind, LabelerServer.db_saveLabel,
    DbProvider.saveLabel, DbProvider.run_insert.
  destruct (c_cts data), f as [m|]; cbn; rewrite Hf; cbn; eexists; split; reflexivity.
Qed.

Lemma next_ok_tl (k : nat) (fs : list (option Fault)) :
  next_ok (S k) fs -> hd None fs = None /\ next_ok k (tl fs).
Proof.
  intros H. split.
  - specialize (H O ltac:(lia)). destruct fs; cbn in *; auto.
  - intros i Hi. specialize (H (S i) ltac:(lia)).
    destruct fs; cbn in *; [destruct i; reflexivity | exact H].
Qed.

Lemma next_ok_skipn (m k : nat) (fs : list (option Fault)) :
  next_ok (m + k) fs -> next_ok k (skipn m fs).
Proof.
  revert fs. induction m as [|m IH]; intros fs H; cbn [skipn].
  - exact H.
  - destruct fs as [|b fs].
    + intros i _. destruct i; reflexivity.
    + apply IH. apply (next_ok_tl (m + k) (b :: fs)). exact H.
Qed.

Lemma healthy_next_ok (k : nat) (d : Db) : healthy d = true -> next_ok k (faults d).
Proof.
  unfold healthy. intros H i _.
  destruct (nth_in_or_default i (faults d) None) as [Hin|Hd]; [|exact Hd].
  rewrite forallb_forall in H. apply H in Hin.
  destruct (nth i (faults d) None); [discriminate | reflexivity].
Qed.

(** A loop of [createLabels] all of whose INSERTs succeed. *)
Lemma create_each_ok (u : string) (c : option string) (n : option bool)
      (vals : list string) :
  forall acc s,
    next_ok (List.length vals) (faults (db s)) ->
    exists news s',
      LabelerServer.create_each E u c n vals acc s = (inr (acc ++ news), s')
      /\ map val_neg news = map (fun v => (v, n)) vals
      /\ Forall (fun r => uri (label r) = u /\ cid (label r) = c) news
      /\ rows (db s') = rows (db s) ++ map stored news
      /\ faults (db s') = skipn (List.length vals) (faults (db s)).
Proof.
  induction vals as [|v vals IH]; intros acc s Hok; cbn [LabelerServer.create_each].
  - exists [], s. cbn. rewrite !app_nil_r. auto.
  - apply next_ok_tl in Hok. destruct Hok as [Hhd Htl].
    destruct (createLabel_batch_ok u c n v s Hhd)
      as (r & s1 & Hrun & _ & Hvn & Hu & Hc & Hrows & Hf).
    fold (batch_data u c n v). unfold bind at 1. rewrite Hrun.
    rewrite <- Hf in Htl.
    destruct (IH (acc ++ [r]) s1 Htl) as (news & s' & Hrun' & Hm & Hall & Hrows' & Hf').
    exists (r :: news), s'. rewrite Hrun', <- app_assoc. cbn [app map List.length skipn].
    split; [reflexivity|]. split; [now rewrite Hvn, Hm|].
    split; [constructor; auto|]. split.
    + rewrite Hrows', Hrows, <- app_assoc. reflexivity.
    + rewrite Hf', Hf. destruct (faults (db s)); cbn; [now rewrite skipn_nil | reflexivity].
Qed.

(** A loop of [createLabels] whose INSERT number [j] (from 0) fails. *)
Lemma create_each_fail (u : string) (c : option string) (n : option bool)
      (vals : list string) (f : Fault) :
  forall j acc s,
    (j < List.length vals)%nat ->
    next_ok j (faults (db s)) -> nth j (faults (db s)) None = Some f ->
    exists kept s',
      LabelerServer.create_each E u c n vals acc s
      = (inl (fault_error f), s')
      /\ map val_neg kept = map (fun v => (v, n)) (firstn j vals)
      /\ Forall (fun r => uri (label r) = u /\ cid (label r) = c) kept
      /\ rows (db s') = rows (db s) ++ map stored kept.
Proof.
  induction vals as [|v vals IH]; intros j acc s Hj Hok Hbad; cbn [List.length] in Hj;
    [lia|]. cbn [LabelerServer.create_each]. fold (batch_data u c n v).
  destruct j as [|j].
  - destruct (faults (db s)) as [|b fs] eqn:Hf; cbn in Hbad; [discriminate|]. subst b.
    destruct (createLabel_batch_fail (batch_data u c n v) s f fs Hf) as (s' & Hrun & Hrows).
    exists [], s'. unfold bind. rewrite Hrun. cbn. rewrite app_nil_r. auto.
  - apply next_ok_tl in Hok. destruct Hok as [Hhd Htl].
    destruct (createLabel_batch_ok u c n v s Hhd)
      as (r & s1 & Hrun & _ & Hvn & Hu & Hc & Hrows & Hf).
    unfold bind at 1. rewrite Hrun. rewrite <- Hf in Htl.
    assert (Hbad' : nth j (faults (db s1)) None = Some f).
    { rewrite Hf. destruct (faults (db s)); cbn in *; [discriminate | exact Hbad]. }
    destruct (IH j (acc ++ [r]) s1 ltac:(lia) Htl Hbad')
      as (kept & s' & Hrun' & Hm & Hall & Hrows').
    exists (r :: kept), s'. rewrite Hrun'. cbn [firstn map].
    split; [reflexivity|]. split; [now rewrite Hvn, Hm|].
    split; [constructor; auto|].
    rewrite Hrows', Hrows, <- app_assoc. reflexivity.
Qed.

End Creation.

Lemma next_ok_le (j k : nat) (fs : list (option Fault)) :
  (k <= j)%nat -> next_ok j fs -> next_ok k fs.
Proof. intros Hle H i Hi. apply H. lia. Qed.

Lemma nth_skipn_fault (m i : nat) (fs : list (option Fault)) :
  nth i (skipn m fs) None = nth (m + i) fs None.
Proof.
  revert fs. induction m as [|m IH]; intros fs; cbn [skipn Nat.add]; [reflexivity|].
  destruct fs as [|b fs]; [destruct i; reflexivity | apply IH].
Qed.

(** C5. On a store that accepts the inserts, [createLabels] returns one
    record per value, in call order: the values of [create] in listed
    order without a [neg] key, then the values of [negate] in listed
    order with [neg = true]; every record carries the subject's [uri] and
    [cid].  For the subject at://x, c1 with create = [spam] and
    negate = [porn] the result is exactly two records, spam then porn. *)
Theorem createLabels_in_order (E : Env) (s : Server)
        (Hs : healthy (db s) = true) :
  (forall u c create negate,
      exists labels s',
        LabelerServer.createLabels E (u, c) (create, negate) s = (inr labels, s')
        /\ map val_neg labels = calls_of create negate
        /\ Forall (fun r => uri (label r) = u /\ cid (label r) = c) labels)
  /\ (exists r1 r2 s',
        LabelerServer.createLabels E ("at://x", Some "c1")
          (Some ["spam"], Some ["porn"]) s = (inr [r1; r2], s')
        /\ val_neg r1 = ("spam", None) /\ val_neg r2 = ("porn", Some true)
        /\ uri (label r1) = "at://x" /\ cid (label r1) = Some "c1"
        /\ uri (label r2) = "at://x" /\ cid (label r2) = Some "c1").
Proof.
  assert (Hgen : forall u c create negate,
      exists labels s',
        LabelerServer.createLabels E (u, c) (create, negate) s = (inr labels, s')
        /\ map val_neg labels = calls_of create negate
        /\ Forall (fun r => uri (label r) = u /\ cid (label r) = c) labels).
  { intros u c create negate.
    set (n1 := List.length (vals_of create)).
    set (n2 := List.length (vals_of negate)).
    pose proof (@healthy_next_ok (n1 + n2)%nat (db s) Hs) as Hok.
    assert (H1 : exists l1 s1,
               match create with
               | Some vals => LabelerServer.create_each E u c None vals []
               | None => ret []
               end s = (inr l1, s1)
               /\ map val_neg l1 = map (fun v => (v, None)) (vals_of create)
               /\ Forall (fun r => uri (label r) = u /\ cid (label r) = c) l1
               /\ faults (db s1) = skipn n1 (faults (db s))).
    { destruct create as [vals|]; cbn [vals_of] in *.
      - destruct (create_each_ok E u c None vals [] s
                    (@next_ok_le (n1 + n2)%nat n1 _ ltac:(lia) Hok))
          as (news & s1 & Hr & Hm & Hall & _ & Hf).
        exists news, s1. cbn in Hr. auto.
      - exists [], s. cbn. auto. }
    destruct H1 as (l1 & s1 & Hr1 & Hm1 & Hall1 & Hf1).
    assert (Hok2 : next_ok n2 (faults (db s1))).
    { rewrite Hf1. apply next_ok_skipn. exact Hok. }
    unfold LabelerServer.createLabels, bind. rewrite Hr1.
    destruct negate as [vals|]; cbn [vals_of] in *.
    - destruct (create_each_ok E u c (Some true) vals l1 s1 Hok2)
        as (news & s2 & Hr & Hm & Hall & _).
      exists (l1 ++ news), s2. split; [exact Hr|].
      unfold calls_of. cbn [vals_of]. rewrite map_app, Hm1, Hm.
      split; [reflexivity | apply Forall_app; auto].
    - exists l1, s1. split; [reflexivity|].
      unfold calls_of. cbn [vals_of map]. rewrite app_nil_r. auto. }
  split; [exact Hgen|].
  destruct (Hgen "at://x" (Some "c1") (Some ["spam"]) (Some ["porn"]))
    as (labels & s' & Hr & Hm & Hall).
  destruct labels as [|r1 [|r2 [|r3 rest]]]; cbn in Hm; try discriminate.
  exists r1, r2, s'. injection Hm as Hv1 Hv2.
  inversion Hall as [|? ? [Hu1 Hc1] Hall2]. inversion Hall2 as [|? ? [Hu2 Hc2] _].
  repeat split; first [assumption | unfold val_neg; congruence].
Qed.

Lemma createLabels_in_order_witness :
  healthy (db (Demo.fresh [])) = true
  /\ fst (LabelerServer.createLabels Demo.E ("at://x", Some "c1")
            (Some ["spam"], Some ["porn"]) (Demo.fresh []))
     = inr [mkSaved 1 (LabelerServer.sign Demo.E
                         {| cts := "2024-01-01T00:00:00.000Z"; src := "did:plc:labeler";
                            uri := "at://x"; val := "spam"; cid := Some "c1";
                            exp := None; neg := None; ver := None; sig := None |});
            mkSaved 2 (LabelerServer.sign Demo.E
                         {| cts := "2024-01-01T00:00:00.000Z"; src := "did:plc:labeler";
                            uri := "at://x"; val := "porn"; cid := Some "c1";
                            exp := None; neg := Some true; ver := None; sig := None |})]
  /\ exists r1 r2 s',
        LabelerServer.createLabels Demo.E ("at://x", Some "c1")
          (Some ["spam"], Some ["porn"]) (Demo.fresh []) = (inr [r1; r2], s')
        /\ val_neg r1 = ("spam", None) /\ val_neg r2 = ("porn", Some true)
        /\ uri (label r1) = "at://x" /\ cid (label r1) = Some "c1"
        /\ uri (label r2) = "at://x" /\ cid (label r2) = Some "c1".
Proof.
  split; [reflexivity|]. split; [reflexivity|].
  apply (createLabels_in_order Demo.E (Demo.fresh [])). reflexivity.
Defined.

(** C7. [createLabels] is not atomic on error: when the first j
    [createLabel] calls succeed and the next one (call k = j+1) fails, the
    whole call fails with the error of that call, and the j labels
    appended by the earlier iterations are still in the log, in call
    order; nothing removes them. *)
Theorem createLabels_partial_failure (E : Env) (u : string) (c : option string)
        (create negate : option (list string)) (s : Server) (j : nat) (f : Fault)
        (Hj : (j < List.length (calls_of create negate))%nat)
        (Hok : next_ok j (faults (db s)))
        (Hbad : nth j (faults (db s)) None = Some f) :
  exists kept s',
    LabelerServer.createLabels E (u, c) (create, negate) s
    = (inl (fault_error f), s')
    /\ rows (db s') = rows (db s) ++ map stored kept
    /\ List.length kept = j
    /\ map val_neg kept = firstn j (calls_of create negate)
    /\ Forall (fun r => uri (label r) = u /\ cid (label r) = c) kept.
Proof.
  unfold calls_of in *. rewrite length_app, !length_map in Hj.
  set (v1 := vals_of create) in *. set (v2 := vals_of negate) in *.
  assert (Hlen : forall kept (l : list (string * option bool)),
             map val_neg kept = firstn j l -> (j <= List.length l)%nat ->
             List.length kept = j).
  { intros kept l Hm Hl. rewrite <- (length_map val_neg), Hm, length_firstn. lia. }
  destruct (Nat.lt_ge_cases j (List.length v1)) as [Hlt|Hge].
  - (* the failing call is in the create loop *)
    destruct create as [vals|]; cbn [vals_of] in *; subst v1; [|cbn in Hlt; lia].
    destruct (create_each_fail E u c None vals f j [] s Hlt Hok Hbad)
      as (kept & s' & Hr & Hm & Hall & Hrows).
    exists kept, s'. unfold LabelerServer.createLabels, bind. rewrite Hr.
    assert (Hf : firstn j (map (fun v => (v, @None bool)) vals
                           ++ map (fun v => (v, Some true)) v2)
                 = map (fun v => (v, None)) (firstn j vals)).
    { rewrite firstn_app, length_map.
      replace (j - List.length vals)%nat with O by lia.
      cbn [firstn]. rewrite app_nil_r. apply firstn_map. }
    rewrite Hf. split; [reflexivity|]. split; [assumption|]. split.
    { eapply Hlen; [rewrite Hm, <- firstn_map; reflexivity|].
      rewrite length_map. lia. }
    split; assumption.
  - (* the create loop completes, the failing call is in the negate loop *)
    assert (H1 : exists l1 s1,
               match create with
               | Some vals => LabelerServer.create_each E u c None vals []
               | None => ret []
               end s = (inr l1, s1)
               /\ map val_neg l1 = map (fun v => (v, None)) v1
               /\ Forall (fun r => uri (label r) = u /\ cid (label r) = c) l1
               /\ rows (db s1) = rows (db s) ++ map stored l1
               /\ faults (db s1) = skipn (List.length v1) (faults (db s))).
    { subst v1. destruct create as [vals|]; cbn [vals_of] in *.
      - destruct (create_each_ok E u c None vals [] s (@next_ok_le j _ _ Hge Hok))
          as (news & s1 & Hr & Hm & Hall & Hrows & Hf).
        exists news, s1. cbn in Hr. auto.
      - exists [], s. cbn. rewrite app_nil_r. auto. }
    destruct H1 as (l1 & s1 & Hr1 & Hm1 & Hall1 & Hrows1 & Hf1).
    set (j2 := (j - List.length v1)%nat).
    assert (Hok2 : next_ok j2 (faults (db s1))).
    { rewrite Hf1. apply next_ok_skipn.
      replace (List.length v1 + j2)%nat with j by (subst j2; lia). exact Hok. }
    assert (Hbad2 : nth j2 (faults (db s1)) None = Some f).
    { rewrite Hf1, nth_skipn_fault.
      replace (List.length v1 + j2)%nat with j by (subst j2; lia). exact Hbad. }
    destruct negate as [vals|]; cbn [vals_of] in *; subst v2; [|cbn in Hj; lia].
    destruct (create_each_fail E u c (Some true) vals f j2 l1 s1
                ltac:(subst j2; lia) Hok2 Hbad2)
      as (kept & s' & Hr & Hm & Hall & Hrows).
    exists (l1 ++ kept), s'. unfold LabelerServer.createLabels, bind.
    rewrite Hr1, Hr.
    assert (Hf : firstn j (map (fun v => (v, @None bool)) v1
                           ++ map (fun v => (v, Some true)) vals)
                 = map val_neg (l1 ++ kept)).
    { rewrite firstn_app, length_map. fold j2.
      rewrite firstn_all2 by (rewrite length_map; lia).
      rewrite map_app, Hm1, Hm, firstn_map. reflexivity. }
    rewrite Hf. split; [reflexivity|]. split.
    { rewrite Hrows, Hrows1, map_app, app_assoc. reflexivity. }
    split.
    { eapply Hlen; [symmetry; exact Hf|]. rewrite length_app, !length_map. lia. }
    split; [reflexivity | apply Forall_app; auto].
Qed.

Lemma createLabels_partial_failure_witness :
  exists kept s',
    LabelerServer.createLabels Demo.E ("at://x", Some "c1")
      (Some ["spam"; "rude"], Some ["porn"])
      (Demo.fresh [None; None; Some (RunThrows "disk I/O error")])
    = (inl (JsError "disk I/O error"), s')
    /\ rows (db s')
       = rows (db (Demo.fresh [None; None; Some (RunThrows "disk I/O error")]))
         ++ map stored kept
    /\ List.length kept = 2%nat
    /\ map val_neg kept
       = firstn 2 (calls_of (Some ["spam"; "rude"]) (Some ["porn"]))
    /\ Forall (fun r => uri (label r) = "at://x" /\ cid (label r) = Some "c1") kept.
Proof.
  apply (createLabels_partial_failure Demo.E "at://x" (Some "c1")
           (Some ["spam"; "rude"]) (Some ["porn"])
           (Demo.fresh [None; None; Some (RunThrows "disk I/O error")])
           2%nat (RunThrows "disk I/O error")).
  - cbn. lia.
  - intros i Hi. destruct i as [|[|i]]; [reflexivity | reflexivity | lia].
  - reflexivity.
Defined.

(* ================================================================== *)
(** ** Properties of [searchLabels] *)
(* ================================================================== *)

Section Search.

Lemma chars_str (l : list ascii) : Js.chars (Js.str l) = l.
Proof. apply list_ascii_of_string_of_list_ascii. Qed.

Lemma remove_percent_idem (l : list ascii) :
  Js.remove_percent (Js.remove_percent l) = Js.remove_percent l.
Proof.
  unfold Js.remove_percent. induction l as [|c l IH]; cbn; [reflexivity|].
  destruct (Ascii.eqb c Js.percent) eqn:Hc; cbn; [exact IH|].
  rewrite Hc. cbn. now rewrite IH.
Qed.

Lemma remove_percent_no_percent (l : list ascii) :
  ~ In Js.percent (Js.remove_percent l).
Proof.
  unfold Js.remove_percent. intros H. apply filter_In in H. destruct H as [_ H].
  rewrite Ascii.eqb_refl in H. discriminate.
Qed.

Lemma remove_percent_keeps (x : ascii) (l : list ascii) :
  In x (Js.remove_percent l) -> In x l.
Proof. unfold Js.remove_percent. intros H. apply filter_In in H. tauto. Qed.

Lemma escape_underscore_plain (l : list ascii) :
  ~ In Js.underscore l -> Js.escape_underscore l = l.
Proof.
  unfold Js.escape_underscore. induction l as [|c l IH]; cbn; [reflexivity|].
  intros H. destruct (Ascii.eqb_spec c Js.underscore) as [->|Hne]; [tauto|].
  cbn. f_equal. apply IH. tauto.
Qed.

Lemma escape_underscore_app (l1 l2 : list ascii) :
  Js.escape_underscore (l1 ++ l2) = Js.escape_underscore l1 ++ Js.escape_underscore l2.
Proof. unfold Js.escape_underscore. apply flat_map_app. Qed.

Lemma escape_underscore_nonempty (l : list ascii) :
  l <> [] -> Js.escape_underscore l <> [].
Proof.
  destruct l as [|c l]; [congruence|]. intros _. unfold Js.escape_underscore. cbn.
  destruct (Ascii.eqb c Js.underscore); cbn; discriminate.
Qed.

Lemma indexOf_absent (x : ascii) (l : list ascii) :
  ~ In x l -> Js.indexOf x l = None.
Proof.
  induction l as [|c l IH]; cbn; [reflexivity|]. intros H.
  destruct (Ascii.eqb_spec c x) as [->|Hne]; [tauto|].
  rewrite IH by tauto. reflexivity.
Qed.

Lemma indexOf_first (x : ascii) (pre post : list ascii) :
  exists k, Js.indexOf x (pre ++ x :: post) = Some k /\ (k <= List.length pre)%nat.
Proof.
  induction pre as [|c pre IH]; cbn.
  - rewrite Ascii.eqb_refl. exists O. split; [reflexivity | lia].
  - destruct (Ascii.eqb c x).
    + exists O. split; [reflexivity | lia].
    + destruct IH as (k & -> & Hk). exists (S k). cbn. split; [reflexivity | lia].
Qed.

(** The callback throws on a pattern that, once its percent signs are
    gone, has a star followed by at least one more character. *)
Lemma like_pattern_interior (p : string) (pre post : list ascii) :
  Js.remove_percent (Js.chars p) = pre ++ Js.star :: post ->
  post <> [] ->
  DbProvider.like_pattern p
  = inl (XRPCError 400 "InvalidRequest"
           "Only trailing wildcards are supported in uriPatterns").
Proof.
  intros Hp Hpost. unfold DbProvider.like_pattern. rewrite Hp.
  rewrite escape_underscore_app.
  change (Js.star :: post) with ([Js.star] ++ post).
  rewrite escape_underscore_app. cbn [Js.escape_underscore flat_map app].
  change (if Ascii.eqb Js.star Js.underscore then [Js.backslash; Js.underscore]
          else [Js.star]) with [Js.star]. cbn [app].
  pose proof (@escape_underscore_nonempty post Hpost) as Hne.
  destruct (indexOf_first Js.star (Js.escape_underscore pre) (Js.escape_underscore post))
    as (k & -> & Hk).
  rewrite length_app. cbn [List.length].
  destruct (Js.escape_underscore post) as [|c post']; [congruence|]. cbn [List.length].
  replace (Nat.eqb k _) with false; [reflexivity|].
  symmetry. apply Nat.eqb_neq. lia.
Qed.

Lemma like_pattern_error (p : string) (e : error) :
  DbProvider.like_pattern p = inl e ->
  e = XRPCError 400 "InvalidRequest"
        "Only trailing wildcards are supported in uriPatterns".
Proof.
  unfold DbProvider.like_pattern.
  destruct (Js.indexOf _ _) as [k|]; [|discriminate].
  destruct (negb _); congruence.
Qed.

Lemma map_throw_error (A B : Type) (f : A -> error + B) (e0 : error) (xs : list A) :
  (forall x e, f x = inl e -> e = e0) ->
  (exists x, In x xs /\ f x = inl e0) ->
  DbProvider.map_throw f xs = inl e0.
Proof.
  intros Huniq. induction xs as [|x xs IH]; intros (y & Hin & Hy); [destruct Hin|].
  cbn [DbProvider.map_throw]. destruct (f x) as [e|b] eqn:Hx.
  - f_equal. eapply Huniq. exact Hx.
  - destruct Hin as [->|Hin]; [congruence|].
    rewrite IH by (exists y; auto). reflexivity.
Qed.

End Search.

(** C8 (as the code has it). When the list of uri patterns does not
    contain the bare pattern [*], and some pattern, once its percent signs
    are deleted, has a [*] followed by at least one more character,
    [searchLabels] throws InvalidRequest (status 400) and returns no
    records, whatever the other arguments and the table are. *)
Theorem interior_wildcard_rejected
        (cursor limit : option Z) (uriPatterns sources : list string) (d : Db)
        (p : string) (pre post : list ascii)
        (Hall : existsb (String.eqb "*") uriPatterns = false)
        (Hin : In p uriPatterns)
        (Hp : Js.remove_percent (Js.chars p) = pre ++ Js.star :: post)
        (Hpost : post <> []) :
  DbProvider.searchLabels cursor limit uriPatterns sources d
  = inl (XRPCError 400 "InvalidRequest"
           "Only trailing wildcards are supported in uriPatterns").
Proof.
  unfold DbProvider.searchLabels, DbProvider.patterns_of. rewrite Hall.
  rewrite (@map_throw_error _ _ DbProvider.like_pattern
             (XRPCError 400 "InvalidRequest"
                "Only trailing wildcards are supported in uriPatterns")).
  - reflexivity.
  - apply like_pattern_error.
  - exists p. split; [exact Hin|]. eapply like_pattern_interior; eassumption.
Qed.

Lemma interior_wildcard_rejected_witness :
  DbProvider.searchLabels (Some 0) (Some 50) ["at://ok/*"; "a*b*"] [] Demo.two_rows
  = inl (XRPCError 400 "InvalidRequest"
           "Only trailing wildcards are supported in uriPatterns").
Proof.
  apply (@interior_wildcard_rejected (Some 0) (Some 50) ["at://ok/*"; "a*b*"] []
           Demo.two_rows "a*b*" ["a"%char] ["b"%char; "*"%char]).
  - reflexivity.
  - cbn. auto.
  - reflexivity.
  - discriminate.
Defined.

(** C8, the claim as stated fails: a pattern with a [*] before its last
    character is accepted when the list also holds the bare pattern [*]
    (no pattern is looked at, every row is returned), and when the
    characters after the [*] are percent signs (they are deleted before
    the position of the [*] is checked). *)
Lemma interior_wildcard_accepted :
  DbProvider.searchLabels None None ["*"; "a*b*"] [] Demo.two_rows
  = inr (rows Demo.two_rows)
  /\ DbProvider.searchLabels None None ["a*%"] [] Demo.two_rows
     = inr [mkSaved 1 (Demo.lab "a" "did:plc:other" "spam")].
Proof. split; reflexivity. Qed.

Section Matching.

Lemma like_plain_refl (q : list ascii) :
  ~ In Js.percent q -> ~ In Js.underscore q -> Sql.like q q = true.
Proof.
  induction q as [|c q IH]; intros Hp Hu; cbn [Sql.like]; [reflexivity|].
  destruct (Ascii.eqb_spec c Js.percent) as [->|_]; [cbn in Hp; tauto|].
  destruct (Ascii.eqb_spec c Js.underscore) as [->|_]; [cbn in Hu; tauto|].
  unfold Sql.eqb_nocase. rewrite Ascii.eqb_refl. cbn [andb].
  apply IH; [cbn in Hp; tauto | cbn in Hu; tauto].
Qed.

Lemma like_cons_literal (c : ascii) (q s : list ascii) :
  c <> Js.percent -> c <> Js.underscore ->
  Sql.like (c :: q) s
  = match s with
    | [] => false
    | d :: s' => Sql.eqb_nocase c d && Sql.like q s'
    end.
Proof.
  intros Hp Hu. cbn [Sql.like].
  destruct (Ascii.eqb_spec c Js.percent) as [->|_]; [congruence|].
  destruct (Ascii.eqb_spec c Js.underscore) as [->|_]; [congruence|].
  reflexivity.
Qed.

Lemma eqb_nocase_percent (d : ascii) :
  d <> Js.percent -> Sql.eqb_nocase d Js.percent = false.
Proof.
  intros Hd. apply Ascii.eqb_neq. intros H. apply Hd. clear Hd. revert H.
  destruct d as [b0 b1 b2 b3 b4 b5 b6 b7].
  destruct b0, b1, b2, b3, b4, b5, b6, b7; vm_compute; intros H;
    first [reflexivity | discriminate H].
Qed.

(** No LIKE pattern that the callback makes matches a text that starts
    with a percent sign: the pattern is empty or starts with a literal
    character other than the percent sign. *)
Lemma like_percent_head (l t : list ascii) :
  Sql.like (Js.escape_underscore (Js.remove_percent l)) (Js.percent :: t) = false.
Proof.
  unfold Js.escape_underscore, Js.remove_percent.
  induction l as [|d l IHl]; cbn [filter flat_map]; [reflexivity|].
  destruct (Ascii.eqb_spec d Js.percent) as [->|Hdp]; cbn [negb]; [exact IHl|].
  cbn [flat_map]. destruct (Ascii.eqb_spec d Js.underscore) as [->|Hdu]; cbn [app].
  - rewrite like_cons_literal by discriminate. reflexivity.
  - rewrite like_cons_literal by assumption.
    rewrite (eqb_nocase_percent d Hdp). reflexivity.
Qed.

(** A uri that contains a percent sign is never matched by the LIKE
    pattern made from itself: where the uri has its first percent sign or
    underscore, the pattern has another literal character. *)
Lemma like_own_pattern (l : list ascii) :
  In Js.percent l ->
  Sql.like (Js.escape_underscore (Js.remove_percent l)) l = false.
Proof.
  unfold Js.escape_underscore, Js.remove_percent.
  induction l as [|c l IH]; intros Hin; [destruct Hin|].
  cbn [filter].
  destruct (Ascii.eqb_spec c Js.percent) as [->|Hcp]; cbn [negb].
  - (* the uri has a percent sign here, the pattern has not *)
    apply like_percent_head.
  - cbn [flat_map]. destruct (Ascii.eqb_spec c Js.underscore) as [->|Hcu]; cbn [app].
    + (* the uri has an underscore here, the pattern a backslash *)
      rewrite like_cons_literal by discriminate. reflexivity.
    + rewrite like_cons_literal by assumption.
      unfold Sql.eqb_nocase at 1. rewrite Ascii.eqb_refl. cbn [andb].
      apply IH. destruct Hin as [Heq|Hin]; [congruence | exact Hin].
Qed.

Lemma insert_by_id_In (r x : SavedLabel) (l : list SavedLabel) :
  In x (Sql.insert_by_id r l) <-> x = r \/ In x l.
Proof.
  induction l as [|y l IH]; cbn [Sql.insert_by_id].
  - cbn. intuition congruence.
  - destruct (id r <=? id y); cbn [In]; [intuition congruence|].
    rewrite IH. intuition congruence.
Qed.

Lemma order_by_id_In (x : SavedLabel) (l : list SavedLabel) :
  In x (Sql.order_by_id l) <-> In x l.
Proof.
  unfold Sql.order_by_id. induction l as [|y l IH]; cbn [fold_right In]; [tauto|].
  rewrite insert_by_id_In, IH. intuition congruence.
Qed.

Lemma insert_by_id_length (r : SavedLabel) (l : list SavedLabel) :
  List.length (Sql.insert_by_id r l) = S (List.length l).
Proof.
  induction l as [|y l IH]; cbn [Sql.insert_by_id]; [reflexivity|].
  destruct (id r <=? id y); cbn [List.length]; [reflexivity | now rewrite IH].
Qed.

Lemma order_by_id_length (l : list SavedLabel) :
  List.length (Sql.order_by_id l) = List.length l.
Proof.
  unfold Sql.order_by_id. induction l as [|y l IH]; cbn [fold_right]; [reflexivity|].
  rewrite insert_by_id_length, IH. reflexivity.
Qed.

Lemma limit_rows_In (n : Z) (x : SavedLabel) (l : list SavedLabel) :
  In x (Sql.limit_rows n l) -> In x l.
Proof.
  unfold Sql.limit_rows. destruct (n <? 0); [auto|]. intros H.
  rewrite <- (firstn_skipn (Z.to_nat n) l). apply in_or_app. left. exact H.
Qed.

Lemma limit_rows_all (n : Z) (l : list SavedLabel) :
  Z.of_nat (List.length l) <= n -> Sql.limit_rows n l = l.
Proof.
  unfold Sql.limit_rows. intros H. destruct (n <? 0); [reflexivity|].
  apply firstn_all2. lia.
Qed.

(** With a single LIKE pattern the flat WHERE clause is a conjunction. *)
Lemma eval_where_one (q : string) (sources : list string) (cursor : option Z)
      (r : SavedLabel) :
  Sql.eval_where (DbProvider.where_clause [q] sources cursor) r
  = Sql.like (Js.chars q) (Js.chars (uri (label r))) && passes sources cursor r.
Proof.
  unfold Sql.eval_where, DbProvider.where_clause, passes.
  destruct sources as [|s0 ss]; destruct (DbProvider.cursor_truthy cursor) as [c|];
    cbn; repeat rewrite ?andb_true_r, ?andb_assoc; reflexivity.
Qed.

(** Without a LIKE pattern only the other filters remain. *)
Lemma eval_where_none (sources : list string) (cursor : option Z) (r : SavedLabel) :
  Sql.eval_where (DbProvider.where_clause [] sources cursor) r
  = passes sources cursor r.
Proof.
  unfold Sql.eval_where, DbProvider.where_clause, passes.
  destruct sources as [|s0 ss]; destruct (DbProvider.cursor_truthy cursor) as [c|];
    cbn; repeat rewrite ?andb_true_r; reflexivity.
Qed.

End Matching.

(** X27. [searchLabels] deletes every percent sign from each uri pattern
    before anything else is done with it: a pattern and the pattern
    without its percent signs give the same LIKE pattern.  For a pattern
    that contains a percent sign and no wildcard [*], the search returns
    no record whose uri is the pattern as written; and when the pattern
    has no underscore either (the one-character wildcard of LIKE), the
    LIKE pattern is the pattern without its percent signs and the search
    returns a record whose uri is just that (when the record passes the
    source and cursor filters and the limit does not cut the result). *)
Theorem percent_deleted_before_matching (p : string)
        (Hpct : In Js.percent (Js.chars p))
        (Hstar : ~ In Js.star (Js.chars p)) :
  (forall p', DbProvider.like_pattern p'
              = DbProvider.like_pattern (Js.str (Js.remove_percent (Js.chars p'))))
  /\ DbProvider.patterns_of [p]
     = inr [Js.str (Js.escape_underscore (Js.remove_percent (Js.chars p)))]
  /\ (~ In Js.underscore (Js.chars p) ->
      DbProvider.patterns_of [p] = inr [Js.str (Js.remove_percent (Js.chars p))])
  /\ forall cursor limit sources d,
      exists rs,
        DbProvider.searchLabels cursor limit [p] sources d = inr rs
        /\ (forall r, In r rs -> uri (label r) <> p)
        /\ (~ In Js.underscore (Js.chars p) ->
            forall r, In r (rows d) ->
                      uri (label r) = Js.str (Js.remove_percent (Js.chars p)) ->
                      passes sources cursor r = true ->
                      Z.of_nat (List.length (rows d)) <= limit_of limit ->
                      In r rs).
Proof.
  set (q := Js.remove_percent (Js.chars p)).
  assert (Hq1 : ~ In Js.percent q) by apply remove_percent_no_percent.
  assert (Hq3 : ~ In Js.star (Js.escape_underscore q)).
  { intros H. apply Hstar. apply (remove_percent_keeps Js.star).
    fold q. unfold Js.escape_underscore in H. apply in_flat_map in H.
    destruct H as (x & Hx & Hin).
    destruct (Ascii.eqb_spec x Js.underscore) as [->|_].
    - destruct Hin as [H|[H|[]]]; discriminate H.
    - destruct Hin as [<-|[]]. exact Hx. }
  assert (Hlp : DbProvider.like_pattern p = inr (Js.str (Js.escape_underscore q))).
  { unfold DbProvider.like_pattern. fold q.
    rewrite (indexOf_absent Js.star _ Hq3). reflexivity. }
  assert (Hpat : DbProvider.patterns_of [p] = inr [Js.str (Js.escape_underscore q)]).
  { unfold DbProvider.patterns_of. cbn [existsb].
    destruct (String.eqb_spec "*" p) as [Heq|_].
    - exfalso. apply Hstar. rewrite <- Heq. cbn. auto.
    - cbn [orb DbProvider.map_throw]. rewrite Hlp. reflexivity. }
  assert (Hplain : ~ In Js.underscore (Js.chars p) -> Js.escape_underscore q = q).
  { intros Hund. apply escape_underscore_plain. intros H. apply Hund.
    eapply remove_percent_keeps. exact H. }
  split.
  { intros p'. unfold DbProvider.like_pattern.
    rewrite chars_str, remove_percent_idem. reflexivity. }
  split; [exact Hpat|].
  split; [intros Hund; rewrite Hpat, (Hplain Hund); reflexivity|].
  intros cursor limit sources d.
  unfold DbProvider.searchLabels. rewrite Hpat.
  eexists. split; [reflexivity|]. fold (limit_of limit). split.
  - intros r Hr Huri.
    apply limit_rows_In, order_by_id_In, filter_In in Hr. destruct Hr as [_ Hw].
    rewrite eval_where_one, chars_str, Huri in Hw.
    apply andb_true_iff in Hw. destruct Hw as [Hw _].
    subst q. rewrite (like_own_pattern _ Hpct) in Hw. discriminate.
  - intros Hund r Hr Huri Hpass Hlim.
    assert (Hq2 : ~ In Js.underscore q).
    { intros H. apply Hund. eapply remove_percent_keeps. exact H. }
    rewrite limit_rows_all.
    + apply order_by_id_In, filter_In. split; [exact Hr|].
      rewrite eval_where_one, Hpass, chars_str, Huri, chars_str, (Hplain Hund).
      rewrite (like_plain_refl q Hq1 Hq2). reflexivity.
    + rewrite order_by_id_length.
      pose proof (filter_length_le
                    (Sql.eval_where
                       (DbProvider.where_clause [Js.str (Js.escape_underscore q)]
                          sources cursor))
                    (rows d)). lia.
Qed.

Lemma percent_deleted_before_matching_witness :
  DbProvider.patterns_of ["a%b"] = inr ["ab"]
  /\ DbProvider.searchLabels None None ["a%b"] [] Demo.percent_rows
     = inr [mkSaved 1 (Demo.lab "ab" "did:plc:labeler" "spam")]
  /\ forall cursor limit sources d,
      exists rs,
        DbProvider.searchLabels cursor limit ["a%b"] sources d = inr rs
        /\ (forall r, In r rs -> uri (label r) <> "a%b")
        /\ (~ In Js.underscore (Js.chars "a%b") ->
            forall r, In r (rows d) ->
                      uri (label r) = "ab" ->
                      passes sources cursor r = true ->
                      Z.of_nat (List.length (rows d)) <= limit_of limit ->
                      In r rs).
Proof.
  split; [reflexivity|]. split; [reflexivity|].
  apply (percent_deleted_before_matching "a%b").
  - cbn. auto.
  - cbn. intros [H|[H|[H|[]]]]; discriminate.
Defined.

(** C10, the failing input.  The pattern [a%_b] has a percent sign and no
    [*]; without its percent sign it is [a_b].  The search for it does
    not return the record whose uri is [a_b]: the code puts a backslash
    before the underscore, the query has no ESCAPE clause, and so the
    LIKE pattern asks for the letter a, a backslash, any one character
    and the letter b.  It returns the record whose uri has the backslash
    instead. *)
Theorem percent_pattern_with_underscore_misses :
  Js.str (Js.remove_percent (Js.chars "a%_b")) = "a_b"
  /\ DbProvider.patterns_of ["a%_b"] = inr ["a\_b"]
  /\ DbProvider.searchLabels None None ["a%_b"] [] Demo.underscore_rows
     = inr [mkSaved 2 (Demo.lab "a\_b" "did:plc:labeler" "spam")]
  /\ In (mkSaved 1 (Demo.lab "a_b" "did:plc:labeler" "spam")) (rows Demo.underscore_rows)
  /\ passes [] None (mkSaved 1 (Demo.lab "a_b" "did:plc:labeler" "spam")) = true.
Proof. repeat split; first [reflexivity | cbn; auto]. Qed.

Section Ordering.

Lemma insert_by_id_sorted (r : SavedLabel) (l : list SavedLabel) :
  Sorted id_le l -> Sorted id_le (Sql.insert_by_id r l).
Proof.
  induction l as [|x l IH]; intros Hs; cbn [Sql.insert_by_id].
  - repeat constructor.
  - destruct (id r <=? id x) eqn:Hle.
    + constructor; [exact Hs|]. constructor. unfold id_le. lia.
    + inversion Hs as [|? ? Hs' Hhd]; subst. constructor; [apply IH; exact Hs'|].
      destruct l as [|y l]; cbn [Sql.insert_by_id].
      * constructor. unfold id_le. lia.
      * destruct (id r <=? id y); constructor.
        -- unfold id_le. lia.
        -- inversion Hhd; assumption.
Qed.

Lemma order_by_id_sorted (l : list SavedLabel) : Sorted id_le (Sql.order_by_id l).
Proof.
  unfold Sql.order_by_id. induction l as [|x l IH]; cbn [fold_right].
  - constructor.
  - apply insert_by_id_sorted, IH.
Qed.

Lemma firstn_sorted (n : nat) (l : list SavedLabel) :
  Sorted id_le l -> Sorted id_le (firstn n l).
Proof.
  revert l. induction n as [|n IH]; intros l Hs; cbn [firstn]; [constructor|].
  destruct l as [|x l]; [constructor|].
  inversion Hs as [|? ? Hs' Hhd]; subst. constructor; [apply IH; exact Hs'|].
  destruct n; cbn [firstn]; [constructor|].
  destruct l; [constructor|]. inversion Hhd; constructor; assumption.
Qed.

Lemma limit_rows_sorted (n : Z) (l : list SavedLabel) :
  Sorted id_le l -> Sorted id_le (Sql.limit_rows n l).
Proof.
  unfold Sql.limit_rows. destruct (n <? 0); [auto | apply firstn_sorted].
Qed.

Lemma limit_rows_length (n : Z) (l : list SavedLabel) :
  0 <= n -> Z.of_nat (List.length (Sql.limit_rows n l)) <= n.
Proof.
  unfold Sql.limit_rows. intros Hn. destruct (n <? 0) eqn:Hneg; [lia|].
  rewrite length_firstn. lia.
Qed.

(** What does hold for every search: the result is in ascending id order
    and, for a limit that is not negative, no longer than the limit; with
    a single uri pattern every returned row matches the pattern and
    passes the source and cursor filters. *)
Lemma searchLabels_sorted_bounded (cursor limit : option Z)
      (uriPatterns sources : list string) (d : Db) (rs : list SavedLabel) :
  DbProvider.searchLabels cursor limit uriPatterns sources d = inr rs ->
  Sorted id_le rs
  /\ (0 <= limit_of limit -> Z.of_nat (List.length rs) <= limit_of limit).
Proof.
  unfold DbProvider.searchLabels.
  destruct (DbProvider.patterns_of uriPatterns) as [e|ps]; [discriminate|].
  intros H. inversion H; subst. fold (limit_of limit). split.
  - apply limit_rows_sorted, order_by_id_sorted.
  - apply limit_rows_length.
Qed.

Lemma searchLabels_one_pattern (cursor limit : option Z) (p q : string)
      (sources : list string) (d : Db) (rs : list SavedLabel) :
  DbProvider.patterns_of [p] = inr [q] ->
  DbProvider.searchLabels cursor limit [p] sources d = inr rs ->
  forall r, In r rs ->
    Sql.like (Js.chars q) (Js.chars (uri (label r))) = true
    /\ passes sources cursor r = true.
Proof.
  unfold DbProvider.searchLabels. intros -> H r Hr. inversion H; subst.
  apply limit_rows_In, order_by_id_In, filter_In in Hr. destruct Hr as [_ Hw].
  rewrite eval_where_one in Hw. apply andb_true_iff in Hw. exact Hw.
Qed.

End Ordering.

(** C2, the failing input.  With two uri patterns, a non-empty source list
    and a non-zero cursor, the search returns a record that matches the
    first pattern although its [src] is not one of the sources and its id
    is not above the cursor: the LIKE alternatives are not parenthesised,
    so the source and cursor conditions bind to the last alternative
    only.  Here patterns a and b, the source did:plc:labeler and cursor 1
    return the row with id 1, whose source is did:plc:other. *)
Theorem searchLabels_or_escapes_filters :
  DbProvider.searchLabels (Some 1) (Some 50) ["a"; "b"] ["did:plc:labeler"]
    Demo.two_rows
  = inr [mkSaved 1 (Demo.lab "a" "did:plc:other" "spam");
         mkSaved 2 (Demo.lab "b" "did:plc:labeler" "spam")]
  /\ passes ["did:plc:labeler"] (Some 1)
       (mkSaved 1 (Demo.lab "a" "did:plc:other" "spam")) = false
  /\ existsb (String.eqb (src (Demo.lab "a" "did:plc:other" "spam")))
       ["did:plc:labeler"] = false
  /\ (1 <? id (mkSaved 1 (Demo.lab "a" "did:plc:other" "spam"))) = false
  /\ DbProvider.where_clause ["a"; "b"] ["did:plc:labeler"] (Some 1)
     = [Sql.TTrue; Sql.TAnd; Sql.TUriLike "a"; Sql.TOr; Sql.TUriLike "b";
        Sql.TAnd; Sql.TSrcIn ["did:plc:labeler"]; Sql.TAnd; Sql.TIdGt 1].
Proof. repeat split; reflexivity. Qed.

(* ================================================================== *)
(** ** Properties of the moderation-event endpoint *)
(* ================================================================== *)

Lemma parseAuthHeaderDid_pure (E : Env) (req : Request) (s : Server) :
  snd (Handlers.parseAuthHeaderDid E req s) = s.
Proof.
  unfold Handlers.parseAuthHeaderDid.
  destruct (Handlers.truthy_str (authorization req)) as [h|]; [|reflexivity].
  destruct (nth_error _ 0) as [ty|]; [|reflexivity].
  destruct (nth_error _ 1) as [[|c tk]|]; try reflexivity.
  destruct (String.eqb _ _); [|reflexivity].
  destruct (verifyJwt E _ _ _); reflexivity.
Qed.

(** C9. A request whose body has no [createdBy] never gets past the
    field check of [emitEventHandler]: the handler throws and no label is
    created or emitted; and once the bearer token is verified and the
    caller is authorized (the two steps that run before the body is read),
    the error is InvalidRequest, Missing required field(s), whatever the
    event, the subject and the label values are. *)
Theorem emitEvent_requires_createdBy (E : Env) (req : Request) (s : Server)
        (Hby : createdBy (body req) = None) :
  (exists e, Handlers.emitEventHandler E req s = (inl e, s))
  /\ forall actorDid,
      fst (Handlers.parseAuthHeaderDid E req s) = inr actorDid ->
      auth E actorDid = true ->
      Handlers.emitEventHandler E req s
      = (inl (XRPCError 400 "InvalidRequest" "Missing required field(s)"), s).
Proof.
  pose proof (parseAuthHeaderDid_pure E req s) as Hpure.
  unfold Handlers.emitEventHandler, bind.
  destruct (Handlers.parseAuthHeaderDid E req s) as [[e|a] s1] eqn:Hparse;
    cbn [fst snd] in *; subst s1.
  - split; [eexists; reflexivity|]. intros actorDid H. discriminate.
  - assert (Hmiss :
      match event (body req), subject (body req),
            Handlers.truthy_str (createdBy (body req)) with
      | Some _, Some _, Some _ => False
      | _, _, _ => True
      end).
    { rewrite Hby. cbn. destruct (event (body req)), (subject (body req)); exact I. }
    destruct (auth E a) eqn:Hauth; cbn [negb].
    + split.
      * destruct (event (body req)), (subject (body req)),
          (Handlers.truthy_str (createdBy (body req)));
          try (eexists; reflexivity); contradiction.
      * intros actorDid _ _.
        destruct (event (body req)), (subject (body req)),
          (Handlers.truthy_str (createdBy (body req)));
          try reflexivity; contradiction.
    + split; [eexists; reflexivity|].
      intros actorDid Ha Hb. inversion Ha; subst. congruence.
Qed.

Lemma emitEvent_requires_createdBy_witness :
  Handlers.emitEventHandler Demo.E (Demo.emit_request None) (Demo.fresh [])
  = (inl (XRPCError 400 "InvalidRequest" "Missing required field(s)"), Demo.fresh [])
  /\ fst (Handlers.emitEventHandler Demo.E
            (Demo.emit_request (Some "did:plc:labeler")) (Demo.fresh []))
     = inr {| o_id := 1;
              o_event := {| e_type := Some Handlers.modEventLabel;
                            createLabelVals := Some ["spam"];
                            negateLabelVals := None |};
              o_subject := {| s_type := Some Handlers.repoRef;
                              s_did := Some "did:plc:x";
                              s_uri := None; s_cid := None |};
              o_subjectBlobCids := Some [];
              o_createdBy := "did:plc:labeler";
              o_createdAt := "2024-01-01T00:00:00.000Z" |}.
Proof.
  split; [|reflexivity].
  apply (proj2 (@emitEvent_requires_createdBy Demo.E (Demo.emit_request None)
                  (Demo.fresh []) eq_refl) "did:plc:labeler"); reflexivity.
Defined.

(* ================================================================== *)
(** ** Properties of the subscription handler *)
(* ================================================================== *)

Section Wire.

Import LabelerServer Subscription.

Lemma received_ws_send (ws w : WS) (f : Frame) (s : Server) :
  received ws (ws_send w f s)
  = received ws s ++ (if Nat.eqb w ws then [f] else []).
Proof.
  unfold received, ws_send. cbn [sent]. rewrite filter_app, map_app. cbn.
  destruct (Nat.eqb w ws); reflexivity.
Qed.

Lemma received_fold_send (ws : WS) (f : Frame) (subs : list WS) :
  forall s,
    received ws (fold_left (fun st w => ws_send w f st) subs s)
    = received ws s ++ map (fun _ => f) (filter (fun w => Nat.eqb w ws) subs).
Proof.
  induction subs as [|w subs IH]; intros s; cbn [fold_left filter map].
  - now rewrite app_nil_r.
  - rewrite IH, received_ws_send.
    destruct (Nat.eqb w ws); cbn [map]; rewrite <- app_assoc; reflexivity.
Qed.

Lemma registered_spec (ws : WS) (s : Server) :
  registered ws s = true <->
  exists subs, Map.get subscribeLabels (connections s) = Some subs /\ In ws subs.
Proof.
  unfold registered. destruct (Map.get subscribeLabels (connections s)) as [subs|].
  - rewrite existsb_exists. split.
    + intros (x & Hin & Hx). apply Nat.eqb_eq in Hx. subst x. eauto.
    + intros (subs' & Heq & Hin). inversion Heq; subst. exists ws.
      split; [exact Hin | apply Nat.eqb_refl].
  - split; [discriminate | intros (subs & H & _); discriminate].
Qed.

Lemma filter_none (ws : WS) (subs : list WS) :
  ~ In ws subs -> filter (fun w => Nat.eqb w ws) subs = [].
Proof.
  induction subs as [|w subs IH]; cbn; [reflexivity|]. intros H.
  destruct (Nat.eqb_spec w ws) as [->|_]; [tauto|]. apply IH. tauto.
Qed.

(** A socket that is not registered gets nothing from [emitLabel]. *)
Lemma emitLabel_unregistered (ws : WS) (i : Z) (l : Label) (s : Server) :
  registered ws s = false -> received ws (emitLabel i l s) = received ws s.
Proof.
  intros Hreg. unfold emitLabel.
  destruct (Map.get subscribeLabels (connections s)) as [subs|] eqn:Hget; [|reflexivity].
  rewrite received_fold_send, filter_none; [now rewrite app_nil_r|].
  intros Hin. assert (registered ws s = true) by (apply registered_spec; eauto).
  congruence.
Qed.

(** A registered socket gets the frame of every emitted label. *)
Lemma emitLabel_registered (ws : WS) (i : Z) (l : Label) (s : Server) :
  registered ws s = true -> delivered ws i (emitLabel i l s) = true.
Proof.
  intros Hreg. apply registered_spec in Hreg. destruct Hreg as (subs & Hget & Hin).
  unfold delivered, emitLabel. rewrite Hget, received_fold_send, existsb_app.
  apply orb_true_iff. right. apply existsb_exists.
  exists (MessageFrame i l). split.
  - apply in_map_iff. exists ws. split; [reflexivity|].
    apply filter_In. split; [exact Hin | apply Nat.eqb_refl].
  - cbn. apply Z.eqb_refl.
Qed.

Lemma emitLabel_keeps_delivered (ws : WS) (i j : Z) (l : Label) (s : Server) :
  delivered ws j s = true -> delivered ws j (emitLabel i l s) = true.
Proof.
  unfold delivered, emitLabel. intros H.
  destruct (Map.get subscribeLabels (connections s)) as [subs|]; [|exact H].
  rewrite received_fold_send, existsb_app, H. reflexivity.
Qed.

Lemma emitLabel_registered_same (ws : WS) (i : Z) (l : Label) (s : Server) :
  registered ws (emitLabel i l s) = registered ws s.
Proof.
  unfold registered. destruct (emitLabel_frame i l s) as (_ & _ & -> & _). reflexivity.
Qed.

Lemma send_keeps_delivered (ws w : WS) (j : Z) (f : Frame) (s : Server) :
  delivered ws j s = true -> delivered ws j (ws_send w f s) = true.
Proof.
  unfold delivered. intros H. rewrite received_ws_send, existsb_app, H. reflexivity.
Qed.

Lemma send_delivers (ws : WS) (j : Z) (l : Label) (s : Server) :
  delivered ws j (ws_send ws (MessageFrame j l) s) = true.
Proof.
  unfold delivered. rewrite received_ws_send, Nat.eqb_refl, existsb_app. cbn.
  rewrite Z.eqb_refl. apply orb_true_iff. right. reflexivity.
Qed.

Lemma map_get_set (nsid : string) (v : list WS) (m : list (string * list WS)) :
  Map.get nsid (Map.set nsid v m) = Some v.
Proof.
  induction m as [|[k w] m IH]; cbn.
  - now rewrite String.eqb_refl.
  - destruct (String.eqb k nsid) eqn:Hk; cbn; rewrite Hk; [reflexivity | exact IH].
Qed.

Lemma addSubscription_registers (ws : WS) (s : Server) :
  registered ws (addSubscription subscribeLabels ws s) = true.
Proof.
  apply registered_spec. unfold addSubscription, set_connections. cbn [connections].
  eexists. split; [apply map_get_set|].
  unfold Map.add.
  destruct (existsb (Nat.eqb ws) _) eqn:Hex.
  - apply existsb_exists in Hex. destruct Hex as (x & Hin & Hx).
    apply Nat.eqb_eq in Hx. now subst x.
  - apply in_or_app. right. cbn. auto.
Qed.

Lemma max_id_attained (l : list SavedLabel) (m : Z) :
  Sql.max_id l = Some m -> exists r, In r l /\ id r = m.
Proof.
  destruct l as [|x l]; cbn [Sql.max_id]; [discriminate|]. intros H. inversion H as [Hm].
  clear H Hm. revert x.
  induction l as [|y l IH]; intros x; cbn [fold_left].
  - exists x. cbn. auto.
  - destruct (IH (if Z.max (id x) (id y) =? id x then x else y)) as (r & Hin & Hr).
    assert (Hacc : id (if Z.max (id x) (id y) =? id x then x else y)
                   = Z.max (id x) (id y)).
    { destruct (Z.eqb_spec (Z.max (id x) (id y)) (id x)); lia. }
    rewrite Hacc in Hr. exists r. split; [|exact Hr].
    cbn [In] in *. destruct Hin as [Hin|Hin]; [|auto].
    subst r. destruct (Z.max (id x) (id y) =? id x); auto.
Qed.

(** The check of [onOpen] fires for a cursor above every id of the log
    (above 0 when the log is empty). *)
Lemma isCursorInTheFuture_above (cursor : Z) (d : Db) :
  (forall r, In r (rows d) -> id r < cursor) ->
  (rows d = [] -> 0 < cursor) ->
  DbProvider.isCursorInTheFuture cursor d = true.
Proof.
  intros Hall Hempty. unfold DbProvider.isCursorInTheFuture.
  destruct (Sql.max_id (rows d)) as [m|] eqn:Hm.
  - apply max_id_attained in Hm. destruct Hm as (r & Hin & <-).
    apply Z.ltb_lt, Hall, Hin.
  - apply Z.ltb_lt, Hempty. destruct (rows d); [reflexivity | discriminate].
Qed.

(** The two slices of [saveLabel], run back to back, are [saveLabel]. *)
Lemma saveLabel_slices (E : Env) (l : Label) (w : World) :
  server (saveLabel_resume (List.length (pending w)) (saveLabel_call E l w))
  = snd (LabelerServer.saveLabel E l (server w)).
Proof.
  unfold saveLabel_resume, saveLabel_call, LabelerServer.saveLabel, bind,
    LabelerServer.db_saveLabel.
  destruct (DbProvider.saveLabel (sign E l) (db (server w))) as [[e|i] d];
    cbn [pending server snd].
  - replace (nth_error (pending w) (List.length (pending w))) with (@None (Z * Label)).
    + reflexivity.
    + symmetry. apply nth_error_None. lia.
  - rewrite nth_error_app2 by lia. rewrite Nat.sub_diag. reflexivity.
Qed.

End Wire.

Section FutureCursor.

Import LabelerServer Subscription.

Variable E : Env.
Variable ws : WS.
Variable cursor : Z.

(** A slice of a writer leaves the subscriber's position, the live set
    and the closed sockets alone, and sends nothing to a socket that is
    not registered. *)
Lemma writer_step_quiet (a : Action) (w : World) :
  a <> RunSubscriber ->
  registered ws (server w) = false ->
  pc (step E ws cursor w a) = pc w
  /\ registered ws (server (step E ws cursor w a)) = false
  /\ received ws (server (step E ws cursor w a)) = received ws (server w)
  /\ closed (server (step E ws cursor w a)) = closed (server w).
Proof.
  intros Ha Hreg. destruct a as [l|k|]; [| |congruence]; cbn [step].
  - unfold saveLabel_call.
    destruct (DbProvider.saveLabel (sign E l) (db (server w))) as [[e|i] d];
      cbn; auto.
  - unfold saveLabel_resume. destruct (nth_error (pending w) k) as [[i l]|]; cbn; [|auto].
    rewrite emitLabel_registered_same, (emitLabel_unregistered _ _ _ _ Hreg).
    destruct (emitLabel_frame i l (server w)) as (_ & _ & _ & Hc). auto.
Qed.

Lemma closed_run (sched : list Action) :
  forall w,
    pc w = SubClosed -> registered ws (server w) = false ->
    pc (run E ws cursor sched w) = SubClosed
    /\ registered ws (server (run E ws cursor sched w)) = false
    /\ received ws (server (run E ws cursor sched w)) = received ws (server w)
    /\ closed (server (run E ws cursor sched w)) = closed (server w).
Proof.
  unfold run. induction sched as [|a sched IH]; intros w Hpc Hreg; cbn [fold_left]; [auto|].
  destruct a as [l|k|].
  - destruct (@writer_step_quiet (CallSaveLabel l) w ltac:(discriminate) Hreg)
      as (H1 & H2 & H3 & H4).
    destruct (IH _ (eq_trans H1 Hpc) H2) as (J1 & J2 & J3 & J4).
    rewrite J3, J4, H3, H4. auto.
  - destruct (@writer_step_quiet (ResumeSaveLabel k) w ltac:(discriminate) Hreg)
      as (H1 & H2 & H3 & H4).
    destruct (IH _ (eq_trans H1 Hpc) H2) as (J1 & J2 & J3 & J4).
    rewrite J3, J4, H3, H4. auto.
  - cbn [step]. unfold onOpen_step. rewrite Hpc. apply IH; assumption.
Qed.

Lemma closing_run (sched : list Action) :
  forall w,
    pc w = SubChecked true -> registered ws (server w) = false ->
    registered ws (server (run E ws cursor sched w)) = false
    /\ ((pc (run E ws cursor sched w) = SubChecked true
         /\ received ws (server (run E ws cursor sched w)) = received ws (server w)
         /\ closed (server (run E ws cursor sched w)) = closed (server w))
        \/ (pc (run E ws cursor sched w) = SubClosed
            /\ received ws (server (run E ws cursor sched w))
               = received ws (server w) ++ [futureCursor]
            /\ closed (server (run E ws cursor sched w)) = closed (server w) ++ [ws]))
    /\ (In RunSubscriber sched -> pc (run E ws cursor sched w) = SubClosed).
Proof.
  induction sched as [|a sched IH]; intros w Hpc Hreg.
  - cbn. split; [exact Hreg|]. split; [left; auto | tauto].
  - change (run E ws cursor (a :: sched) w)
      with (run E ws cursor sched (step E ws cursor w a)).
    destruct a as [l|k|].
    + destruct (@writer_step_quiet (CallSaveLabel l) w ltac:(discriminate) Hreg)
        as (H1 & H2 & H3 & H4).
      destruct (IH _ (eq_trans H1 Hpc) H2) as (J1 & J2 & J3).
      rewrite H3, H4 in J2. split; [exact J1|]. split; [exact J2|].
      intros [Hx|Hin]; [discriminate | auto].
    + destruct (@writer_step_quiet (ResumeSaveLabel k) w ltac:(discriminate) Hreg)
        as (H1 & H2 & H3 & H4).
      destruct (IH _ (eq_trans H1 Hpc) H2) as (J1 & J2 & J3).
      rewrite H3, H4 in J2. split; [exact J1|]. split; [exact J2|].
      intros [Hx|Hin]; [discriminate | auto].
    + cbn [step]. unfold onOpen_step. rewrite Hpc.
      set (w1 := {| server := ws_close ws (ws_send ws futureCursor (server w));
                    pending := pending w; pc := SubClosed |}).
      assert (Hreg1 : registered ws (server w1) = false) by exact Hreg.
      destruct (@closed_run sched w1 eq_refl Hreg1) as (J1 & J2 & J3 & J4).
      split; [exact J2|]. split; [|intros _; exact J1].
      right. split; [exact J1|]. rewrite J3, J4. subst w1. cbn [server].
      split; [|reflexivity].
      unfold ws_close, received. cbn [sent].
      change (sent (ws_send ws futureCursor (server w)))
        with (sent (server w) ++ [(ws, futureCursor)]).
      rewrite filter_app, map_app. cbn. rewrite Nat.eqb_refl. reflexivity.
Qed.

End FutureCursor.

(** C4. A subscriber that connects with a cursor above the largest id of
    the log (above 0 for an empty log) is answered with exactly one frame,
    the FutureCursor error, after which the socket is closed; it gets no
    label frame and is never put into the live set, whatever the writers
    do in between.  Until the callback has resumed after its [await]
    nothing at all has been sent. *)
Theorem future_cursor_is_terminal (E : Env) (ws : WS) (cursor : Z) (w : World)
        (sched : list Action)
        (Hpc : pc w = SubOpening)
        (Hfresh : Subscription.registered ws (server w) = false)
        (Habove : forall r, In r (rows (db (server w))) -> id r < cursor)
        (Hempty : rows (db (server w)) = [] -> 0 < cursor) :
  let w' := Subscription.run E ws cursor (RunSubscriber :: sched) w in
  Subscription.registered ws (server w') = false
  /\ ((pc w' = SubChecked true
       /\ received ws (server w') = received ws (server w)
       /\ closed (server w') = closed (server w))
      \/ (pc w' = SubClosed
          /\ received ws (server w')
             = received ws (server w) ++ [ErrorFrame "FutureCursor" "Cursor is in the future"]
          /\ closed (server w') = closed (server w) ++ [ws]))
  /\ (In RunSubscriber sched ->
      pc w' = SubClosed
      /\ received ws (server w')
         = received ws (server w) ++ [ErrorFrame "FutureCursor" "Cursor is in the future"]
      /\ closed (server w') = closed (server w) ++ [ws]).
Proof.
  intros w'. subst w'.
  change (Subscription.run E ws cursor (RunSubscriber :: sched) w)
    with (Subscription.run E ws cursor sched (Subscription.onOpen_step E ws cursor w)).
  unfold Subscription.onOpen_step. rewrite Hpc.
  rewrite (isCursorInTheFuture_above _ _ Habove Hempty).
  set (w1 := {| server := server w; pending := pending w; pc := SubChecked true |}).
  destruct (@closing_run E ws cursor sched w1 eq_refl Hfresh) as (J1 & J2 & J3).
  change (server w1) with (server w) in J2.
  split; [exact J1|]. split; [exact J2|].
  intros Hin. specialize (J3 Hin).
  destruct J2 as [(Hc & _)|(H1 & H2 & H3)]; [congruence | auto].
Qed.

Lemma future_cursor_is_terminal_witness :
  received 7%nat
    (server (Subscription.run Demo.E 7%nat 3
               [RunSubscriber; CallSaveLabel Demo.unsigned_spam; ResumeSaveLabel 0;
                RunSubscriber; CallSaveLabel Demo.unsigned_spam; ResumeSaveLabel 0]
               {| server := mkServer Demo.two_rows [] [] [] 0;
                  pending := []; pc := SubOpening |}))
  = [ErrorFrame "FutureCursor" "Cursor is in the future"]
  /\ Subscription.registered 7%nat
       (server (Subscription.run Demo.E 7%nat 3
                  [RunSubscriber; CallSaveLabel Demo.unsigned_spam; ResumeSaveLabel 0;
                   RunSubscriber; CallSaveLabel Demo.unsigned_spam; ResumeSaveLabel 0]
                  {| server := mkServer Demo.two_rows [] [] [] 0;
                     pending := []; pc := SubOpening |})) = false.
Proof.
  pose proof (@future_cursor_is_terminal Demo.E 7%nat 3
                {| server := mkServer Demo.two_rows [] [] [] 0;
                   pending := []; pc := SubOpening |}
                [CallSaveLabel Demo.unsigned_spam; ResumeSaveLabel 0;
                 RunSubscriber; CallSaveLabel Demo.unsigned_spam; ResumeSaveLabel 0]
                eq_refl eq_refl) as H.
  cbn zeta in H.
  destruct H as (Hreg & _ & Hdone).
  - cbn. intros r [<-|[<-|[]]]; cbn; lia.
  - cbn. discriminate.
  - split; [|exact Hreg].
    destruct Hdone as (_ & Hrecv & _); [cbn; auto 6|]. exact Hrecv.
Defined.

Section CatchUp.

Import LabelerServer Subscription.

Lemma hd_order_by_id (l : list SavedLabel) (y : SavedLabel) :
  hd_error (Sql.order_by_id l) = Some y ->
  In y l /\ forall r, In r l -> id y <= id r.
Proof.
  intros H. pose proof (order_by_id_sorted l) as Hs.
  destruct (Sql.order_by_id l) as [|z t] eqn:Ho; cbn in H; [discriminate|].
  inversion H; subst z. split.
  - apply order_by_id_In. rewrite Ho. cbn. auto.
  - intros r Hr. apply order_by_id_In in Hr. rewrite Ho in Hr.
    assert (Htr : Relations_1.Transitive id_le).
    { intros a b c Hab Hbc. unfold id_le in *. lia. }
    apply (Sorted_StronglySorted Htr) in Hs.
    inversion Hs as [|? ? _ Hall]; subst.
    destruct Hr as [<-|Hr]; [lia|].
    rewrite Forall_forall in Hall. apply Hall. exact Hr.
Qed.

Lemma next_row_some (pos : Z) (d : Db) (y : SavedLabel) :
  DbProvider.next_row pos d = Some y ->
  In y (rows d) /\ pos < id y
  /\ forall r, In r (rows d) -> pos < id r -> id y <= id r.
Proof.
  unfold DbProvider.next_row, DbProvider.iterateLabels. intros H.
  apply hd_order_by_id in H. destruct H as [Hin Hmin].
  apply filter_In in Hin. destruct Hin as [Hin Hpos]. apply Z.ltb_lt in Hpos.
  split; [exact Hin|]. split; [exact Hpos|].
  intros r Hr Hlt. apply Hmin. apply filter_In. split; [exact Hr|].
  apply Z.ltb_lt. exact Hlt.
Qed.

Lemma next_row_none (pos : Z) (d : Db) :
  DbProvider.next_row pos d = None ->
  forall r, In r (rows d) -> id r <= pos.
Proof.
  unfold DbProvider.next_row, DbProvider.iterateLabels. intros H r Hr.
  destruct (Z.le_gt_cases (id r) pos) as [Hle|Hgt]; [exact Hle|].
  assert (Hin : In r (Sql.order_by_id (filter (fun r => pos <? id r) (rows d)))).
  { apply order_by_id_In, filter_In. split; [exact Hr|]. apply Z.ltb_lt. lia. }
  destruct (Sql.order_by_id _); [destruct Hin | discriminate].
Qed.

Lemma mem_In (i : Z) (l : list Z) : mem i l = true <-> In i l.
Proof.
  unfold mem. rewrite existsb_exists. split.
  - intros (x & Hin & Hx). apply Z.eqb_eq in Hx. now subst x.
  - intros Hin. exists i. split; [exact Hin | apply Z.eqb_refl].
Qed.

Lemma drop_nth_middle (A : Type) (l1 l2 : list A) (x : A) :
  drop_nth (List.length l1) (l1 ++ x :: l2) = l1 ++ l2.
Proof.
  unfold drop_nth. induction l1 as [|a l1 IH]; cbn [List.length firstn skipn app].
  - reflexivity.
  - cbn [skipn] in IH. rewrite IH. reflexivity.
Qed.

Lemma drop_nth_keeps (k : nat) (pend : list (Z * Label)) (i j : Z) (l : Label) :
  nth_error pend k = Some (i, l) ->
  In j (map fst pend) -> j <> i ->
  In j (map fst (drop_nth k pend)).
Proof.
  intros Hk Hin Hne.
  apply nth_error_split in Hk. destruct Hk as (l1 & l2 & Heq & Hlen). subst pend k.
  rewrite drop_nth_middle. rewrite map_app in *. cbn [map fst] in Hin.
  apply in_app_or in Hin. apply in_or_app.
  destruct Hin as [Hin|[Hin|Hin]]; [left; exact Hin | congruence | right; exact Hin].
Qed.

Lemma run_seam_fst (E : Env) (ws : WS) (c : Z) (sched : list Action) :
  forall w g, fst (run_seam E ws c sched (w, g)) = run E ws c sched w.
Proof.
  unfold run_seam, run. induction sched as [|a sched IH]; intros w g; cbn [fold_left fst snd].
  - reflexivity.
  - apply IH.
Qed.

End CatchUp.

Section SeamInvariant.

Import LabelerServer Subscription.

Variable E : Env.
Variable ws : WS.
Variable c : Z.

Lemma delivered_set_db (j : Z) (d : Db) (s : Server) :
  delivered ws j (set_db d s) = delivered ws j s.
Proof. reflexivity. Qed.

Lemma registered_set_db (d : Db) (s : Server) :
  registered ws (set_db d s) = registered ws s.
Proof. reflexivity. Qed.

Lemma scan_blind_lazy (x : SavedLabel) (pos : Z) :
  scan_blind (SubScanning (Some x) (LazyAt pos)) = false.
Proof. reflexivity. Qed.

(** A [saveLabel] call up to its [await] keeps the invariant. *)
Lemma seam_inv_call (l : Label) (w : World) (g : Seam) :
  seam_inv ws c w g ->
  seam_inv ws c (saveLabel_call E l w) (seam_step E w (CallSaveLabel l) g).
Proof.
  unfold seam_inv. intros Hpc. unfold saveLabel_call, seam_step.
  destruct (DbProvider.saveLabel (sign E l) (db (server w))) as [[e|i] d] eqn:Hs.
  - (* the INSERT fails: the table is as before *)
    apply saveLabel_fail_keeps in Hs. destruct Hs as (_ & Hr & _).
    cbn [server pending pc].
    change (db (set_db d (server w))) with d.
    rewrite Hr.
    destruct (scan_blind (pc w)); destruct (pc w) as [|b|[x|] it| |]; exact Hpc.
  - (* the INSERT succeeds with an id above every id of the table *)
    apply saveLabel_ok_id in Hs. destruct Hs as (Hi & _ & Hr & _).
    destruct (largest_rowid_upper (db (server w))) as [_ Hup].
    cbn [server pending pc].
    change (db (set_db d (server w))) with d.
    rewrite Hr.
    assert (Hgrow : forall g0 : Seam,
               (forall j, In j (seam_inserted g0) ->
                          In j (map fst (pending w)) \/ In j (seam_emitted g0)) ->
               forall j, In j (seam_inserted g0 ++ [i]) ->
                         In j (map fst (pending w ++ [(i, sign E l)]))
                         \/ In j (seam_emitted g0)).
    { intros g0 Hins j Hj. rewrite map_app. apply in_app_or in Hj.
      destruct Hj as [Hj|[<-|[]]].
      - destruct (Hins j Hj) as [Hp|He]; [left; apply in_or_app; left; exact Hp|].
        right. exact He.
      - left. apply in_or_app. right. cbn. auto. }
    destruct (pc w) as [|b|[x|] it| |].
    + exact Hpc.
    + exact Hpc.
    + destruct it as [n buf pos [|]|pos|rest].
      * (* a statement with more to give will come to the new row *)
        cbn [scan_blind].
        destruct Hpc as (Hside & Hrows & _).
        destruct (Hside eq_refl) as ((y & Hy & Hpos) & Hnil).
        split; [intros _; split; [exists y; split; [apply in_or_app; left; exact Hy
                                                  | exact Hpos]
                                 | exact Hnil]|].
        split.
        -- intros r Hin Hc. apply in_app_or in Hin. destruct Hin as [Hin|[<-|[]]].
           ++ rewrite delivered_set_db. apply Hrows; assumption.
           ++ right. left. cbn [to_come id]. right. split; [reflexivity|].
              specialize (Hup y Hy). lia.
        -- rewrite Hnil. intros j [].
      * (* a statement that has ended does not come to the new row *)
        cbn [scan_blind seam_inserted seam_emitted].
        destruct Hpc as (_ & Hrows & Hins).
        split; [intros Hmore; discriminate Hmore|]. split.
        -- intros r Hin Hc. apply in_app_or in Hin. destruct Hin as [Hin|[<-|[]]].
           ++ rewrite delivered_set_db.
              destruct (Hrows r Hin Hc) as [Hd|[Ht|Hi']]; [auto | auto|].
              right. right. apply in_or_app. left. exact Hi'.
           ++ right. right. apply in_or_app. right. cbn. auto.
        -- apply Hgrow, Hins.
      * (* a lazy cursor will come to the new row *)
        rewrite scan_blind_lazy.
        destruct Hpc as ((Hpos & Hx & Hnil) & Hrows & _).
        split; [split; [exact Hpos | split; [apply in_or_app; left; exact Hx | exact Hnil]]|].
        split.
        -- intros r Hin Hc. apply in_app_or in Hin. destruct Hin as [Hin|[<-|[]]].
           ++ rewrite delivered_set_db. apply Hrows; assumption.
           ++ right. left. cbn. specialize (Hup x Hx). lia.
        -- rewrite Hnil. intros j [].
      * (* a snapshot does not hold the new row *)
        cbn [scan_blind seam_inserted seam_emitted].
        destruct Hpc as (_ & Hrows & Hins).
        split; [exact I|]. split.
        -- intros r Hin Hc. apply in_app_or in Hin. destruct Hin as [Hin|[<-|[]]].
           ++ rewrite delivered_set_db.
              destruct (Hrows r Hin Hc) as [Hd|[Ht|Hi']]; [auto | auto|].
              right. right. apply in_or_app. left. exact Hi'.
           ++ right. right. apply in_or_app. right. cbn. auto.
        -- apply Hgrow, Hins.
    + cbn [scan_blind seam_inserted seam_emitted].
      destruct Hpc as (Hrows & Hins). split.
      * intros r Hin Hc. apply in_app_or in Hin. destruct Hin as [Hin|[<-|[]]].
        -- rewrite delivered_set_db.
           destruct (Hrows r Hin Hc) as [Hd|Hi']; [left; exact Hd|].
           right. apply in_or_app. left. exact Hi'.
        -- right. apply in_or_app. right. cbn. auto.
      * apply Hgrow, Hins.
    + destruct Hpc as (Hreg & Hrows). rewrite registered_set_db.
      cbn [scan_blind]. split; [exact Hreg|].
      intros r Hin Hc. rewrite delivered_set_db, map_app.
      apply in_app_or in Hin. destruct Hin as [Hin|[<-|[]]].
      * destruct (Hrows r Hin Hc) as [Hd|[Hp|He]]; auto.
        right. left. apply in_or_app. left. exact Hp.
      * right. left. apply in_or_app. right. cbn. auto.
    + exact I.
Qed.

(** The rest of a suspended [saveLabel] keeps the invariant. *)
Lemma seam_inv_resume (k : nat) (w : World) (g : Seam) :
  seam_inv ws c w g ->
  seam_inv ws c (saveLabel_resume k w) (seam_step E w (ResumeSaveLabel k) g).
Proof.
  unfold seam_inv. intros Hpc. unfold saveLabel_resume, seam_step.
  destruct (nth_error (pending w) k) as [[i l]|] eqn:Hk.
  - cbn [server pending pc].
    destruct (emitLabel_frame i l (server w)) as (Hdb & _).
    rewrite Hdb.
    (* what becomes of the rows inserted out of the scan's sight *)
    assert (Hshrink :
      (forall j, In j (seam_inserted g) ->
                 In j (map fst (pending w)) \/ In j (seam_emitted g)) ->
      forall j,
        In j (seam_inserted (if mem i (seam_inserted g)
                             then {| seam_inserted := seam_inserted g;
                                     seam_emitted := seam_emitted g ++ [i] |}
                             else g)) ->
        In j (map fst (drop_nth k (pending w)))
        \/ In j (seam_emitted (if mem i (seam_inserted g)
                               then {| seam_inserted := seam_inserted g;
                                       seam_emitted := seam_emitted g ++ [i] |}
                               else g))).
    { intros Hins j Hj.
      destruct (mem i (seam_inserted g)) eqn:Hmem; cbn [seam_inserted seam_emitted] in *.
      - destruct (Z.eq_dec j i) as [->|Hne].
        + right. apply in_or_app. right. cbn. auto.
        + destruct (Hins j Hj) as [Hp|He].
          * left. eapply drop_nth_keeps; eassumption.
          * right. apply in_or_app. left. exact He.
      - destruct (Z.eq_dec j i) as [->|Hne].
        + apply mem_In in Hj. congruence.
        + destruct (Hins j Hj) as [Hp|He]; [|right; exact He].
          left. eapply drop_nth_keeps; eassumption. }
    assert (Hsame : seam_inserted (if mem i (seam_inserted g)
                                   then {| seam_inserted := seam_inserted g;
                                           seam_emitted := seam_emitted g ++ [i] |}
                                   else g) = seam_inserted g).
    { destruct (mem i (seam_inserted g)); reflexivity. }
    destruct (pc w) as [|b|[x|] it| |].
    + exact Hpc.
    + exact Hpc.
    + destruct it as [n buf pos [|]|pos|rest].
      * cbn [scan_blind].
        destruct Hpc as (Hit & Hrows & _). split; [exact Hit|]. split.
        -- intros r Hin Hc. destruct (Hrows r Hin Hc) as [Hd|Hother]; [|right; exact Hother].
           left. apply emitLabel_keeps_delivered, Hd.
        -- destruct (Hit eq_refl) as (_ & Hnil). rewrite Hnil. intros j [].
      * cbn [scan_blind].
        destruct Hpc as (_ & Hrows & Hins).
        split; [intros Hmore; discriminate Hmore|]. split.
        -- intros r Hin Hc. rewrite Hsame.
           destruct (Hrows r Hin Hc) as [Hd|Hother]; [|right; exact Hother].
           left. apply emitLabel_keeps_delivered, Hd.
        -- apply Hshrink, Hins.
      * rewrite scan_blind_lazy.
        destruct Hpc as (Hit & Hrows & _). split; [exact Hit|]. split.
        -- intros r Hin Hc. destruct (Hrows r Hin Hc) as [Hd|Hother]; [|right; exact Hother].
           left. apply emitLabel_keeps_delivered, Hd.
        -- destruct Hit as (_ & _ & Hnil). rewrite Hnil. intros j [].
      * cbn [scan_blind].
        destruct Hpc as (_ & Hrows & Hins). split; [exact I|]. split.
        -- intros r Hin Hc. rewrite Hsame.
           destruct (Hrows r Hin Hc) as [Hd|Hother]; [|right; exact Hother].
           left. apply emitLabel_keeps_delivered, Hd.
        -- apply Hshrink, Hins.
    + cbn [scan_blind]. destruct Hpc as (Hrows & Hins). split.
      * intros r Hin Hc. rewrite Hsame.
        destruct (Hrows r Hin Hc) as [Hd|Hi]; [|right; exact Hi].
        left. apply emitLabel_keeps_delivered, Hd.
      * apply Hshrink, Hins.
    + destruct Hpc as (Hreg & Hrows). rewrite emitLabel_registered_same.
      cbn [scan_blind]. split; [exact Hreg|].
      intros r Hin Hc. destruct (Hrows r Hin Hc) as [Hd|[Hp|He]].
      * left. apply emitLabel_keeps_delivered, Hd.
      * destruct (Z.eq_dec (id r) i) as [->|Hne].
        -- left. apply emitLabel_registered, Hreg.
        -- right. left. eapply drop_nth_keeps; eassumption.
      * right. right. exact He.
    + exact I.
  - destruct (scan_blind (pc w)); destruct (pc w) as [|b|[x|] it| |]; exact Hpc.
Qed.

Lemma delivered_addSubscription (j : Z) (s : Server) :
  delivered ws j (addSubscription subscribeLabels ws s) = delivered ws j s.
Proof. reflexivity. Qed.

Lemma iterateLabels_In (pos : Z) (d : Db) (r : SavedLabel) :
  In r (DbProvider.iterateLabels pos d) <-> In r (rows d) /\ pos < id r.
Proof.
  unfold DbProvider.iterateLabels. rewrite order_by_id_In, filter_In, Z.ltb_lt.
  reflexivity.
Qed.

Lemma sorted_app_le (l1 l2 : list SavedLabel) :
  Sorted id_le (l1 ++ l2) ->
  forall a b, In a l1 -> In b l2 -> id a <= id b.
Proof.
  intros Hs.
  assert (Htr : Relations_1.Transitive id_le).
  { intros a b d Hab Hbd. unfold id_le in *. lia. }
  apply (Sorted_StronglySorted Htr) in Hs.
  induction l1 as [|x l1 IH]; intros a b Ha Hb; [destruct Ha|].
  cbn [app] in Hs. inversion Hs as [|? ? Hs' Hall]; subst.
  destruct Ha as [<-|Ha]; [|exact (IH Hs' a b Ha Hb)].
  rewrite Forall_forall in Hall. apply Hall, in_or_app. right. exact Hb.
Qed.

Lemma last_in (l : list SavedLabel) (x : SavedLabel) : In (last l x) (x :: l).
Proof.
  induction l as [|y l IH]; [left; reflexivity|].
  destruct l as [|z l]; [right; left; reflexivity|].
  change (last (y :: z :: l) x) with (last (z :: l) x).
  destruct IH as [H|H]; [left; exact H | right; right; exact H].
Qed.

(** What a batching iterator fetches: nothing only when nothing is left
    above its position; otherwise rows of the table above its position,
    after which come, if the batch is full, only rows above its last
    one. *)
Lemma fetch_batch (size : positive) (pos : Z) (d : Db) :
  match firstn (Pos.to_nat size) (DbProvider.iterateLabels pos d) with
  | [] => forall r, In r (rows d) -> id r <= pos
  | y :: batch =>
      In (last batch y) (rows d)
      /\ forall r, In r (rows d) -> pos < id r ->
                   In (id r) (map id (y :: batch))
                   \/ (Nat.eqb (List.length (y :: batch)) (Pos.to_nat size) = true
                       /\ id (last batch y) < id r)
  end.
Proof.
  pose proof (order_by_id_sorted (filter (fun r => pos <? id r) (rows d))) as Hs.
  fold (DbProvider.iterateLabels pos d) in Hs.
  pose proof (firstn_skipn (Pos.to_nat size) (DbProvider.iterateLabels pos d)) as Hsplit.
  pose proof (Pos2Nat.is_pos size) as Hpos.
  destruct (firstn (Pos.to_nat size) (DbProvider.iterateLabels pos d)) as [|y batch] eqn:Hf.
  - intros r Hr. destruct (Z.le_gt_cases (id r) pos) as [Hle|Hgt]; [exact Hle|].
    assert (Hin : In r (DbProvider.iterateLabels pos d)) by (apply iterateLabels_In; auto).
    destruct (DbProvider.iterateLabels pos d) as [|z t]; [destruct Hin|].
    destruct (Pos.to_nat size); [lia | discriminate Hf].
  - assert (Hlast : In (last batch y) (DbProvider.iterateLabels pos d)).
    { rewrite <- Hsplit. apply in_or_app. left. apply last_in. }
    split; [apply iterateLabels_In in Hlast; tauto|].
    intros r Hr Hc.
    assert (Hin : In r (DbProvider.iterateLabels pos d)) by (apply iterateLabels_In; auto).
    rewrite <- Hsplit in Hin, Hs. apply in_app_or in Hin. destruct Hin as [Hin|Hin].
    + left. apply in_map. exact Hin.
    + pose proof (sorted_app_le _ _ Hs (last batch y) r (last_in batch y) Hin) as Hle.
      destruct (Z.eq_dec (id r) (id (last batch y))) as [Heq|Hne].
      * left. rewrite Heq. apply in_map, last_in.
      * right. split; [|lia]. apply Nat.eqb_eq. rewrite <- Hf, length_firstn.
        assert (Hlen : (Pos.to_nat size < List.length (DbProvider.iterateLabels pos d))%nat).
        { destruct (Nat.lt_ge_cases (Pos.to_nat size)
                      (List.length (DbProvider.iterateLabels pos d))) as [Hlt|Hge];
            [exact Hlt|].
          rewrite skipn_all2 in Hin by exact Hge. destruct Hin. }
        lia.
Qed.

(** The scan reaches its first row, or its end. *)
Lemma seam_inv_open (w : World) (g : Seam) (row : option SavedLabel) (it : Iterator) :
  seam_inserted g = [] ->
  DbProvider.next (DbProvider.open_scan (scan_mode E) c (db (server w)))
                  (db (server w)) = (row, it) ->
  seam_inv ws c {| server := server w; pending := pending w; pc := SubScanning row it |} g.
Proof.
  intros Hnil Hnext. unfold seam_inv. cbn [server pending pc].
  assert (Hvoid : forall i, In i (seam_inserted g) ->
                            In i (map fst (pending w)) \/ In i (seam_emitted g)).
  { rewrite Hnil. intros i []. }
  unfold DbProvider.open_scan, DbProvider.next in Hnext.
  destruct (scan_mode E) as [size| |].
  - pose proof (fetch_batch size c (db (server w))) as Hfetch.
    destruct (firstn (Pos.to_nat size) (DbProvider.iterateLabels c (db (server w))))
      as [|y batch]; inversion Hnext; subst row it.
    + split; [|exact Hvoid].
      intros r Hr Hc. specialize (Hfetch r Hr). lia.
    + destruct Hfetch as [Hlast Hfetch].
      split; [intros _; split; [exists (last batch y); auto | exact Hnil]|].
      split; [|exact Hvoid].
      intros r Hr Hc. right. left. cbn [to_come].
      destruct (Hfetch r Hr Hc) as [Hin|[Hfull Hlt]]; [left; exact Hin|].
      right. split; [exact Hfull | exact Hlt].
  - destruct (DbProvider.next_row c (db (server w))) as [y|] eqn:Hn;
      inversion Hnext; subst row it.
    + apply next_row_some in Hn. destruct Hn as (Hin & Hlt & Hmin).
      split; [split; [reflexivity | split; [exact Hin | exact Hnil]]|].
      split; [|exact Hvoid].
      intros r Hr Hc. right. left. cbn. apply Hmin; assumption.
    + split; [|exact Hvoid].
      intros r Hr Hc. pose proof (next_row_none _ _ Hn r Hr). lia.
  - destruct (DbProvider.iterateLabels c (db (server w))) as [|y rest] eqn:Hl;
      inversion Hnext; subst row it.
    + split; [|exact Hvoid]. intros r Hr Hc.
      assert (Hin : In r (DbProvider.iterateLabels c (db (server w))))
        by (apply iterateLabels_In; auto).
      rewrite Hl in Hin. destruct Hin.
    + split; [exact I|]. split; [|exact Hvoid].
      intros r Hr Hc. right. left. cbn [to_come]. rewrite <- Hl.
      apply iterateLabels_In. auto.
Qed.

(** A row is sent and the scan steps on. *)
Lemma seam_inv_next (w : World) (g : Seam) (x : SavedLabel) (it it' : Iterator)
      (row : option SavedLabel) :
  seam_inv ws c w g ->
  pc w = SubScanning (Some x) it ->
  DbProvider.next it (db (server w)) = (row, it') ->
  seam_inv ws c
    {| server := ws_send ws (MessageFrame (id x) (label x)) (server w);
       pending := pending w; pc := SubScanning row it' |} g.
Proof.
  unfold seam_inv. intros Hpc Hw Hnext. rewrite Hw in Hpc.
  destruct Hpc as (Hit & Hrows & Hins). cbn [server pending pc].
  change (db (ws_send ws (MessageFrame (id x) (label x)) (server w)))
    with (db (server w)).
  set (s' := ws_send ws (MessageFrame (id x) (label x)) (server w)).
  assert (Hkeep : forall j, delivered ws j (server w) = true -> delivered ws j s' = true).
  { intros j Hd. apply send_keeps_delivered, Hd. }
  assert (Hx : delivered ws (id x) s' = true) by apply send_delivers.
  unfold DbProvider.next in Hnext. destruct it as [size buf pos more|pos|rest].
  - destruct buf as [|y buf'].
    + destruct more.
      * (* the buffer is used up and the statement is stepped on *)
        destruct (Hit eq_refl) as ((z & Hz & Hpos) & Hnil).
        pose proof (fetch_batch size pos (db (server w))) as Hfetch.
        destruct (firstn (Pos.to_nat size) (DbProvider.iterateLabels pos (db (server w))))
          as [|y batch]; inversion Hnext; subst row it'.
        -- split; [|exact Hins].
           intros r Hr Hc. destruct (Hrows r Hr Hc) as [Hd|[Ht|Hi]]; [auto| |auto].
           cbn [to_come map] in Ht. destruct Ht as [[Heq|[]]|[_ Hlt]].
           ++ left. rewrite <- Heq. exact Hx.
           ++ specialize (Hfetch r Hr). lia.
        -- destruct Hfetch as [Hlast Hfetch].
           split; [intros _; split; [exists (last batch y); auto | exact Hnil]|].
           split; [|exact Hins].
           intros r Hr Hc. destruct (Hrows r Hr Hc) as [Hd|[Ht|Hi]]; [auto| |auto].
           cbn [to_come map] in Ht. destruct Ht as [[Heq|[]]|[_ Hlt]].
           ++ left. rewrite <- Heq. exact Hx.
           ++ right. left. cbn [to_come].
              destruct (Hfetch r Hr Hlt) as [Hin|[Hfull Hlt']]; [left; exact Hin|].
              right. split; [exact Hfull | exact Hlt'].
      * (* the buffer is used up and the statement has ended *)
        inversion Hnext; subst row it'.
        split; [|exact Hins].
        intros r Hr Hc. destruct (Hrows r Hr Hc) as [Hd|[Ht|Hi]]; [auto| |auto].
        cbn [to_come map] in Ht. destruct Ht as [[Heq|[]]|[Hmore _]]; [|discriminate Hmore].
        left. rewrite <- Heq. exact Hx.
    + (* the next row of the buffer *)
      inversion Hnext; subst row it'.
      split; [exact Hit|]. split; [|exact Hins].
      intros r Hr Hc. destruct (Hrows r Hr Hc) as [Hd|[Ht|Hi]]; [auto| |auto].
      cbn [to_come map] in Ht. destruct Ht as [[Heq|Hin]|Hlater].
      * left. rewrite <- Heq. exact Hx.
      * right. left. cbn [to_come]. left. exact Hin.
      * right. left. cbn [to_come]. right. exact Hlater.
  - destruct Hit as (Hpos & Hxb & Hnil). subst pos.
    destruct (DbProvider.next_row (id x) (db (server w))) as [y|] eqn:Hn;
      inversion Hnext; subst row it'.
    + apply next_row_some in Hn. destruct Hn as (Hin & Hlt & Hmin).
      split; [split; [reflexivity | split; [exact Hin | exact Hnil]]|].
      split; [|exact Hins].
      intros r Hr Hc. destruct (Hrows r Hr Hc) as [Hd|[Ht|Hi]]; [auto| |auto].
      cbn in Ht. destruct (Z.eq_dec (id r) (id x)) as [->|Hne]; [auto|].
      right. left. cbn. apply Hmin; [exact Hr | lia].
    + split; [|exact Hins].
      intros r Hr Hc. destruct (Hrows r Hr Hc) as [Hd|[Ht|Hi]]; [auto| |auto].
      cbn in Ht. pose proof (next_row_none _ _ Hn r Hr) as Hle.
      left. replace (id r) with (id x) by lia. exact Hx.
  - destruct rest as [|y rest']; inversion Hnext; subst row it'.
    + split; [|exact Hins].
      intros r Hr Hc. destruct (Hrows r Hr Hc) as [Hd|[Ht|Hi]]; [auto| |auto].
      cbn in Ht. destruct Ht as [<-|[]]. left. exact Hx.
    + split; [exact I|]. split; [|exact Hins].
      intros r Hr Hc. destruct (Hrows r Hr Hc) as [Hd|[Ht|Hi]]; [auto| |auto].
      cbn [to_come] in Ht. destruct Ht as [<-|Ht]; [left; exact Hx|].
      right. left. exact Ht.
Qed.

(** A slice of the subscriber's callback keeps the invariant. *)
Lemma seam_inv_sub (w : World) (g : Seam) :
  seam_inv ws c w g ->
  seam_inv ws c (onOpen_step E ws c w) (seam_step E w RunSubscriber g).
Proof.
  intros Hinv.
  assert (Hg : seam_step E w RunSubscriber g = g).
  { unfold seam_step. destruct (scan_blind (pc w)); reflexivity. }
  rewrite Hg. unfold onOpen_step.
  destruct (pc w) as [|[|]|[x|] it| |] eqn:Hw.
  - (* the check *)
    unfold seam_inv in *. rewrite Hw in Hinv. cbn [server pending pc]. exact Hinv.
  - (* the cursor is in the future *)
    exact I.
  - (* the scan opens *)
    destruct (DbProvider.next _ _) as [row it] eqn:Hnext.
    unfold seam_inv in Hinv. rewrite Hw in Hinv.
    eapply seam_inv_open; eassumption.
  - (* a row is sent *)
    change (db (ws_send ws (MessageFrame (id x) (label x)) (server w)))
      with (db (server w)).
    destruct (DbProvider.next it (db (server w))) as [row it'] eqn:Hnext.
    eapply seam_inv_next; eassumption.
  - (* the socket is registered *)
    unfold seam_inv in *. rewrite Hw in Hinv. cbn [server pending pc].
    destruct Hinv as (Hrows & Hins).
    change (db (addSubscription subscribeLabels ws (server w))) with (db (server w)).
    split; [apply addSubscription_registers|].
    intros r Hr Hc. rewrite delivered_addSubscription.
    destruct (Hrows r Hr Hc) as [Hd|Hi]; [left; exact Hd|].
    right. apply Hins, Hi.
  - exact Hinv.
  - exact Hinv.
Qed.

Lemma seam_inv_step (a : Action) (w : World) (g : Seam) :
  seam_inv ws c w g ->
  seam_inv ws c (step E ws c w a) (seam_step E w a g).
Proof.
  destruct a as [l|k|]; cbn [step].
  - apply seam_inv_call.
  - apply seam_inv_resume.
  - apply seam_inv_sub.
Qed.

Lemma seam_inv_run (sched : list Action) :
  forall w g,
    seam_inv ws c w g ->
    seam_inv ws c (fst (run_seam E ws c sched (w, g)))
                  (snd (run_seam E ws c sched (w, g))).
Proof.
  unfold run_seam. induction sched as [|a sched IH]; intros w g H; cbn [fold_left fst snd].
  - exact H.
  - apply IH, seam_inv_step, H.
Qed.

End SeamInvariant.

Section Stale.

Import LabelerServer Subscription.

Variable E : Env.
Variable ws : WS.
Variable c : Z.

Lemma drop_nth_incl (A : Type) (k : nat) (l : list A) (x : A) :
  In x (drop_nth k l) -> In x l.
Proof.
  unfold drop_nth. intros H. rewrite <- (firstn_skipn k l).
  apply in_app_or in H. apply in_or_app. destruct H as [H|H]; [left; exact H|].
  right. rewrite <- (firstn_skipn 1 (skipn k l)). apply in_or_app. right.
  rewrite skipn_skipn. exact H.
Qed.

Lemma emitLabel_other (i j : Z) (l : Label) (s : Server) :
  i <> j -> delivered ws j (emitLabel i l s) = delivered ws j s.
Proof.
  intros Hne. unfold delivered, emitLabel.
  destruct (Map.get subscribeLabels (connections s)) as [subs|]; [|reflexivity].
  rewrite received_fold_send, existsb_app.
  assert (Hno : forall t : list WS,
             existsb (is_message j) (map (fun _ => MessageFrame i l) t) = false).
  { induction t as [|x t IH]; cbn; [reflexivity|].
    rewrite IH. replace (i =? j) with false; [reflexivity|].
    symmetry. apply Z.eqb_neq. exact Hne. }
  rewrite Hno. apply orb_false_r.
Qed.

(** Once the socket is live, a record that it has not been sent and that
    no suspended [saveLabel] is about to emit is never sent to it:
    emissions carry the ids of later inserts only. *)
Lemma stale_record_never_sent (j : Z) (sched : list Action) :
  forall w,
    pc w = SubLive ->
    (forall p, In p (pending w) -> j < fst p) ->
    j <= DbProvider.largest_rowid (db (server w)) ->
    delivered ws j (server w) = false ->
    delivered ws j (server (run E ws c sched w)) = false.
Proof.
  unfold run. induction sched as [|a sched IH]; intros w Hpc Hpend Hseq Hd;
    cbn [fold_left]; [exact Hd|].
  apply IH; destruct a as [l|k|]; cbn [step].
  - unfold saveLabel_call. destruct (DbProvider.saveLabel _ _) as [[e|i] d]; exact Hpc.
  - unfold saveLabel_resume. destruct (nth_error _ _) as [[i l]|]; exact Hpc.
  - unfold onOpen_step. rewrite Hpc. exact Hpc.
  - unfold saveLabel_call.
    destruct (DbProvider.saveLabel _ _) as [[e|i] d] eqn:Hs; cbn [pending]; [exact Hpend|].
    apply saveLabel_ok_id in Hs. destruct Hs as (Hi & _).
    intros p Hp. apply in_app_or in Hp. destruct Hp as [Hp|[<-|[]]]; [auto|].
    cbn. lia.
  - unfold saveLabel_resume. destruct (nth_error _ _) as [[i l]|]; [|exact Hpend].
    cbn [pending]. intros p Hp. apply Hpend. eapply drop_nth_incl. exact Hp.
  - unfold onOpen_step. rewrite Hpc. exact Hpend.
  - unfold saveLabel_call.
    destruct (DbProvider.saveLabel _ _) as [[e|i] d] eqn:Hs; cbn [server];
      change (db (set_db d (server w))) with d.
    + apply saveLabel_fail_keeps in Hs. destruct Hs as (_ & _ & ->). exact Hseq.
    + apply saveLabel_ok_id in Hs. destruct Hs as (Hi & _ & _ & ->). lia.
  - unfold saveLabel_resume. destruct (nth_error _ _) as [[i l]|]; [|exact Hseq].
    cbn [server]. destruct (emitLabel_frame i l (server w)) as (-> & _). exact Hseq.
  - unfold onOpen_step. rewrite Hpc. exact Hseq.
  - unfold saveLabel_call.
    destruct (DbProvider.saveLabel _ _) as [[e|i] d]; exact Hd.
  - unfold saveLabel_resume. destruct (nth_error _ _) as [[i l]|] eqn:Hk; [|exact Hd].
    cbn [server]. rewrite emitLabel_other; [exact Hd|].
    apply nth_error_In in Hk. specialize (Hpend _ Hk). cbn in Hpend. lia.
  - unfold onOpen_step. rewrite Hpc. exact Hd.
Qed.

End Stale.

(** C1 (as the code has it). Take a socket opened with the cursor [c],
    any interleaving of its callback with [saveLabel] calls, on any of
    the store iterators (the batching one of the default store, a lazy
    one, a snapshot), and the moment when the socket is live and every
    started [saveLabel] has emitted its label.  Every record of the log
    with an id above [c] has then been sent to the socket at least once
    (by the catch-up scan or by a live emission), unless it was inserted
    when the scan could no longer return it (the scan or its statement
    had reached the end, or it reads a snapshot opened before) and was
    emitted before the socket was registered. *)
Theorem catch_up_then_live_delivery (E : Env) (ws : WS) (c : Z)
        (sched : list Action) (w0 : World)
        (Hpc : pc w0 = SubOpening) :
  let w := Subscription.run E ws c sched w0 in
  pc w = SubLive ->
  pending w = [] ->
  forall r, In r (rows (db (server w))) -> c < id r ->
            delivered ws (id r) (server w) = true
            \/ In (id r) (Subscription.seam_lost E ws c sched w0).
Proof.
  intros w Hlive Hpend r Hr Hc.
  assert (H0 : seam_inv ws c w0 (Subscription.mkSeam [] [])).
  { unfold seam_inv. rewrite Hpc. reflexivity. }
  pose proof (seam_inv_run E ws c sched w0 _ H0) as Hinv.
  rewrite run_seam_fst in Hinv. fold w in Hinv.
  unfold seam_inv in Hinv. rewrite Hlive, Hpend in Hinv.
  destruct Hinv as (_ & Hrows).
  destruct (Hrows r Hr Hc) as [Hd|[[]|He]]; [left; exact Hd|].
  right. exact He.
Qed.

Lemma catch_up_then_live_delivery_witness :
  pc (Subscription.run Demo.E 7%nat 0 Demo.seam_schedule Demo.opening) = SubLive
  /\ Subscription.seam_lost Demo.E 7%nat 0 Demo.seam_schedule Demo.opening = [3]
  /\ (delivered 7%nat 4
        (server (Subscription.run Demo.E 7%nat 0 Demo.seam_schedule Demo.opening)) = true
      \/ In 4 (Subscription.seam_lost Demo.E 7%nat 0 Demo.seam_schedule Demo.opening)).
Proof.
  split; [reflexivity|]. split; [reflexivity|].
  apply (catch_up_then_live_delivery Demo.E 7%nat 0 Demo.seam_schedule Demo.opening
           eq_refl eq_refl eq_refl
           (mkSaved 4 (DbProvider.row_of (LabelerServer.sign Demo.E Demo.unsigned_spam)))).
  - vm_compute. auto.
  - cbn [id]. lia.
Defined.

(** C1, the claim as stated fails.  The socket 7 connects with cursor 0
    to a log whose largest id is 2 and catches up; while its callback is
    suspended on the [await] that ends the scan, a label is saved with id
    3 and emitted to the live set, which the socket has not joined yet;
    then the socket is registered and a further label, id 4, reaches it.
    Record 3 is in the log and above the cursor, the socket has been
    sent records 1, 2 and 4 only, and whatever runs afterwards never
    sends it record 3.  On the default store the same happens to a label
    saved and emitted before the scan has sent its first row: the first
    batch has ended the statement, the socket is sent records 1 and 2
    and never record 3.  The first run loses record 3 also on a store
    whose iterators are lazy and on one whose iterators read a
    snapshot. *)
Lemma seam_drops_a_record :
  0 <= 2
  /\ DbProvider.isCursorInTheFuture 0 (db (server Demo.opening)) = false
  /\ pc (Subscription.run Demo.E 7%nat 0 Demo.seam_schedule Demo.opening) = SubLive
  /\ pending (Subscription.run Demo.E 7%nat 0 Demo.seam_schedule Demo.opening) = []
  /\ map id (rows (db (server
        (Subscription.run Demo.E 7%nat 0 Demo.seam_schedule Demo.opening))))
     = [1; 2; 3; 4]
  /\ delivered 7%nat 3
       (server (Subscription.run Demo.E 7%nat 0 Demo.seam_schedule Demo.opening)) = false
  /\ map (fun f => match f with MessageFrame q _ => q | ErrorFrame _ _ => 0 end)
       (received 7%nat
          (server (Subscription.run Demo.E 7%nat 0 Demo.seam_schedule Demo.opening)))
     = [1; 2; 4]
  /\ (forall more,
        delivered 7%nat 3
          (server (Subscription.run Demo.E 7%nat 0 (Demo.seam_schedule ++ more)
                     Demo.opening)) = false)
  /\ pc (Subscription.run Demo.E 7%nat 0 Demo.early_schedule Demo.opening) = SubLive
  /\ pending (Subscription.run Demo.E 7%nat 0 Demo.early_schedule Demo.opening) = []
  /\ map id (rows (db (server
        (Subscription.run Demo.E 7%nat 0 Demo.early_schedule Demo.opening))))
     = [1; 2; 3]
  /\ map (fun f => match f with MessageFrame q _ => q | ErrorFrame _ _ => 0 end)
       (received 7%nat
          (server (Subscription.run Demo.E 7%nat 0 Demo.early_schedule Demo.opening)))
     = [1; 2]
  /\ (forall more,
        delivered 7%nat 3
          (server (Subscription.run Demo.E 7%nat 0 (Demo.early_schedule ++ more)
                     Demo.opening)) = false)
  /\ pc (Subscription.run Demo.E_lazy 7%nat 0 Demo.seam_schedule Demo.opening)
     = SubLive
  /\ (forall more,
        delivered 7%nat 3
          (server (Subscription.run Demo.E_lazy 7%nat 0 (Demo.seam_schedule ++ more)
                     Demo.opening)) = false)
  /\ pc (Subscription.run Demo.E_snapshot 7%nat 0 Demo.seam_schedule Demo.opening)
     = SubLive
  /\ (forall more,
        delivered 7%nat 3
          (server (Subscription.run Demo.E_snapshot 7%nat 0 (Demo.seam_schedule ++ more)
                     Demo.opening)) = false).
Proof.
  assert (Hnever : forall (E : Env) (sched : list Action),
    pc (Subscription.run E 7%nat 0 sched Demo.opening) = SubLive ->
    pending (Subscription.run E 7%nat 0 sched Demo.opening) = [] ->
    (3 <=? DbProvider.largest_rowid
             (db (server (Subscription.run E 7%nat 0 sched Demo.opening)))) = true ->
    delivered 7%nat 3 (server (Subscription.run E 7%nat 0 sched Demo.opening)) = false ->
    forall more,
      delivered 7%nat 3
        (server (Subscription.run E 7%nat 0 (sched ++ more) Demo.opening)) = false).
  { intros E sched Hpc Hpend Hmax Hd more. unfold Subscription.run. rewrite fold_left_app.
    apply (stale_record_never_sent E 7%nat 0 3 more); try assumption.
    - fold (Subscription.run E 7%nat 0 sched Demo.opening). rewrite Hpend. intros p [].
    - apply Z.leb_le. exact Hmax. }
  split; [lia|].
  repeat (split; [first [vm_compute; reflexivity
                        | intros more; apply Hnever; vm_compute; reflexivity]|]).
  intros more. apply Hnever; vm_compute; reflexivity.
Qed.

(* ================================================================== *)
(** ** Further properties of the store *)
(* ================================================================== *)

Section Sorting.

Lemma insert_by_id_perm (r : SavedLabel) (l : list SavedLabel) :
  Permutation (Sql.insert_by_id r l) (r :: l).
Proof.
  induction l as [|x l IH]; cbn [Sql.insert_by_id]; [reflexivity|].
  destruct (id r <=? id x); [reflexivity|].
  rewrite IH. apply perm_swap.
Qed.

Lemma order_by_id_perm (l : list SavedLabel) : Permutation (Sql.order_by_id l) l.
Proof.
  unfold Sql.order_by_id. induction l as [|x l IH]; cbn [fold_right]; [reflexivity|].
  rewrite insert_by_id_perm. constructor. exact IH.
Qed.

Lemma id_le_trans : Relations_1.Transitive id_le.
Proof. intros a b c Hab Hbc. unfold id_le in *. lia. Qed.

Lemma sorted_strict (l : list SavedLabel) :
  Sorted id_le l -> NoDup (map id l) -> StronglySorted id_lt l.
Proof.
  intros Hs Hn. apply (Sorted_StronglySorted id_le_trans) in Hs.
  induction l as [|x l IH]; [constructor|].
  inversion Hs as [|? ? Hs' Hall]; subst. inversion Hn as [|? ? Hnin Hn']; subst.
  constructor; [apply IH; assumption|].
  rewrite Forall_forall in *. intros r Hr. specialize (Hall r Hr).
  unfold id_le, id_lt in *.
  destruct (Z.eq_dec (id x) (id r)) as [Heq|Hne]; [|lia].
  exfalso. apply Hnin. rewrite Heq. apply in_map. exact Hr.
Qed.

(** Two strictly ascending lists with the same members are equal. *)
Lemma strict_unique (l1 : list SavedLabel) :
  forall l2,
    StronglySorted id_lt l1 -> StronglySorted id_lt l2 ->
    (forall r, In r l1 <-> In r l2) -> l1 = l2.
Proof.
  induction l1 as [|a t1 IH]; intros l2 H1 H2 Hmem.
  - destruct l2 as [|b t2]; [reflexivity|].
    exfalso. apply (Hmem b). cbn. auto.
  - destruct l2 as [|b t2]; [exfalso; apply (Hmem a); cbn; auto|].
    inversion H1 as [|? ? H1' Ha]; subst. inversion H2 as [|? ? H2' Hb]; subst.
    rewrite Forall_forall in Ha, Hb. unfold id_lt in *.
    assert (Hab : a = b).
    { destruct (proj1 (Hmem a) (or_introl eq_refl)) as [Heq|Hin]; [congruence|].
      destruct (proj2 (Hmem b) (or_introl eq_refl)) as [Heq|Hin']; [congruence|].
      specialize (Ha b Hin'). specialize (Hb a Hin). lia. }
    subst b. f_equal. apply IH; [assumption | assumption|].
    intros r. split; intros Hr.
    + destruct (proj1 (Hmem r) (or_intror Hr)) as [Heq|Hin]; [|exact Hin].
      subst r. specialize (Ha a Hr). lia.
    + destruct (proj2 (Hmem r) (or_intror Hr)) as [Heq|Hin]; [|exact Hin].
      subst r. specialize (Hb a Hr). lia.
Qed.

Lemma filter_ids_nodup (f : SavedLabel -> bool) (l : list SavedLabel) :
  NoDup (map id l) -> NoDup (map id (filter f l)).
Proof.
  induction l as [|x l IH]; cbn [filter map]; [auto|].
  intros Hn. inversion Hn as [|? ? Hnin Hn']; subst.
  destruct (f x); cbn [map]; [|auto].
  constructor; [|auto]. intros Hin. apply Hnin.
  apply in_map_iff in Hin. destruct Hin as (r & Hr & Hin).
  apply filter_In in Hin. rewrite <- Hr. apply in_map. tauto.
Qed.

(** The rows that a SELECT with a filter and ORDER BY id returns, on a
    table with a primary key, are strictly ascending. *)
Lemma select_strict (f : SavedLabel -> bool) (d : Db) :
  primary_key d -> StronglySorted id_lt (Sql.order_by_id (filter f (rows d))).
Proof.
  intros Hpk. apply sorted_strict; [apply order_by_id_sorted|].
  apply (Permutation_NoDup (l := map id (filter f (rows d)))).
  - apply Permutation_map. symmetry. apply order_by_id_perm.
  - apply filter_ids_nodup. exact Hpk.
Qed.

End Sorting.

(** X1. [iterateLabels(cursor)] yields exactly the rows of the table with
    an id above the cursor, each as often as the table holds it, in
    ascending id order; on a table with a primary key the order is
    strict. *)
Theorem iterateLabels_exact (cursor : Z) (d : Db) :
  (forall r, In r (DbProvider.iterateLabels cursor d)
             <-> In r (rows d) /\ cursor < id r)
  /\ Sorted id_le (DbProvider.iterateLabels cursor d)
  /\ Permutation (DbProvider.iterateLabels cursor d)
       (filter (fun r => cursor <? id r) (rows d))
  /\ (primary_key d -> StronglySorted id_lt (DbProvider.iterateLabels cursor d)).
Proof.
  split; [intros r; apply iterateLabels_In|].
  split; [apply order_by_id_sorted|].
  split; [apply order_by_id_perm|].
  apply select_strict.
Qed.

(** X2. [queryLabels(identifier, cursor, limit)] returns only rows of the
    table whose [val] is the identifier and whose id is above the cursor
    (0 when absent), in ascending id order, at most [limit] of them (1
    when absent) for a limit that is not negative; when the limit does
    not cut the result, every such row is returned. *)
Theorem queryLabels_sound_complete (identifier : string) (cursor limit : option Z)
        (d : Db) :
  let c := match cursor with Some c => c | None => 0 end in
  let n := match limit with Some n => n | None => 1 end in
  let rs := DbProvider.queryLabels identifier cursor limit d in
  (forall r, In r rs -> In r (rows d) /\ val (label r) = identifier /\ c < id r)
  /\ Sorted id_le rs
  /\ (0 <= n -> Z.of_nat (List.length rs) <= n)
  /\ (Z.of_nat (List.length (rows d)) <= n ->
      forall r, In r (rows d) -> val (label r) = identifier -> c < id r -> In r rs).
Proof.
  intros c n rs. unfold rs, DbProvider.queryLabels. fold c. fold n.
  split; [|split; [|split]].
  - intros r Hr. apply limit_rows_In, order_by_id_In, filter_In in Hr.
    destruct Hr as [Hin Hm]. apply andb_true_iff in Hm. destruct Hm as [Hv Hc].
    apply String.eqb_eq in Hv. apply Z.ltb_lt in Hc. auto.
  - apply limit_rows_sorted, order_by_id_sorted.
  - apply limit_rows_length.
  - intros Hn r Hr Hv Hc. rewrite limit_rows_all.
    + apply order_by_id_In, filter_In. split; [exact Hr|].
      apply andb_true_iff. split; [apply String.eqb_eq, Hv | apply Z.ltb_lt, Hc].
    + rewrite order_by_id_length.
      pose proof (filter_length_le
                    (fun r => String.eqb (val (label r)) identifier && (c <? id r))
                    (rows d)). lia.
Qed.

(** X3. With the default limit, [queryLabels] answers with nothing when
    no row with that [val] lies above the cursor, and otherwise with the
    single such row of smallest id. *)
Theorem queryLabels_default_is_first (identifier : string) (cursor : option Z)
        (d : Db) :
  let c := match cursor with Some c => c | None => 0 end in
  (DbProvider.queryLabels identifier cursor None d = []
   /\ forall r, In r (rows d) -> val (label r) = identifier -> id r <= c)
  \/ (exists x,
        DbProvider.queryLabels identifier cursor None d = [x]
        /\ In x (rows d) /\ val (label x) = identifier /\ c < id x
        /\ forall r, In r (rows d) -> val (label r) = identifier -> c < id r ->
                     id x <= id r).
Proof.
  intros c. unfold DbProvider.queryLabels. fold c.
  set (f := fun r => String.eqb (val (label r)) identifier && (c <? id r)).
  assert (Hf : forall r, f r = true <-> val (label r) = identifier /\ c < id r).
  { intros r. unfold f. rewrite andb_true_iff, String.eqb_eq, Z.ltb_lt. reflexivity. }
  destruct (Sql.order_by_id (filter f (rows d))) as [|x t] eqn:Ho.
  - left. split; [reflexivity|]. intros r Hr Hv.
    destruct (Z.le_gt_cases (id r) c) as [Hle|Hgt]; [exact Hle|].
    assert (Hin : In r (Sql.order_by_id (filter f (rows d)))).
    { apply order_by_id_In, filter_In. split; [exact Hr|]. apply Hf. split; [exact Hv | lia]. }
    rewrite Ho in Hin. destruct Hin.
  - right. exists x. split; [reflexivity|].
    assert (Hhd : hd_error (Sql.order_by_id (filter f (rows d))) = Some x)
      by (rewrite Ho; reflexivity).
    apply hd_order_by_id in Hhd. destruct Hhd as [Hin Hmin].
    apply filter_In in Hin. destruct Hin as [Hin Hx]. apply Hf in Hx.
    destruct Hx as [Hv Hc]. repeat (split; [assumption|]).
    intros r Hr Hrv Hrc. apply Hmin. apply filter_In. split; [exact Hr|].
    apply Hf. auto.
Qed.

(** X4. [isCursorInTheFuture(cursor)] answers true exactly when the cursor
    is above every id of the table and, on an empty table, above 0. *)
Theorem isCursorInTheFuture_iff (cursor : Z) (d : Db) :
  DbProvider.isCursorInTheFuture cursor d = true
  <-> (forall r, In r (rows d) -> id r < cursor) /\ (rows d = [] -> 0 < cursor).
Proof.
  split.
  - unfold DbProvider.isCursorInTheFuture.
    destruct (Sql.max_id (rows d)) as [m|] eqn:Hm; intros H; apply Z.ltb_lt in H.
    + split.
      * intros r Hr. pose proof (max_id_upper _ _ Hm r Hr). lia.
      * intros He. rewrite He in Hm. discriminate.
    + split; [|intros _; exact H].
      destruct (rows d); [intros r [] | discriminate].
  - intros [Hall Hempty]. apply isCursorInTheFuture_above; assumption.
Qed.

(** X5. What a successful [saveLabel] leaves behind, on any table: the
    row is appended with an id above every id of the table, a primary key
    stays a primary key, the new id is not in the future while the next
    one is, and the row can be read back: [iterateLabels] from any cursor
    below the id yields it as the row of largest id, and [queryLabels]
    for its [val] finds it.  What is read back is the label as bound to
    the columns: [neg] as a boolean, no [ver]. *)
Theorem saveLabel_then_read (l : Label) (d d' : Db) (i : Z)
        (Hsave : DbProvider.saveLabel l d = (inr i, d')) :
  rows d' = rows d ++ [mkSaved i (DbProvider.row_of l)]
  /\ (forall r, In r (rows d) -> id r < i)
  /\ (primary_key d -> primary_key d')
  /\ DbProvider.isCursorInTheFuture i d' = false
  /\ DbProvider.isCursorInTheFuture (i + 1) d' = true
  /\ (forall c, c < i ->
        In (mkSaved i (DbProvider.row_of l)) (DbProvider.iterateLabels c d')
        /\ forall r, In r (DbProvider.iterateLabels c d') -> id r <= i)
  /\ (forall c n, c < i -> Z.of_nat (List.length (rows d')) <= n ->
        In (mkSaved i (DbProvider.row_of l))
           (DbProvider.queryLabels (val l) (Some c) (Some n) d')).
Proof.
  apply saveLabel_ok_id in Hsave. destruct Hsave as (Hi & _ & Hr & _).
  destruct (largest_rowid_upper d) as [_ Hup].
  assert (Hold : forall r, In r (rows d) -> id r < i).
  { intros r Hin. specialize (Hup r Hin). lia. }
  assert (Hnew : In (mkSaved i (DbProvider.row_of l)) (rows d')).
  { rewrite Hr. apply in_or_app. right. cbn. auto. }
  assert (Hall : forall r, In r (rows d') -> id r <= i).
  { intros r Hin. rewrite Hr in Hin. apply in_app_or in Hin.
    destruct Hin as [Hin|[<-|[]]]; [specialize (Hold r Hin); lia | cbn; lia]. }
  split; [exact Hr|]. split; [exact Hold|]. split; [|split; [|split; [|split]]].
  - unfold primary_key. rewrite Hr, map_app. cbn [map id]. intros Hpk.
    apply NoDup_app; [exact Hpk | repeat constructor; intros [] |].
    intros a Ha [<-|[]]. apply in_map_iff in Ha. destruct Ha as (r & Hra & Hin).
    specialize (Hold r Hin). lia.
  - destruct (DbProvider.isCursorInTheFuture i d') eqn:Hf; [|reflexivity].
    apply isCursorInTheFuture_iff in Hf. destruct Hf as [Hf _].
    specialize (Hf _ Hnew). cbn in Hf. lia.
  - apply isCursorInTheFuture_iff. split.
    + intros r Hin. specialize (Hall r Hin). lia.
    + intros He. rewrite He in Hnew. destruct Hnew.
  - intros c Hc. split.
    + apply iterateLabels_In. split; [exact Hnew | exact Hc].
    + intros r Hin. apply iterateLabels_In in Hin. apply Hall. tauto.
  - intros c n Hc Hn.
    apply (proj2 (proj2 (proj2 (queryLabels_sound_complete (val l) (Some c) (Some n) d'))));
      [exact Hn | exact Hnew | reflexivity | exact Hc].
Qed.

Lemma saveLabel_then_read_witness :
  DbProvider.isCursorInTheFuture 3 (snd (DbProvider.saveLabel Demo.unsigned_spam Demo.two_rows))
  = false
  /\ DbProvider.isCursorInTheFuture (3 + 1)
       (snd (DbProvider.saveLabel Demo.unsigned_spam Demo.two_rows)) = true.
Proof.
  destruct (saveLabel_then_read Demo.unsigned_spam Demo.two_rows
              (snd (DbProvider.saveLabel Demo.unsigned_spam Demo.two_rows)) 3 eq_refl)
    as (_ & _ & _ & H1 & H2 & _).
  split; [exact H1 | exact H2].
Defined.

(* ================================================================== *)
(** ** Further properties of [searchLabels] *)
(* ================================================================== *)

Section WhereClause.

Variable r : SavedLabel.
Variable sources : list string.
Variable cursor : option Z.

(** The source and cursor conditions are a conjunction added to whatever
    conjunction is being read. *)
Lemma eval_flat_filters (acc : bool) :
  Sql.eval_flat
    ((match sources with
      | [] => []
      | _ => [Sql.TAnd; Sql.TSrcIn sources]
      end)
     ++ (match DbProvider.cursor_truthy cursor with
         | Some c => [Sql.TAnd; Sql.TIdGt c]
         | None => []
         end)) r acc
  = acc && passes sources cursor r.
Proof.
  unfold passes.
  destruct sources as [|s0 ss]; destruct (DbProvider.cursor_truthy cursor) as [c|];
    cbn; rewrite ?andb_true_r, ?andb_assoc; reflexivity.
Qed.

Lemma eval_flat_alternatives (rest : list Sql.token) (pass : bool) :
  (forall acc, Sql.eval_flat rest r acc = acc && pass) ->
  forall qs q acc,
    Sql.eval_flat (Sql.join Sql.TOr (map Sql.TUriLike (q :: qs)) ++ rest) r acc
    = match qs with
      | [] => acc && uri_like q r && pass
      | _ => (acc && uri_like q r)
             || (existsb (fun q' => uri_like q' r) (removelast qs)
                 || (uri_like (last qs "") r && pass))
      end.
Proof.
  intros Hrest. induction qs as [|q' qs IH]; intros q acc.
  - cbn. apply Hrest.
  - change (Sql.join Sql.TOr (map Sql.TUriLike (q :: q' :: qs)))
      with (Sql.TUriLike q :: Sql.TOr :: Sql.join Sql.TOr (map Sql.TUriLike (q' :: qs))).
    cbn [app Sql.eval_flat Sql.eval_atom]. fold (uri_like q r).
    rewrite IH. f_equal.
    destruct qs as [|q'' qs'].
    + cbn. reflexivity.
    + cbn [andb]. change (removelast (q' :: q'' :: qs')) with (q' :: removelast (q'' :: qs')).
      change (last (q' :: q'' :: qs') "") with (last (q'' :: qs') "").
      cbn [existsb]. rewrite orb_assoc. reflexivity.
Qed.

End WhereClause.

(** X6. What the WHERE clause of [searchLabels] selects.  Without a LIKE
    pattern: the rows that pass the source and cursor filters.  With
    patterns: the rows that match one of the patterns before the last,
    whatever their source and id, and the rows that match the last
    pattern and pass the source and cursor filters. *)
Theorem where_clause_selects (patterns sources : list string) (cursor : option Z)
        (r : SavedLabel) :
  Sql.eval_where (DbProvider.where_clause patterns sources cursor) r
  = match patterns with
    | [] => passes sources cursor r
    | _ => existsb (fun q => uri_like q r) (removelast patterns)
           || (uri_like (last patterns "") r && passes sources cursor r)
    end.
Proof.
  destruct patterns as [|q qs]; [apply eval_where_none|].
  unfold Sql.eval_where, DbProvider.where_clause.
  cbn [app Sql.eval_flat Sql.eval_atom andb].
  rewrite (eval_flat_alternatives r _ (passes sources cursor r)
             (eval_flat_filters r sources cursor)).
  destruct qs as [|q' qs]; cbn [andb]; [reflexivity|].
  change (removelast (q :: q' :: qs)) with (q :: removelast (q' :: qs)).
  change (last (q :: q' :: qs) "") with (last (q' :: qs) "").
  cbn [existsb]. rewrite orb_assoc. reflexivity.
Qed.

(** X7. A bare [*] anywhere among the uri patterns switches the uri
    filter off: no pattern is looked at, not even one that would be
    rejected, and the result is the rows that pass the source and cursor
    filters, in id order, cut at the limit; it is the result of the same
    search without uri patterns. *)
Theorem search_star_is_no_filter (cursor limit : option Z)
        (uriPatterns sources : list string) (d : Db)
        (Hstar : In "*" uriPatterns) :
  DbProvider.searchLabels cursor limit uriPatterns sources d
  = inr (Sql.limit_rows (limit_of limit)
           (Sql.order_by_id (filter (passes sources cursor) (rows d))))
  /\ DbProvider.searchLabels cursor limit uriPatterns sources d
     = DbProvider.searchLabels cursor limit [] sources d.
Proof.
  assert (Hex : existsb (String.eqb "*") uriPatterns = true).
  { apply existsb_exists. exists "*". split; [exact Hstar | reflexivity]. }
  unfold DbProvider.searchLabels, DbProvider.patterns_of. rewrite Hex.
  cbn [existsb]. fold (limit_of limit). split; [|reflexivity].
  do 3 f_equal. apply filter_ext. intros r. apply eval_where_none.
Qed.

Lemma search_star_is_no_filter_witness :
  DbProvider.searchLabels None None ["a*b*"; "*"] ["did:plc:other"] Demo.two_rows
  = DbProvider.searchLabels None None [] ["did:plc:other"] Demo.two_rows.
Proof.
  apply (search_star_is_no_filter None None ["a*b*"; "*"] ["did:plc:other"] Demo.two_rows).
  cbn. auto.
Defined.

Section LikePatterns.

Lemma like_plain_iff (q : list ascii) :
  ~ In Js.percent q -> ~ In Js.underscore q ->
  forall s, Sql.like q s = true <-> same_nocase s q.
Proof.
  unfold same_nocase.
  induction q as [|c q IH]; intros Hp Hu s.
  - cbn. destruct s; cbn; split; congruence.
  - rewrite like_cons_literal by (cbn in Hp, Hu; tauto).
    destruct s as [|d s]; cbn [map]; [split; discriminate|].
    rewrite andb_true_iff, IH by (cbn in Hp, Hu; tauto).
    unfold Sql.eqb_nocase. rewrite Ascii.eqb_eq.
    split; [intros [H1 H2]; congruence | intros H; inversion H; auto].
Qed.

Lemma like_anything (s : list ascii) : Sql.like [Js.percent] s = true.
Proof.
  unfold Js.percent. induction s as [|d s IH]; [reflexivity|].
  cbn in *. exact IH.
Qed.

Lemma like_prefix_iff (q : list ascii) :
  ~ In Js.percent q -> ~ In Js.underscore q ->
  forall s, Sql.like (q ++ [Js.percent]) s = true
            <-> exists s1 s2, s = s1 ++ s2 /\ same_nocase s1 q.
Proof.
  unfold same_nocase.
  induction q as [|c q IH]; intros Hp Hu s.
  - cbn [app]. rewrite like_anything. split; [|auto].
    intros _. exists [], s. auto.
  - cbn [app]. rewrite like_cons_literal by (cbn in Hp, Hu; tauto).
    destruct s as [|d s].
    + split; [discriminate|]. intros (s1 & s2 & Hs & Hm).
      destruct s1; cbn in Hm, Hs; discriminate.
    + rewrite andb_true_iff, IH by (cbn in Hp, Hu; tauto).
      unfold Sql.eqb_nocase. rewrite Ascii.eqb_eq. split.
      * intros (Hc & s1 & s2 & Hs & Hm). exists (d :: s1), s2.
        cbn. split; congruence.
      * intros (s1 & s2 & Hs & Hm). destruct s1 as [|e s1]; cbn in Hm; [discriminate|].
        cbn in Hs. inversion Hs; subst. inversion Hm. split; [congruence|].
        exists s1, s2. auto.
Qed.

(** A uri that contains an underscore is never matched by the LIKE
    pattern made from itself: the pattern has a backslash where the uri
    has its first underscore. *)
Lemma like_own_underscore (l : list ascii) :
  In Js.underscore l ->
  Sql.like (Js.escape_underscore (Js.remove_percent l)) l = false.
Proof.
  induction l as [|c l IH]; intros Hin; [destruct Hin|].
  destruct (Ascii.eqb_spec c Js.percent) as [->|Hcp]; [apply like_percent_head|].
  unfold Js.escape_underscore, Js.remove_percent in *. cbn [filter].
  destruct (Ascii.eqb_spec c Js.percent) as [|_]; [contradiction|]. cbn [negb flat_map].
  destruct (Ascii.eqb_spec c Js.underscore) as [->|Hcu]; cbn [app].
  - rewrite like_cons_literal by discriminate. reflexivity.
  - rewrite like_cons_literal by assumption.
    unfold Sql.eqb_nocase at 1. rewrite Ascii.eqb_refl. cbn [andb].
    apply IH. destruct Hin as [Heq|Hin]; [congruence | exact Hin].
Qed.

Lemma remove_percent_plain (l : list ascii) :
  ~ In Js.percent l -> Js.remove_percent l = l.
Proof.
  unfold Js.remove_percent. induction l as [|c l IH]; cbn; [reflexivity|].
  intros H. destruct (Ascii.eqb_spec c Js.percent) as [->|_]; [tauto|].
  cbn. f_equal. apply IH. tauto.
Qed.

Lemma like_pattern_plain (q : string) :
  plain (Js.chars q) -> DbProvider.like_pattern q = inr q.
Proof.
  intros (Hp & Hu & Hs). unfold DbProvider.like_pattern.
  rewrite (remove_percent_plain _ Hp), (escape_underscore_plain _ Hu),
    (indexOf_absent _ _ Hs).
  unfold Js.str, Js.chars. rewrite string_of_list_ascii_of_string. reflexivity.
Qed.

Lemma indexOf_end (x : ascii) (l : list ascii) :
  ~ In x l -> Js.indexOf x (l ++ [x]) = Some (List.length l).
Proof.
  induction l as [|c l IH]; cbn; intros H.
  - rewrite Ascii.eqb_refl. reflexivity.
  - destruct (Ascii.eqb_spec c x) as [->|_]; [tauto|].
    rewrite IH by tauto. reflexivity.
Qed.

Lemma like_pattern_prefix (q : list ascii) :
  plain q ->
  DbProvider.like_pattern (Js.str (q ++ [Js.star])) = inr (Js.str (q ++ [Js.percent])).
Proof.
  intros (Hp & Hu & Hs). unfold DbProvider.like_pattern. rewrite chars_str.
  assert (Hp' : ~ In Js.percent (q ++ [Js.star])).
  { intros H. apply in_app_or in H. destruct H as [H|[H|[]]]; [tauto | discriminate H]. }
  assert (Hu' : ~ In Js.underscore (q ++ [Js.star])).
  { intros H. apply in_app_or in H. destruct H as [H|[H|[]]]; [tauto | discriminate H]. }
  rewrite (remove_percent_plain _ Hp'), (escape_underscore_plain _ Hu'),
    (indexOf_end _ _ Hs).
  rewrite length_app. cbn [List.length].
  replace (List.length q + 1 - 1)%nat with (List.length q) by lia.
  rewrite Nat.eqb_refl. cbn [negb]. unfold Js.slice_0_m1.
  rewrite removelast_last. reflexivity.
Qed.

(** The result of a search with one LIKE pattern, up to the limit. *)
Lemma search_one_like (cursor limit : option Z) (p q : string) (sources : list string)
      (d : Db) :
  p <> "*" ->
  DbProvider.like_pattern p = inr q ->
  exists rs,
    DbProvider.searchLabels cursor limit [p] sources d = inr rs
    /\ (forall r, In r rs ->
          In r (rows d) /\ uri_like q r = true /\ passes sources cursor r = true)
    /\ (Z.of_nat (List.length (rows d)) <= limit_of limit ->
        forall r, In r (rows d) -> uri_like q r = true ->
                  passes sources cursor r = true -> In r rs).
Proof.
  intros Hne Hlp. unfold DbProvider.searchLabels, DbProvider.patterns_of.
  cbn [existsb DbProvider.map_throw].
  destruct (String.eqb_spec "*" p) as [Heq|_]; [congruence|]. cbn [orb].
  rewrite Hlp. eexists. split; [reflexivity|]. fold (limit_of limit). split.
  - intros r Hr. apply limit_rows_In, order_by_id_In, filter_In in Hr.
    destruct Hr as [Hin Hw]. rewrite eval_where_one in Hw.
    apply andb_true_iff in Hw. unfold uri_like. tauto.
  - intros Hlim r Hr Hl Hpass. rewrite limit_rows_all.
    + apply order_by_id_In, filter_In. split; [exact Hr|].
      rewrite eval_where_one. unfold uri_like in Hl. rewrite Hl, Hpass. reflexivity.
    + rewrite order_by_id_length.
      pose proof (filter_length_le
                    (Sql.eval_where (DbProvider.where_clause [q] sources cursor))
                    (rows d)). lia.
Qed.

End LikePatterns.

(** X8. A uri pattern without special characters is compared with the
    uri of a row up to ASCII case, not exactly: the search returns only
    rows whose uri equals the pattern up to the case of its ASCII letters
    (and that pass the source and cursor filters), and, when the limit
    does not cut the result, all of them; so a row whose uri differs from
    the pattern in case only is returned. *)
Theorem search_exact_pattern_ignores_case (cursor limit : option Z) (p : string)
        (sources : list string) (d : Db)
        (Hplain : plain (Js.chars p)) :
  exists rs,
    DbProvider.searchLabels cursor limit [p] sources d = inr rs
    /\ (forall r, In r rs ->
          In r (rows d)
          /\ same_nocase (Js.chars (uri (label r))) (Js.chars p)
          /\ passes sources cursor r = true)
    /\ (Z.of_nat (List.length (rows d)) <= limit_of limit ->
        forall r, In r (rows d) ->
                  same_nocase (Js.chars (uri (label r))) (Js.chars p) ->
                  passes sources cursor r = true -> In r rs).
Proof.
  assert (Hne : p <> "*").
  { intros ->. destruct Hplain as (_ & _ & Hs). apply Hs. cbn. auto. }
  destruct (search_one_like cursor limit p p sources d Hne (like_pattern_plain p Hplain))
    as (rs & Hrun & Hsound & Hcomplete).
  destruct Hplain as (Hp & Hu & _).
  exists rs. split; [exact Hrun|]. split.
  - intros r Hr. destruct (Hsound r Hr) as (Hin & Hl & Hpass).
    unfold uri_like in Hl. apply (like_plain_iff _ Hp Hu) in Hl. auto.
  - intros Hlim r Hr Hsame Hpass. apply Hcomplete; [assumption | assumption | | assumption].
    unfold uri_like. apply (like_plain_iff _ Hp Hu). exact Hsame.
Qed.

Lemma search_exact_pattern_ignores_case_witness :
  DbProvider.searchLabels None None ["AT://X"] []
    {| rows := [mkSaved 1 (Demo.lab "at://x" "did:plc:labeler" "spam")];
       sqlite_sequence := 1; faults := [] |}
  = inr [mkSaved 1 (Demo.lab "at://x" "did:plc:labeler" "spam")]
  /\ exists rs,
      DbProvider.searchLabels None None ["AT://X"] []
        {| rows := [mkSaved 1 (Demo.lab "at://x" "did:plc:labeler" "spam")];
           sqlite_sequence := 1; faults := [] |} = inr rs
      /\ (forall r, In r rs ->
            In r [mkSaved 1 (Demo.lab "at://x" "did:plc:labeler" "spam")]
            /\ same_nocase (Js.chars (uri (label r))) (Js.chars "AT://X")
            /\ passes [] None r = true)
      /\ (Z.of_nat 1 <= limit_of None ->
          forall r, In r [mkSaved 1 (Demo.lab "at://x" "did:plc:labeler" "spam")] ->
                    same_nocase (Js.chars (uri (label r))) (Js.chars "AT://X") ->
                    passes [] None r = true -> In r rs).
Proof.
  split; [reflexivity|].
  apply (search_exact_pattern_ignores_case None None "AT://X" []
           {| rows := [mkSaved 1 (Demo.lab "at://x" "did:plc:labeler" "spam")];
              sqlite_sequence := 1; faults := [] |}).
  unfold plain. cbn.
  repeat split; intros H; repeat (destruct H as [H|H]; [discriminate H|]); exact H.
Defined.

(** X9. A uri pattern that ends in its only [*] is a prefix pattern,
    again up to ASCII case: the search returns only rows whose uri starts
    with the characters before the [*], up to case (and that pass the
    source and cursor filters), and all of them when the limit does not
    cut the result. *)
Theorem search_trailing_wildcard_is_prefix (cursor limit : option Z)
        (q : list ascii) (sources : list string) (d : Db)
        (Hplain : plain q) :
  exists rs,
    DbProvider.searchLabels cursor limit [Js.str (q ++ [Js.star])] sources d = inr rs
    /\ (forall r, In r rs ->
          In r (rows d)
          /\ (exists s1 s2, Js.chars (uri (label r)) = s1 ++ s2 /\ same_nocase s1 q)
          /\ passes sources cursor r = true)
    /\ (Z.of_nat (List.length (rows d)) <= limit_of limit ->
        forall r, In r (rows d) ->
                  (exists s1 s2, Js.chars (uri (label r)) = s1 ++ s2 /\ same_nocase s1 q) ->
                  passes sources cursor r = true -> In r rs).
Proof.
  destruct (String.eqb_spec (Js.str (q ++ [Js.star])) "*") as [Heq|Hne].
  - (* the pattern is the bare star: no uri filter, and every uri has the
       empty prefix *)
    assert (Hq : q = []).
    { apply (f_equal Js.chars) in Heq. rewrite chars_str in Heq.
      destruct q as [|c [|c' q']]; [reflexivity | discriminate Heq | discriminate Heq]. }
    subst q.
    destruct (search_star_is_no_filter cursor limit [Js.str ([] ++ [Js.star])] sources d)
      as [Hrun _]; [cbn; auto|].
    eexists. split; [exact Hrun|]. split.
    + intros r Hr. apply limit_rows_In, order_by_id_In, filter_In in Hr.
      destruct Hr as [Hin Hpass]. split; [exact Hin|]. split; [|exact Hpass].
      exists [], (Js.chars (uri (label r))). split; reflexivity.
    + intros Hlim r Hr _ Hpass. rewrite limit_rows_all.
      * apply order_by_id_In, filter_In. auto.
      * rewrite order_by_id_length.
        pose proof (filter_length_le (passes sources cursor) (rows d)). lia.
  - destruct (search_one_like cursor limit _ _ sources d Hne (like_pattern_prefix q Hplain))
      as (rs & Hrun & Hsound & Hcomplete).
    destruct Hplain as (Hp & Hu & _).
    exists rs. split; [exact Hrun|]. split.
    + intros r Hr. destruct (Hsound r Hr) as (Hin & Hl & Hpass).
      unfold uri_like in Hl. rewrite chars_str in Hl.
      apply (like_prefix_iff _ Hp Hu) in Hl. auto.
    + intros Hlim r Hr Hpre Hpass.
      apply Hcomplete; [assumption | assumption | | assumption].
      unfold uri_like. rewrite chars_str. apply (like_prefix_iff _ Hp Hu). exact Hpre.
Qed.

Lemma search_trailing_wildcard_is_prefix_witness :
  exists rs,
    DbProvider.searchLabels None None [Js.str (Js.chars "A" ++ [Js.star])] []
      Demo.percent_rows = inr rs
    /\ (forall r, In r rs ->
          In r (rows Demo.percent_rows)
          /\ (exists s1 s2, Js.chars (uri (label r)) = s1 ++ s2
                            /\ same_nocase s1 (Js.chars "A"))
          /\ passes [] None r = true)
    /\ (Z.of_nat (List.length (rows Demo.percent_rows)) <= limit_of None ->
        forall r, In r (rows Demo.percent_rows) ->
                  (exists s1 s2, Js.chars (uri (label r)) = s1 ++ s2
                                 /\ same_nocase s1 (Js.chars "A")) ->
                  passes [] None r = true -> In r rs).
Proof.
  apply (search_trailing_wildcard_is_prefix None None (Js.chars "A") [] Demo.percent_rows).
  unfold plain. cbn.
  repeat split; intros H; repeat (destruct H as [H|H]; [discriminate H|]); exact H.
Defined.

(** X10. The backslash that [searchLabels] puts before an underscore does
    not make the underscore literal, since the query has no ESCAPE
    clause: a uri pattern that contains an underscore (and no [*]) never
    returns a row whose uri is the pattern itself. *)
Theorem search_underscore_misses_itself (cursor limit : option Z) (p : string)
        (sources : list string) (d : Db)
        (Hund : In Js.underscore (Js.chars p))
        (Hstar : ~ In Js.star (Js.chars p)) :
  exists rs,
    DbProvider.searchLabels cursor limit [p] sources d = inr rs
    /\ forall r, In r rs -> uri (label r) <> p.
Proof.
  assert (Hne : p <> "*").
  { intros ->. apply Hstar. cbn. auto. }
  assert (Hq3 : ~ In Js.star (Js.escape_underscore (Js.remove_percent (Js.chars p)))).
  { intros H. apply Hstar. apply (remove_percent_keeps Js.star).
    unfold Js.escape_underscore in H. apply in_flat_map in H.
    destruct H as (x & Hx & Hin).
    destruct (Ascii.eqb_spec x Js.underscore) as [->|_].
    - destruct Hin as [H|[H|[]]]; discriminate H.
    - destruct Hin as [<-|[]]. exact Hx. }
  assert (Hlp : DbProvider.like_pattern p
                = inr (Js.str (Js.escape_underscore (Js.remove_percent (Js.chars p))))).
  { unfold DbProvider.like_pattern. rewrite (indexOf_absent Js.star _ Hq3). reflexivity. }
  destruct (search_one_like cursor limit p _ sources d Hne Hlp)
    as (rs & Hrun & Hsound & _).
  exists rs. split; [exact Hrun|].
  intros r Hr Huri. destruct (Hsound r Hr) as (_ & Hl & _).
  unfold uri_like in Hl. rewrite chars_str, Huri, (like_own_underscore _ Hund) in Hl.
  discriminate.
Qed.

Lemma search_underscore_misses_itself_witness :
  DbProvider.searchLabels None None ["a_b"] []
    {| rows := [mkSaved 1 (Demo.lab "a_b" "did:plc:labeler" "spam");
                mkSaved 2 (Demo.lab "a\xb" "did:plc:labeler" "spam")];
       sqlite_sequence := 2; faults := [] |}
  = inr [mkSaved 2 (Demo.lab "a\xb" "did:plc:labeler" "spam")]
  /\ exists rs,
      DbProvider.searchLabels None None ["a_b"] [] Demo.two_rows = inr rs
      /\ forall r, In r rs -> uri (label r) <> "a_b".
Proof.
  split; [reflexivity|].
  apply (search_underscore_misses_itself None None "a_b" [] Demo.two_rows).
  - cbn. auto.
  - cbn. intros H; repeat (destruct H as [H|H]; [discriminate H|]); exact H.
Defined.

Section Pages.

Lemma map_throw_length (A B : Type) (f : A -> error + B) (xs : list A) :
  forall ys, DbProvider.map_throw f xs = inr ys -> List.length ys = List.length xs.
Proof.
  induction xs as [|x xs IH]; intros ys; cbn [DbProvider.map_throw].
  - intros H. inversion H. reflexivity.
  - destruct (f x) as [e|y]; [discriminate|].
    destruct (DbProvider.map_throw f xs) as [e|ys']; [discriminate|].
    intros H. inversion H. cbn. f_equal. apply IH. reflexivity.
Qed.

Lemma patterns_of_length (ps qs : list string) :
  DbProvider.patterns_of ps = inr qs -> (List.length qs <= List.length ps)%nat.
Proof.
  unfold DbProvider.patterns_of. destruct (existsb _ ps).
  - intros H. inversion H. cbn. lia.
  - intros H. apply map_throw_length in H. lia.
Qed.

(** With at most one LIKE pattern the WHERE clause is a conjunction of
    the uri condition and the other filters. *)
Lemma eval_where_at_most_one (qs sources : list string) (cursor : option Z)
      (r : SavedLabel) :
  (List.length qs <= 1)%nat ->
  Sql.eval_where (DbProvider.where_clause qs sources cursor) r
  = match qs with [] => true | q :: _ => uri_like q r end && passes sources cursor r.
Proof.
  destruct qs as [|q [|q' qs]]; cbn [List.length]; intros H; [| |lia].
  - apply eval_where_none.
  - apply eval_where_one.
Qed.

Lemma strongly_sorted_app (l1 l2 : list SavedLabel) :
  StronglySorted id_lt (l1 ++ l2) ->
  StronglySorted id_lt l2 /\ forall a b, In a l1 -> In b l2 -> id a < id b.
Proof.
  induction l1 as [|x l1 IH]; cbn [app]; intros H.
  - split; [exact H | intros a b []].
  - inversion H as [|? ? H' Hall]; subst. destruct (IH H') as [H2 Hlt].
    split; [exact H2|]. intros a b [<-|Ha] Hb.
    + rewrite Forall_forall in Hall. apply (Hall b). apply in_or_app. right. exact Hb.
    + apply Hlt; assumption.
Qed.

Lemma skipn_length_firstn (A : Type) (k : nat) (l : list A) :
  skipn (List.length (firstn k l)) l = skipn k l.
Proof.
  revert l. induction k as [|k IH]; intros l; [reflexivity|].
  destruct l as [|a l]; [reflexivity|]. cbn. apply IH.
Qed.

End Pages.

(** X11. Paging through a search with at most one uri pattern, on a table
    with a primary key and no id 0: when a page ends with the row [x],
    the search repeated with the cursor [id x] returns exactly the rows
    that follow [x] in the unlimited result, cut at its own limit; no row
    is skipped and none is repeated. *)
Theorem search_pages_continue (d : Db) (ps sources : list string)
        (c0 : option Z) (n m : Z)
        (full init page2 : list SavedLabel) (x : SavedLabel)
        (Hpk : primary_key d)
        (Hnz : forall r, In r (rows d) -> id r <> 0)
        (Hone : (List.length ps <= 1)%nat)
        (Hn : 0 <= n)
        (Hfull : DbProvider.searchLabels c0 (Some (-1)) ps sources d = inr full)
        (Hpage1 : DbProvider.searchLabels c0 (Some n) ps sources d = inr (init ++ [x]))
        (Hpage2 : DbProvider.searchLabels (Some (id x)) (Some m) ps sources d = inr page2) :
  init ++ [x] = firstn (Z.to_nat n) full
  /\ page2 = Sql.limit_rows m (skipn (List.length (init ++ [x])) full).
Proof.
  unfold DbProvider.searchLabels in *.
  destruct (DbProvider.patterns_of ps) as [e|qs] eqn:Hqs; [discriminate|].
  assert (Hq1 : (List.length qs <= 1)%nat).
  { apply patterns_of_length in Hqs. lia. }
  set (W0 := Sql.eval_where (DbProvider.where_clause qs sources c0)) in *.
  set (W1 := Sql.eval_where (DbProvider.where_clause qs sources (Some (id x)))) in *.
  set (F0 := Sql.order_by_id (filter W0 (rows d))) in *.
  injection Hfull as Hf. injection Hpage1 as Hp1. injection Hpage2 as Hp2.
  unfold Sql.limit_rows in Hf, Hp1. cbn in Hf.
  replace (n <? 0) with false in Hp1 by (symmetry; apply Z.ltb_ge; lia).
  subst full page2.
  split; [symmetry; exact Hp1|].
  f_equal. rewrite <- Hp1, skipn_length_firstn.
  set (k := Z.to_nat n) in *.
  (* the unlimited result, split at the end of the first page *)
  assert (Hsplit : F0 = (init ++ [x]) ++ skipn k F0).
  { rewrite <- Hp1. symmetry. apply firstn_skipn. }
  assert (Hstrict : StronglySorted id_lt F0) by (apply select_strict; exact Hpk).
  assert (Hx : In x F0).
  { rewrite Hsplit. apply in_or_app. left. apply in_or_app. right. cbn. auto. }
  assert (Hrest : StronglySorted id_lt (skipn k F0)
                  /\ forall a b, In a (init ++ [x]) -> In b (skipn k F0) -> id a < id b).
  { apply strongly_sorted_app. rewrite <- Hsplit. exact Hstrict. }
  destruct Hrest as [Hrs Hafter].
  assert (Hbefore : forall a, In a init -> id a < id x).
  { intros a Ha. rewrite Hsplit, <- app_assoc in Hstrict.
    apply strongly_sorted_app in Hstrict. destruct Hstrict as [_ Hlt].
    apply Hlt; [exact Ha | cbn; auto]. }
  (* the filter of the second search *)
  apply order_by_id_In, filter_In in Hx. destruct Hx as [Hxin Hx0].
  assert (Hxnz : id x <> 0) by (apply Hnz, Hxin).
  assert (HW : forall r, W1 r = true <-> W0 r = true /\ id x < id r).
  { intros r. unfold W0, W1 in *.
    rewrite !eval_where_at_most_one in * by exact Hq1.
    rewrite !andb_true_iff in *. unfold passes in *.
    cbn [DbProvider.cursor_truthy].
    destruct (Z.eqb_spec (id x) 0) as [|_]; [contradiction|].
    rewrite !andb_true_iff in *. rewrite Z.ltb_lt.
    destruct Hx0 as (_ & _ & Hxc).
    destruct (DbProvider.cursor_truthy c0) as [c|].
    - apply Z.ltb_lt in Hxc. rewrite Z.ltb_lt. intuition lia.
    - intuition. }
  apply strict_unique.
  - apply select_strict. exact Hpk.
  - exact Hrs.
  - intros r. rewrite order_by_id_In, filter_In, HW. split.
    + intros (Hin & Hw & Hlt).
      assert (Hr : In r F0) by (apply order_by_id_In, filter_In; auto).
      rewrite Hsplit in Hr. apply in_app_or in Hr. destruct Hr as [Hr|Hr]; [|exact Hr].
      apply in_app_or in Hr. destruct Hr as [Hr|[<-|[]]]; [|lia].
      specialize (Hbefore r Hr). lia.
    + intros Hr.
      assert (Hr0 : In r F0) by (rewrite Hsplit; apply in_or_app; right; exact Hr).
      apply order_by_id_In, filter_In in Hr0. destruct Hr0 as [Hin Hw].
      split; [exact Hin|]. split; [exact Hw|].
      apply Hafter; [|exact Hr]. apply in_or_app. right. cbn. auto.
Qed.

Lemma search_pages_continue_witness :
  [mkSaved 1 (Demo.lab "a" "did:plc:other" "spam")]
  = firstn (Z.to_nat 1) (rows Demo.two_rows)
  /\ [mkSaved 2 (Demo.lab "b" "did:plc:labeler" "spam")]
     = Sql.limit_rows 1 (skipn 1 (rows Demo.two_rows)).
Proof.
  apply (search_pages_continue Demo.two_rows [] [] None 1 1
           (rows Demo.two_rows) [] [mkSaved 2 (Demo.lab "b" "did:plc:labeler" "spam")]
           (mkSaved 1 (Demo.lab "a" "did:plc:other" "spam"))).
  - unfold primary_key. cbn. repeat constructor; cbn; intuition discriminate.
  - cbn. intros r [<-|[<-|[]]]; cbn; discriminate.
  - cbn. lia.
  - lia.
  - reflexivity.
  - reflexivity.
  - reflexivity.
Defined.

(* ================================================================== *)
(** ** Further properties of the subscriber registry *)
(* ================================================================== *)

Section Registry.

Import LabelerServer.

Lemma map_get_in (nsid : string) (m : list (string * list WS)) (v : list WS) :
  Map.get nsid m = Some v -> In (nsid, v) m.
Proof.
  induction m as [|[k w] m IH]; cbn; [discriminate|].
  destruct (String.eqb_spec k nsid) as [->|_].
  - intros H. inversion H. auto.
  - intros H. right. apply IH, H.
Qed.

Lemma map_get_none (nsid : string) (m : list (string * list WS)) :
  Map.get nsid m = None -> ~ In nsid (map fst m).
Proof.
  induction m as [|[k w] m IH]; cbn; [tauto|].
  destruct (String.eqb_spec k nsid) as [->|Hne]; [discriminate|].
  intros H [Heq|Hin]; [congruence | exact (IH H Hin)].
Qed.

Lemma map_set_same (nsid : string) (m : list (string * list WS)) (v : list WS) :
  Map.get nsid m = Some v -> Map.set nsid v m = m.
Proof.
  induction m as [|[k w] m IH]; cbn; [discriminate|].
  destruct (String.eqb_spec k nsid) as [->|_].
  - intros H. inversion H. reflexivity.
  - intros H. f_equal. apply IH, H.
Qed.

Lemma map_set_set (nsid : string) (m : list (string * list WS)) (v v' : list WS) :
  Map.set nsid v' (Map.set nsid v m) = Map.set nsid v' m.
Proof.
  induction m as [|[k w] m IH]; cbn.
  - rewrite String.eqb_refl. reflexivity.
  - destruct (String.eqb k nsid) eqn:Hk; cbn; rewrite Hk; [reflexivity|].
    f_equal. exact IH.
Qed.

Lemma map_delete_set_new (nsid : string) (m : list (string * list WS)) (v : list WS) :
  Map.get nsid m = None -> Map.delete nsid (Map.set nsid v m) = m.
Proof.
  induction m as [|[k w] m IH]; cbn.
  - rewrite String.eqb_refl. reflexivity.
  - destruct (String.eqb k nsid) eqn:Hk; [discriminate|].
    intros H. cbn. rewrite Hk. f_equal. apply IH, H.
Qed.

Lemma map_set_keys (nsid : string) (m : list (string * list WS)) (v : list WS) :
  map fst (Map.set nsid v m)
  = match Map.get nsid m with
    | Some _ => map fst m
    | None => map fst m ++ [nsid]
    end.
Proof.
  induction m as [|[k w] m IH]; cbn; [reflexivity|].
  destruct (String.eqb_spec k nsid) as [->|_]; cbn; [reflexivity|].
  rewrite IH. destruct (Map.get nsid m); reflexivity.
Qed.

Lemma map_set_in (nsid : string) (m : list (string * list WS)) (v : list WS)
      (k : string) (w : list WS) :
  In (k, w) (Map.set nsid v m) -> (k = nsid /\ w = v) \/ In (k, w) m.
Proof.
  induction m as [|[k' w'] m IH]; cbn.
  - intros [H|[]]. inversion H. auto.
  - destruct (String.eqb_spec k' nsid) as [->|_]; cbn.
    + intros [H|H]; [inversion H; auto | auto].
    + intros [H|H]; [auto|]. destruct (IH H); auto.
Qed.

Lemma map_delete_in (nsid : string) (m : list (string * list WS))
      (k : string) (w : list WS) :
  In (k, w) (Map.delete nsid m) -> In (k, w) m.
Proof.
  induction m as [|[k' w'] m IH]; cbn; [tauto|].
  destruct (String.eqb k' nsid); cbn; [auto|].
  intros [H|H]; auto.
Qed.

Lemma map_delete_keys (nsid : string) (m : list (string * list WS)) :
  NoDup (map fst m) -> NoDup (map fst (Map.delete nsid m)).
Proof.
  induction m as [|[k' w'] m IH]; cbn; [auto|].
  intros H. inversion H as [|? ? Hnin Hn]; subst.
  destruct (String.eqb k' nsid); cbn; [exact Hn|].
  constructor; [|apply IH, Hn].
  intros Hin. apply Hnin. apply in_map_iff in Hin. destruct Hin as ([k w] & Hk & Hin).
  cbn in Hk. subst k. apply map_delete_in in Hin.
  apply (in_map fst) in Hin. exact Hin.
Qed.

Lemma remove_absent (ws : WS) (subs : list WS) :
  ~ In ws subs -> Map.remove ws subs = subs.
Proof.
  unfold Map.remove. induction subs as [|x subs IH]; cbn; [reflexivity|].
  intros H. destruct (Nat.eqb_spec x ws) as [->|_]; [tauto|].
  cbn. rewrite IH; [reflexivity | tauto].
Qed.

Lemma remove_added (ws : WS) (subs : list WS) :
  ~ In ws subs -> Map.remove ws (Map.add ws subs) = subs.
Proof.
  intros H. unfold Map.add.
  replace (existsb (Nat.eqb ws) subs) with false.
  - pose proof (remove_absent _ _ H) as Hr. unfold Map.remove in *.
    cbv match. rewrite filter_app. cbn. rewrite Nat.eqb_refl. cbn.
    rewrite app_nil_r. exact Hr.
  - symmetry. apply not_true_is_false. intros Hex. apply H.
    apply existsb_exists in Hex. destruct Hex as (x & Hin & Hx).
    apply Nat.eqb_eq in Hx. now subst x.
Qed.

Lemma add_nodup (ws : WS) (subs : list WS) :
  NoDup subs -> NoDup (Map.add ws subs) /\ Map.add ws subs <> [] /\ In ws (Map.add ws subs).
Proof.
  intros Hn. unfold Map.add. destruct (existsb (Nat.eqb ws) subs) eqn:Hex.
  - apply existsb_exists in Hex. destruct Hex as (x & Hin & Hx).
    apply Nat.eqb_eq in Hx. subst x.
    split; [exact Hn|]. split; [|exact Hin]. intros ->. destruct Hin.
  - split; [|split].
    + apply NoDup_app; [exact Hn | repeat constructor; intros [] |].
      intros a Ha [Heq|[]]. rewrite Heq in Hex.
      assert (existsb (Nat.eqb a) subs = true); [|congruence].
      apply existsb_exists. exists a. split; [exact Ha | apply Nat.eqb_refl].
    + destruct subs; discriminate.
    + apply in_or_app. right. cbn. auto.
Qed.

Lemma remove_nodup (ws : WS) (subs : list WS) :
  NoDup subs -> NoDup (Map.remove ws subs) /\ ~ In ws (Map.remove ws subs).
Proof.
  intros Hn. unfold Map.remove. split.
  - apply NoDup_filter. exact Hn.
  - intros H. apply filter_In in H. destruct H as [_ H].
    rewrite Nat.eqb_refl in H. discriminate.
Qed.

End Registry.

(** X12. [addSubscription] and [removeSubscription] keep the registry
    well formed: the topics stay pairwise different, and every topic's
    set of sockets stays without repetition and not empty (a topic whose
    last socket leaves is deleted). *)
Theorem registry_stays_well_formed (nsid : string) (ws : WS) (s : Server)
        (Hok : registry_ok (connections s)) :
  registry_ok (connections (LabelerServer.addSubscription nsid ws s))
  /\ registry_ok (connections (LabelerServer.removeSubscription nsid ws s)).
Proof.
  destruct Hok as [Hkeys Hsets]. split.
  - unfold LabelerServer.addSubscription, set_connections. cbn [connections].
    set (subs := match Map.get nsid (connections s) with Some subs => subs | None => [] end).
    assert (Hsubs : NoDup subs).
    { subst subs. destruct (Map.get nsid (connections s)) as [v|] eqn:Hget; [|constructor].
      apply map_get_in in Hget. apply (Hsets _ _ Hget). }
    destruct (add_nodup ws subs Hsubs) as (Hn & Hne & _).
    split.
    + rewrite map_set_keys. destruct (Map.get nsid (connections s)) eqn:Hget; [exact Hkeys|].
      apply NoDup_app; [exact Hkeys | repeat constructor; intros [] |].
      intros a Ha [Heq|[]]. rewrite <- Heq in Ha. exact (map_get_none _ _ Hget Ha).
    + intros k v Hin. apply map_set_in in Hin.
      destruct Hin as [[-> ->]|Hin]; [auto | exact (Hsets _ _ Hin)].
  - unfold LabelerServer.removeSubscription.
    destruct (Map.get nsid (connections s)) as [subs|] eqn:Hget; [|split; assumption].
    pose proof (map_get_in _ _ _ Hget) as Hin0.
    destruct (remove_nodup ws subs (proj1 (Hsets _ _ Hin0))) as [Hn _].
    destruct (Map.remove ws subs) as [|x t] eqn:Hrem; unfold set_connections;
      cbn [connections].
    + split; [apply map_delete_keys, Hkeys|].
      intros k v Hin. apply map_delete_in in Hin. exact (Hsets _ _ Hin).
    + split.
      * rewrite map_set_keys, Hget. exact Hkeys.
      * intros k v Hin. apply map_set_in in Hin.
        destruct Hin as [[-> ->]|Hin]; [|exact (Hsets _ _ Hin)].
        split; [exact Hn | discriminate].
Qed.

Lemma registry_stays_well_formed_witness :
  registry_ok (connections (LabelerServer.addSubscription subscribeLabels 7%nat
                              (Demo.fresh [])))
  /\ registry_ok (connections (LabelerServer.removeSubscription subscribeLabels 7%nat
                                 (Demo.fresh []))).
Proof.
  apply (registry_stays_well_formed subscribeLabels 7%nat (Demo.fresh [])).
  split; [constructor | intros k subs []].
Defined.

(** X13. Subscribing and unsubscribing undo each other: on a well-formed
    registry in which the socket is not registered, [removeSubscription]
    changes nothing (so it is safe for a socket that never got
    registered, and safe to repeat), and [removeSubscription] after
    [addSubscription] gives back the server as it was. *)
Theorem unsubscribe_undoes_subscribe (nsid : string) (ws : WS) (s : Server)
        (Hok : registry_ok (connections s))
        (Hout : forall subs, Map.get nsid (connections s) = Some subs -> ~ In ws subs) :
  LabelerServer.removeSubscription nsid ws s = s
  /\ LabelerServer.removeSubscription nsid ws (LabelerServer.addSubscription nsid ws s) = s
  /\ LabelerServer.removeSubscription nsid ws (LabelerServer.removeSubscription nsid ws s)
     = LabelerServer.removeSubscription nsid ws s.
Proof.
  destruct Hok as [Hkeys Hsets].
  assert (Hnoop : LabelerServer.removeSubscription nsid ws s = s).
  { unfold LabelerServer.removeSubscription.
    destruct (Map.get nsid (connections s)) as [subs|] eqn:Hget; [|reflexivity].
    rewrite (remove_absent _ _ (Hout subs eq_refl)).
    destruct subs as [|x t].
    - apply map_get_in in Hget. destruct (Hsets _ _ Hget) as [_ Hne]. congruence.
    - unfold set_connections. rewrite (map_set_same _ _ _ Hget). destruct s; reflexivity. }
  split; [exact Hnoop|]. split; [|rewrite Hnoop; exact Hnoop].
  unfold LabelerServer.removeSubscription, LabelerServer.addSubscription, set_connections.
  cbn [connections]. rewrite map_get_set.
  destruct (Map.get nsid (connections s)) as [subs|] eqn:Hget.
  - rewrite (remove_added _ _ (Hout subs eq_refl)).
    destruct subs as [|x t].
    + apply map_get_in in Hget. destruct (Hsets _ _ Hget) as [_ Hne]. congruence.
    + cbn [db sent closed ticks connections]. rewrite map_set_set, (map_set_same _ _ _ Hget).
      destruct s; reflexivity.
  - cbn [Map.add existsb app Map.remove filter]. rewrite Nat.eqb_refl. cbn [negb].
    cbn [db sent closed ticks connections].
    rewrite (map_delete_set_new _ _ _ Hget). destruct s; reflexivity.
Qed.

Lemma unsubscribe_undoes_subscribe_witness :
  LabelerServer.removeSubscription subscribeLabels 7%nat
    (LabelerServer.addSubscription subscribeLabels 7%nat
       (LabelerServer.addSubscription subscribeLabels 5%nat (Demo.fresh [])))
  = LabelerServer.addSubscription subscribeLabels 5%nat (Demo.fresh []).
Proof.
  apply (unsubscribe_undoes_subscribe subscribeLabels 7%nat
           (LabelerServer.addSubscription subscribeLabels 5%nat (Demo.fresh []))).
  - apply (registry_stays_well_formed subscribeLabels 5%nat (Demo.fresh [])).
    split; [constructor | intros k subs []].
  - intros subs H. inversion H. cbn. intros [H'|[]]. discriminate H'.
Defined.

(* ================================================================== *)
(** ** Further properties of saving and creating labels *)
(* ================================================================== *)

Section Saving.

Import LabelerServer.

Variable E : Env.

Lemma server_saveLabel_eq (l : Label) (s : Server) :
  saveLabel E l s
  = match DbProvider.saveLabel (sign E l) (db s) with
    | (inl e, d) => (inl e, set_db d s)
    | (inr i, d) => (inr (mkSaved i (sign E l)), emitLabel i (sign E l) (set_db d s))
    end.
Proof.
  unfold saveLabel, bind, db_saveLabel.
  destruct (DbProvider.saveLabel (sign E l) (db s)) as [[e|i] d]; reflexivity.
Qed.

Lemma createLabel_eq (data : CreateLabelData) (s : Server) :
  createLabel E data s
  = saveLabel E (created_label E data (clock E (ticks s)))
      (match c_cts data with Some _ => s | None => tick s end).
Proof.
  unfold createLabel, cts_or_now, created_label, bind, ret.
  destruct (c_cts data); reflexivity.
Qed.

Lemma store_error_kind (l : Label) (d d' : Db) (e : error) :
  DbProvider.saveLabel l d = (inl e, d') -> exists f, e = fault_error f.
Proof.
  unfold DbProvider.saveLabel, DbProvider.run_insert.
  destruct (faults d) as [|[[m|]|] fs]; cbn; intros H; inversion H.
  - exists (RunThrows m). reflexivity.
  - exists NoChange. reflexivity.
Qed.

Lemma filter_one (ws : WS) (subs : list WS) :
  NoDup subs -> In ws subs -> filter (fun w => Nat.eqb w ws) subs = [ws].
Proof.
  induction subs as [|w subs IH]; intros Hn Hin; [destruct Hin|].
  inversion Hn as [|? ? Hnin Hn']; subst. cbn [filter].
  destruct (Nat.eqb_spec w ws) as [->|Hne].
  - rewrite (filter_none ws subs Hnin). reflexivity.
  - destruct Hin as [Heq|Hin]; [contradiction|]. exact (IH Hn' Hin).
Qed.

(** On a well-formed registry [emitLabel] sends its frame once to every
    registered socket and to no other. *)
Lemma emitLabel_received (i : Z) (l : Label) (s : Server) (ws : WS) :
  registry_ok (connections s) ->
  received ws (emitLabel i l s)
  = received ws s ++ (if Subscription.registered ws s then [MessageFrame i l] else []).
Proof.
  intros [_ Hsets]. destruct (Subscription.registered ws s) eqn:Hreg.
  - apply registered_spec in Hreg. destruct Hreg as (subs & Hget & Hin).
    unfold emitLabel. rewrite Hget, received_fold_send.
    rewrite (filter_one ws subs (proj1 (Hsets _ _ (map_get_in _ _ _ Hget))) Hin).
    reflexivity.
  - rewrite (emitLabel_unregistered ws i l s Hreg). now rewrite app_nil_r.
Qed.




(** [createLabels] fails with nothing but a plain error of the store. *)
Lemma create_each_error_kind (u : string) (c : option string) (n : option bool)
      (vals : list string) :
  forall acc s e s',
    create_each E u c n vals acc s = (inl e, s') -> exists m, e = JsError m.
Proof.
  induction vals as [|v vals IH]; intros acc s e s'; cbn [create_each].
  - discriminate.
  - unfold bind at 1. rewrite createLabel_eq, server_saveLabel_eq.
    destruct (DbProvider.saveLabel _ _) as [[e0|i] d] eqn:Hsave.
    + intros H. inversion H; subst.
      destruct (store_error_kind _ _ _ _ Hsave) as [[m|] ->]; cbn; eauto.
    + apply IH.
Qed.

Lemma createLabels_error_kind (subj : string * option string)
      (labels : option (list string) * option (list string)) (s s' : Server) (e : error) :
  createLabels E subj labels s = (inl e, s') -> exists m, e = JsError m.
Proof.
  destruct subj as [u c], labels as [create negate]. unfold createLabels, bind.
  destruct create as [vals|].
  - destruct (create_each E u c None vals [] s) as [[e1|l1] s1] eqn:H1.
    + intros H. inversion H; subst. exact (create_each_error_kind _ _ _ _ _ _ _ _ H1).
    + destruct negate as [vals2|]; [apply create_each_error_kind | discriminate].
  - cbn. destruct negate as [vals2|]; [apply create_each_error_kind | discriminate].
Qed.

End Saving.

(** X14. [saveLabel] of the server on a well-formed registry.  When the
    INSERT succeeds, the record returned has the next id after the
    largest one the table ever had and carries the signed label, the
    table gains exactly that row, and every socket registered for the
    label stream is sent exactly one frame with that id and label, every
    other socket none.  When the INSERT fails, the error is the store's,
    the table is as before and no frame is sent.  The registry is never
    touched. *)
Theorem saveLabel_stores_then_fans_out (E : Env) (l : Label) (s : Server)
        (Hok : registry_ok (connections s)) :
  match LabelerServer.saveLabel E l s with
  | (inr r, s') =>
      id r = DbProvider.largest_rowid (db s) + 1
      /\ label r = LabelerServer.sign E l
      /\ rows (db s') = rows (db s) ++ [stored r]
      /\ connections s' = connections s
      /\ forall ws, received ws s'
                    = received ws s
                      ++ (if Subscription.registered ws s then [frame_of r] else [])
  | (inl e, s') =>
      (exists f, e = fault_error f)
      /\ rows (db s') = rows (db s)
      /\ sent s' = sent s
      /\ connections s' = connections s
  end.
Proof.
  rewrite server_saveLabel_eq.
  destruct (DbProvider.saveLabel (LabelerServer.sign E l) (db s)) as [[e|i] d] eqn:Hsave.
  - split; [exact (store_error_kind _ _ _ _ Hsave)|].
    destruct (saveLabel_fail_keeps _ _ _ _ Hsave) as (_ & Hrows & _).
    cbn. auto.
  - destruct (saveLabel_ok_id _ _ _ _ Hsave) as (Hi & _ & Hrows & _).
    destruct (emitLabel_frame i (LabelerServer.sign E l) (set_db d s)) as (Hd & _ & Hc & _).
    rewrite Hd, Hc. cbn [id label db connections set_db]. unfold stored. cbn [id label].
    repeat (split; [first [reflexivity | assumption]|]).
    intros ws. rewrite emitLabel_received by exact Hok. reflexivity.
Qed.

Lemma saveLabel_stores_then_fans_out_witness :
  received 7%nat
    (snd (LabelerServer.saveLabel Demo.E (Demo.lab "at://x" "did:plc:a" "spam")
            (LabelerServer.addSubscription subscribeLabels 7%nat (Demo.fresh []))))
  = [MessageFrame 1 (LabelerServer.sign Demo.E (Demo.lab "at://x" "did:plc:a" "spam"))]
  /\ received 8%nat
       (snd (LabelerServer.saveLabel Demo.E (Demo.lab "at://x" "did:plc:a" "spam")
               (LabelerServer.addSubscription subscribeLabels 7%nat (Demo.fresh []))))
     = [].
Proof.
  pose proof (saveLabel_stores_then_fans_out Demo.E (Demo.lab "at://x" "did:plc:a" "spam")
                (LabelerServer.addSubscription subscribeLabels 7%nat (Demo.fresh []))) as H.
  assert (Hok : registry_ok
                  (connections (LabelerServer.addSubscription subscribeLabels 7%nat
                                  (Demo.fresh [])))).
  { split; [repeat constructor; intros [] |].
    intros k subs [Hin|[]]. inversion Hin. split; [repeat constructor; intros [] | discriminate]. }
  specialize (H Hok).
  destruct (LabelerServer.saveLabel Demo.E (Demo.lab "at://x" "did:plc:a" "spam")
              (LabelerServer.addSubscription subscribeLabels 7%nat (Demo.fresh [])))
    as [[e|r] s'] eqn:Hrun; [discriminate Hrun|].
  destruct H as (Hid & Hlab & _ & _ & Hrecv). cbn [snd].
  injection Hrun as Hr _. subst r.
  split; [exact (Hrecv 7%nat) | exact (Hrecv 8%nat)].
Defined.

(** X15. What [createLabel] makes of its argument.  The clock is read
    once when [cts] is absent and not at all when it is given, whether
    or not the INSERT then succeeds.  A record that is returned has the
    next id, the caller's [uri], [val], [cid], [exp] and [neg], the
    caller's [src] or else the server's DID, the caller's [cts] or else
    the clock's reading, no [ver], and a signature freshly made with the
    server's key over these fields.  A failure leaves table and sockets
    as they were. *)
Theorem createLabel_fills_defaults (E : Env) (data : CreateLabelData) (s : Server) :
  let built := created_label E data (clock E (ticks s)) in
  ticks (snd (LabelerServer.createLabel E data s))
  = match c_cts data with Some _ => ticks s | None => S (ticks s) end
  /\ match LabelerServer.createLabel E data s with
     | (inr r, s') =>
         id r = DbProvider.largest_rowid (db s) + 1
         /\ src (label r) = match c_src data with Some a => a | None => did E end
         /\ cts (label r) = match c_cts data with
                            | Some t => t | None => clock E (ticks s) end
         /\ (uri (label r), val (label r), cid (label r), exp (label r), neg (label r))
            = (c_uri data, c_val data, c_cid data, c_exp data, c_neg data)
         /\ ver (label r) = None
         /\ sig (label r) = Some (sign_bytes E (signingKey E) built)
         /\ rows (db s') = rows (db s) ++ [stored r]
     | (inl e, s') =>
         rows (db s') = rows (db s) /\ sent s' = sent s
     end.
Proof.
  intros built. rewrite createLabel_eq, server_saveLabel_eq. fold built.
  set (s0 := match c_cts data with Some _ => s | None => tick s end).
  assert (H0 : db s0 = db s /\ sent s0 = sent s
               /\ ticks s0 = match c_cts data with
                             | Some _ => ticks s | None => S (ticks s) end).
  { subst s0. destruct (c_cts data); cbn; auto. }
  destruct H0 as (Hdb & Hsent & Hticks). rewrite Hdb.
  assert (Hsign : LabelerServer.sign E built
                  = LabelerServer.signLabel E built (signingKey E)) by reflexivity.
  destruct (DbProvider.saveLabel (LabelerServer.sign E built) (db s)) as [[e|i] d] eqn:Hsave.
  - cbn [snd ticks set_db]. split; [exact Hticks|].
    destruct (saveLabel_fail_keeps _ _ _ _ Hsave) as (_ & Hrows & _).
    cbn [db sent set_db]. auto.
  - destruct (emitLabel_frame i (LabelerServer.sign E built) (set_db d s0))
      as (Hd & Ht & _ & _).
    cbn [snd]. rewrite Hd, Ht. cbn [ticks db set_db]. split; [exact Hticks|].
    destruct (saveLabel_ok_id _ _ _ _ Hsave) as (Hi & _ & Hrows & _).
    cbn [id label]. unfold stored. cbn [id label]. rewrite Hsign.
    repeat (split; [first [reflexivity | assumption]|]). exact Hrows.
Qed.



(* ================================================================== *)
(** ** Further properties of the subscription handler *)
(* ================================================================== *)

Section CatchUp.

Import Subscription.

Variable E : Env.
Variable ws : WS.
Variable c : Z.

Lemma run_cons (a : Action) (sched : list Action) (w : World) :
  run E ws c (a :: sched) w = run E ws c sched (step E ws c w a).
Proof. reflexivity. Qed.

(** On a table with a primary key, the rows after the first row of a
    scan are the scan from that row's id. *)
Lemma iterate_step (d : Db) (pos : Z) (y : SavedLabel) (T : list SavedLabel) :
  primary_key d ->
  DbProvider.iterateLabels pos d = y :: T -> DbProvider.iterateLabels (id y) d = T.
Proof.
  intros Hpk Hit.
  pose proof (select_strict (fun r => pos <? id r) d Hpk) as Hs.
  fold (DbProvider.iterateLabels pos d) in Hs. rewrite Hit in Hs.
  inversion Hs as [|? ? HT Hall]; subst. rewrite Forall_forall in Hall.
  apply strict_unique; [apply (select_strict _ d Hpk) | exact HT |].
  intros r. rewrite iterateLabels_In. split.
  - intros [Hr Hlt].
    assert (Hy : In y (DbProvider.iterateLabels pos d)) by (rewrite Hit; cbn; auto).
    apply iterateLabels_In in Hy.
    assert (Hin : In r (DbProvider.iterateLabels pos d)).
    { apply iterateLabels_In. split; [exact Hr | lia]. }
    rewrite Hit in Hin. destruct Hin as [Heq|Hin]; [subst r; lia | exact Hin].
  - intros Hin. split.
    + assert (Hin' : In r (DbProvider.iterateLabels pos d)) by (rewrite Hit; cbn; auto).
      apply iterateLabels_In in Hin'. tauto.
    + exact (Hall r Hin).
Qed.

(** On a table with a primary key, the rows after a batch are the scan
    from the id of the last row of the batch. *)
Lemma iterate_after_batch (d : Db) (pos : Z) (k : nat) (y : SavedLabel)
      (batch : list SavedLabel) :
  primary_key d ->
  firstn k (DbProvider.iterateLabels pos d) = y :: batch ->
  DbProvider.iterateLabels (id (last batch y)) d
  = skipn k (DbProvider.iterateLabels pos d).
Proof.
  intros Hpk Hf.
  pose proof (select_strict (fun r => pos <? id r) d Hpk) as Hs.
  fold (DbProvider.iterateLabels pos d) in Hs.
  pose proof (firstn_skipn k (DbProvider.iterateLabels pos d)) as Hsplit.
  rewrite Hf in Hsplit.
  assert (Hcut : y :: batch = removelast (y :: batch) ++ [last batch y]).
  { rewrite (app_removelast_last y) at 1 by discriminate.
    destruct batch; reflexivity. }
  assert (Hlast : In (last batch y) (DbProvider.iterateLabels pos d)).
  { rewrite <- Hsplit, Hcut. apply in_or_app. left. apply in_or_app. right. cbn. auto. }
  rewrite <- Hsplit in Hs.
  destruct (strongly_sorted_app _ _ Hs) as [Hs2 Hlt].
  rewrite Hcut, <- app_assoc in Hs.
  destruct (strongly_sorted_app _ _ Hs) as [_ Hbefore].
  apply strict_unique; [apply (select_strict _ d Hpk) | exact Hs2 |].
  intros r. rewrite iterateLabels_In. split.
  - intros [Hr Hgt].
    apply iterateLabels_In in Hlast.
    assert (Hin : In r (DbProvider.iterateLabels pos d)).
    { apply iterateLabels_In. split; [exact Hr | lia]. }
    rewrite <- Hsplit, Hcut in Hin. apply in_app_or in Hin.
    destruct Hin as [Hin|Hin]; [|exact Hin].
    apply in_app_or in Hin. destruct Hin as [Hin|[Heq|[]]].
    + specialize (Hbefore r (last batch y) Hin (or_introl eq_refl)). lia.
    + subst r. lia.
  - intros Hin. split.
    + assert (Hin' : In r (DbProvider.iterateLabels pos d)).
      { rewrite <- Hsplit. apply in_or_app. right. exact Hin. }
      apply iterateLabels_In in Hin'. tauto.
    + apply Hlt; [|exact Hin]. rewrite Hcut. apply in_or_app. right. cbn. auto.
Qed.

(** One [next()] returns the first row the iterator had to yield and
    leaves the others. *)
Lemma next_to_yield (it : Iterator) (d : Db) :
  primary_key d ->
  fst (DbProvider.next it d) = hd_error (to_yield it d)
  /\ to_yield (snd (DbProvider.next it d)) d = tl (to_yield it d).
Proof.
  intros Hpk. destruct it as [size [|r buf] pos [|]|pos|[|r rest]]; cbn; auto.
  - (* a batch is fetched *)
    pose proof (firstn_skipn (Pos.to_nat size) (DbProvider.iterateLabels pos d)) as Hsplit.
    pose proof (Pos2Nat.is_pos size) as Hpos.
    destruct (firstn (Pos.to_nat size) (DbProvider.iterateLabels pos d)) as [|y batch] eqn:Hf.
    + assert (HL : DbProvider.iterateLabels pos d = []).
      { destruct (DbProvider.iterateLabels pos d) as [|z t]; [reflexivity|].
        destruct (Pos.to_nat size); [lia | discriminate Hf]. }
      cbn [fst snd to_yield app]. rewrite HL. auto.
    + cbn [fst snd to_yield].
      change (match Pos.to_nat size with
              | O => false
              | S m' => Nat.eqb (List.length batch) m'
              end)
        with (Nat.eqb (List.length (y :: batch)) (Pos.to_nat size)).
      rewrite <- Hsplit. cbn [app hd_error tl].
      split; [reflexivity|]. f_equal.
      destruct (Nat.eqb_spec (List.length (y :: batch)) (Pos.to_nat size)) as [Hfull|Hshort].
      * exact (iterate_after_batch d pos (Pos.to_nat size) y batch Hpk Hf).
      * symmetry. apply skipn_all2. rewrite <- Hf, length_firstn in Hshort. lia.
  - (* a lazy statement is stepped *)
    unfold DbProvider.next_row.
    destruct (DbProvider.iterateLabels pos d) as [|y T] eqn:Hit; cbn.
    + auto.
    + split; [reflexivity|]. exact (iterate_step d pos y T Hpk Hit).
Qed.

Lemma send_all_frame (l : list SavedLabel) :
  forall s,
    sent (send_all ws l s) = sent s ++ map (fun r => (ws, frame_of r)) l
    /\ db (send_all ws l s) = db s
    /\ connections (send_all ws l s) = connections s
    /\ closed (send_all ws l s) = closed s
    /\ ticks (send_all ws l s) = ticks s.
Proof.
  unfold send_all. induction l as [|r l IH]; intros s; cbn [fold_left map].
  - rewrite app_nil_r. auto.
  - destruct (IH (ws_send ws (frame_of r) s)) as (H1 & H2 & H3 & H4 & H5).
    rewrite H1, H2, H3, H4, H5. cbn. rewrite <- app_assoc. auto.
Qed.

(** The scan, left alone with a row in hand, sends that row and all the
    rows the iterator still had, and reaches its end. *)
Lemma scan_run (T : list SavedLabel) :
  forall (w : World) (x : SavedLabel) (it : Iterator),
    pc w = SubScanning (Some x) it ->
    primary_key (db (server w)) ->
    to_yield it (db (server w)) = T ->
    exists it',
      run E ws c (repeat RunSubscriber (S (List.length T))) w
      = {| server := send_all ws (x :: T) (server w);
           pending := pending w;
           pc := SubScanning None it' |}.
Proof.
  induction T as [|y T IH]; intros w x it Hpc Hpk Hy.
  - cbn [List.length repeat run fold_left step]. unfold onOpen_step. rewrite Hpc.
    change (db (ws_send ws (MessageFrame (id x) (label x)) (server w)))
      with (db (server w)).
    destruct (next_to_yield it (db (server w)) Hpk) as [Hrow Hrest]. rewrite Hy in Hrow.
    destruct (DbProvider.next it (db (server w))) as [row it']. cbn in Hrow. subst row.
    exists it'. reflexivity.
  - cbn [List.length]. change (repeat RunSubscriber (S (S (List.length T))))
      with (RunSubscriber :: repeat RunSubscriber (S (List.length T))).
    rewrite run_cons. cbn [step]. unfold onOpen_step at 1. rewrite Hpc.
    change (db (ws_send ws (MessageFrame (id x) (label x)) (server w)))
      with (db (server w)).
    destruct (next_to_yield it (db (server w)) Hpk) as [Hrow Hrest].
    rewrite Hy in Hrow, Hrest.
    destruct (DbProvider.next it (db (server w))) as [row it']. cbn in Hrow, Hrest.
    subst row.
    destruct (IH {| server := ws_send ws (MessageFrame (id x) (label x)) (server w);
                    pending := pending w; pc := SubScanning (Some y) it' |}
                 y it' eq_refl Hpk Hrest) as (it'' & Hrun).
    exists it''. rewrite Hrun. reflexivity.
Qed.

Lemma open_scan_to_yield (d : Db) :
  to_yield (DbProvider.open_scan (scan_mode E) c d) d = DbProvider.iterateLabels c d.
Proof. destruct (scan_mode E) as [size| |]; reflexivity. Qed.

(** The callback, left alone on a cursor that is not in the future, ends
    registered after one slice per row and three more. *)
Lemma catch_up_run (w : World) :
  pc w = SubOpening ->
  DbProvider.isCursorInTheFuture c (db (server w)) = false ->
  primary_key (db (server w)) ->
  run E ws c
      (repeat RunSubscriber
              (List.length (DbProvider.iterateLabels c (db (server w))) + 3)) w
  = {| server := LabelerServer.addSubscription subscribeLabels ws
                   (send_all ws (DbProvider.iterateLabels c (db (server w))) (server w));
       pending := pending w;
       pc := SubLive |}.
Proof.
  intros Hpc Hfut Hpk. rewrite Nat.add_comm.
  cbn [Nat.add repeat]. rewrite run_cons. cbn [step].
  unfold onOpen_step at 1. rewrite Hpc, Hfut.
  rewrite run_cons. cbn [step]. unfold onOpen_step at 1. cbn [pc server pending].
  destruct (next_to_yield (DbProvider.open_scan (scan_mode E) c (db (server w)))
              (db (server w)) Hpk) as [Hrow Hrest].
  rewrite open_scan_to_yield in Hrow, Hrest.
  destruct (DbProvider.next _ (db (server w))) as [row it]. cbn [fst snd] in Hrow, Hrest.
  destruct (DbProvider.iterateLabels c (db (server w))) as [|x T] eqn:HL;
    cbn in Hrow; subst row.
  - cbn. reflexivity.
  - cbn [List.length]. rewrite repeat_cons. unfold run at 1. rewrite fold_left_app.
    fold (run E ws c (repeat RunSubscriber (S (List.length T)))
              {| server := server w; pending := pending w;
                 pc := SubScanning (Some x) it |}).
    destruct (scan_run T {| server := server w; pending := pending w;
                            pc := SubScanning (Some x) it |} x it eq_refl Hpk Hrest)
      as (it' & Hrun).
    rewrite Hrun. reflexivity.
Qed.

End CatchUp.

(** X17. The catch-up of a subscriber that nothing interleaves with.  A
    socket opened with a cursor that is not in the future, on a table
    with a primary key, whose callback runs without any other call in
    between, is live after one slice per row above the cursor and three
    more.  By then the server has sent, to this socket and in ascending
    id order, exactly one frame for each row above the cursor, and
    nothing else to anybody; the socket is registered and not closed, and
    the table is as it was.  This holds on each of the store iterators:
    with no write in between they all return the same rows. *)
Theorem uninterrupted_catch_up_is_exact (E : Env) (ws : WS) (c : Z) (w : World)
        (Hpc : pc w = SubOpening)
        (Hfut : DbProvider.isCursorInTheFuture c (db (server w)) = false)
        (Hpk : primary_key (db (server w))) :
  let L := DbProvider.iterateLabels c (db (server w)) in
  let w' := Subscription.run E ws c (repeat RunSubscriber (List.length L + 3)) w in
  pc w' = SubLive
  /\ sent (server w') = sent (server w) ++ map (fun r => (ws, frame_of r)) L
  /\ Subscription.registered ws (server w') = true
  /\ closed (server w') = closed (server w)
  /\ db (server w') = db (server w)
  /\ pending w' = pending w.
Proof.
  intros L w'. subst w' L. rewrite (catch_up_run E ws c w Hpc Hfut Hpk).
  cbn [pc server pending].
  destruct (send_all_frame ws (DbProvider.iterateLabels c (db (server w))) (server w))
    as (Hsent & Hdb & _ & Hclosed & _).
  split; [reflexivity|]. split; [exact Hsent|].
  split; [apply addSubscription_registers|].
  split; [exact Hclosed|]. split; [exact Hdb | reflexivity].
Qed.

Lemma uninterrupted_catch_up_is_exact_witness :
  sent (server (Subscription.run Demo.E 7%nat 1
                  (repeat RunSubscriber 4) Demo.opening))
  = [(7%nat, MessageFrame 2 (Demo.lab "b" "did:plc:labeler" "spam"))]
  /\ Subscription.registered 7%nat
       (server (Subscription.run Demo.E 7%nat 1
                  (repeat RunSubscriber 4) Demo.opening)) = true.
Proof.
  destruct (uninterrupted_catch_up_is_exact Demo.E 7%nat 1 Demo.opening)
    as (_ & Hsent & Hreg & _).
  - reflexivity.
  - reflexivity.
  - unfold primary_key. cbn. repeat constructor; cbn; intuition discriminate.
  - split; [exact Hsent | exact Hreg].
Defined.

Section Unsubscribe.

Import LabelerServer.

Lemma map_get_absent (nsid : string) (m : list (string * list WS)) :
  ~ In nsid (map fst m) -> Map.get nsid m = None.
Proof.
  induction m as [|[k w] m IH]; cbn; [reflexivity|].
  intros H. destruct (String.eqb_spec k nsid) as [->|_]; [tauto|].
  apply IH. tauto.
Qed.

Lemma map_get_delete (nsid : string) (m : list (string * list WS)) :
  NoDup (map fst m) -> Map.get nsid (Map.delete nsid m) = None.
Proof.
  induction m as [|[k w] m IH]; cbn; [reflexivity|].
  intros H. inversion H as [|? ? Hnin Hn]; subst.
  destruct (String.eqb_spec k nsid) as [->|Hne].
  - apply map_get_absent, Hnin.
  - cbn. destruct (String.eqb_spec k nsid) as [Heq|_]; [contradiction|]. apply IH, Hn.
Qed.

Lemma existsb_remove (a ws : WS) (subs : list WS) :
  existsb (Nat.eqb a) (Map.remove ws subs)
  = existsb (Nat.eqb a) subs && negb (Nat.eqb a ws).
Proof.
  unfold Map.remove. induction subs as [|x subs IH]; cbn [filter existsb]; [reflexivity|].
  destruct (Nat.eqb_spec x ws) as [->|Hx]; cbn [negb existsb].
  - rewrite IH. destruct (Nat.eqb_spec a ws) as [->|Ha]; cbn.
    + now rewrite !andb_false_r.
    + now rewrite !andb_true_r.
  - rewrite IH. destruct (Nat.eqb_spec a x) as [->|Ha]; cbn; [|reflexivity].
    destruct (Nat.eqb_spec x ws); [contradiction | reflexivity].
Qed.

Lemma removeSubscription_registered (ws ws' : WS) (s : Server) :
  NoDup (map fst (connections s)) ->
  Subscription.registered ws' (removeSubscription subscribeLabels ws s)
  = Subscription.registered ws' s && negb (Nat.eqb ws' ws).
Proof.
  intros Hkeys. unfold removeSubscription, Subscription.registered.
  destruct (Map.get subscribeLabels (connections s)) as [subs|] eqn:Hget.
  - pose proof (existsb_remove ws' ws subs) as Hex.
    destruct (Map.remove ws subs) as [|x t] eqn:Hrem; unfold set_connections;
      cbn [connections].
    + rewrite (map_get_delete _ _ Hkeys). rewrite <- Hex. reflexivity.
    + rewrite map_get_set. exact Hex.
  - rewrite Hget. reflexivity.
Qed.

Lemma removeSubscription_frame (nsid : string) (ws : WS) (s : Server) :
  sent (removeSubscription nsid ws s) = sent s
  /\ db (removeSubscription nsid ws s) = db s.
Proof.
  unfold removeSubscription.
  destruct (Map.get nsid (connections s)) as [subs|]; [|auto].
  destruct (Map.remove ws subs); cbn; auto.
Qed.

End Unsubscribe.

(** X18. What [onClose] achieves.  On a registry with pairwise different
    topics, [removeSubscription] takes the socket, and no other, out of
    the label stream; and a label saved afterwards is not sent to it,
    whether or not the INSERT succeeds. *)
Theorem unsubscribe_stops_delivery (E : Env) (ws : WS) (s : Server)
        (Hkeys : NoDup (map fst (connections s))) :
  let s1 := LabelerServer.removeSubscription subscribeLabels ws s in
  (forall ws', Subscription.registered ws' s1
               = Subscription.registered ws' s && negb (Nat.eqb ws' ws))
  /\ forall l, received ws (snd (LabelerServer.saveLabel E l s1)) = received ws s.
Proof.
  intros s1. split; [intros ws'; apply removeSubscription_registered, Hkeys|].
  intros l. rewrite server_saveLabel_eq.
  assert (Hreg : Subscription.registered ws s1 = false).
  { subst s1. rewrite (removeSubscription_registered ws ws s Hkeys), Nat.eqb_refl.
    apply andb_false_r. }
  assert (Hsent : received ws s1 = received ws s).
  { unfold received. subst s1.
    now rewrite (proj1 (removeSubscription_frame subscribeLabels ws s)). }
  destruct (DbProvider.saveLabel (LabelerServer.sign E l) (db s1)) as [[e|i] d];
    cbn [snd].
  - exact Hsent.
  - rewrite emitLabel_unregistered; [exact Hsent | exact Hreg].
Qed.

Lemma unsubscribe_stops_delivery_witness :
  received 7%nat
    (snd (LabelerServer.saveLabel Demo.E (Demo.lab "at://x" "did:plc:a" "spam")
            (LabelerServer.removeSubscription subscribeLabels 7%nat
               (LabelerServer.addSubscription subscribeLabels 7%nat (Demo.fresh [])))))
  = [].
Proof.
  apply (unsubscribe_stops_delivery Demo.E 7%nat
           (LabelerServer.addSubscription subscribeLabels 7%nat (Demo.fresh []))).
  cbn. repeat constructor. intros [].
Defined.

(* ================================================================== *)
(** ** Further properties of the moderation-event endpoint *)
(* ================================================================== *)

Section Bearer.

Lemma split_on_app (sep : ascii) (a b : list ascii) :
  ~ In sep a -> Js.split_on sep (a ++ sep :: b) = a :: Js.split_on sep b.
Proof.
  induction a as [|x a IH]; intros Hnin; cbn [app Js.split_on].
  - now rewrite Ascii.eqb_refl.
  - destruct (Ascii.eqb_spec x sep) as [->|_]; [exfalso; apply Hnin; cbn; auto|].
    rewrite IH by (intros H; apply Hnin; cbn; auto). reflexivity.
Qed.

Lemma split_on_whole (sep : ascii) (a : list ascii) :
  ~ In sep a -> Js.split_on sep a = [a].
Proof.
  induction a as [|x a IH]; intros Hnin; cbn [Js.split_on]; [reflexivity|].
  destruct (Ascii.eqb_spec x sep) as [->|_]; [exfalso; apply Hnin; cbn; auto|].
  rewrite IH by (intros H; apply Hnin; cbn; auto). reflexivity.
Qed.

Lemma strip_trailing_slash_none (n : list ascii) :
  (forall m, n <> m ++ [Js.slash]) -> Js.strip_trailing_slash n = n.
Proof.
  intros Hn. unfold Js.strip_trailing_slash.
  destruct (rev n) as [|x r] eqn:Hr; [reflexivity|].
  destruct (Ascii.eqb_spec x Js.slash) as [->|_]; [|reflexivity].
  exfalso. apply (Hn (rev r)). rewrite <- (rev_involutive n), Hr. reflexivity.
Qed.

Lemma strip_trailing_slash_one (n : list ascii) :
  Js.strip_trailing_slash (n ++ [Js.slash]) = n.
Proof.
  unfold Js.strip_trailing_slash. rewrite rev_app_distr. cbn. apply rev_involutive.
Qed.

Lemma remove_first_eq (p l : list ascii) :
  Js.remove_first p l
  = if Js.starts_with p l then skipn (List.length p) l
    else match l with
         | [] => []
         | a :: l' => a :: Js.remove_first p l'
         end.
Proof. destruct l; reflexivity. Qed.

Lemma starts_with_app (p : list ascii) :
  forall l r, (List.length p <= List.length l)%nat ->
              Js.starts_with p (l ++ r) = Js.starts_with p l.
Proof.
  induction p as [|a p IH]; intros [|b l] r Hlen; cbn in *; try reflexivity; [lia|].
  f_equal. apply IH. lia.
Qed.

(** [replace("/xrpc/", "")] deletes the occurrence after the origin. *)
Lemma remove_first_after (o rest : list ascii) :
  xrpc_first_after o ->
  Js.remove_first (Js.chars "/xrpc/") (o ++ Js.chars "/xrpc/" ++ rest) = o ++ rest.
Proof.
  induction o as [|a o IH]; intros Hfirst.
  - reflexivity.
  - rewrite remove_first_eq.
    replace (Js.starts_with (Js.chars "/xrpc/") ((a :: o) ++ Js.chars "/xrpc/" ++ rest))
      with false.
    + cbn [app]. f_equal. apply IH. intros j Hj.
      exact (Hfirst (S j) ltac:(cbn [List.length]; lia)).
    + symmetry. rewrite app_assoc, starts_with_app.
      * exact (Hfirst O ltac:(cbn [List.length]; lia)).
      * rewrite length_app. cbn. lia.
Qed.

(** What [parseAuthHeaderDid] makes of a URL with an origin, a path
    after [/xrpc/] and possibly a query. *)
Lemma nsid_of_url_origin (o path : list ascii) (q : option (list ascii)) :
  xrpc_first_after o ->
  ~ In "?"%char (o ++ path) ->
  Handlers.nsid_of_url
    (Js.str (o ++ Js.chars "/xrpc/" ++ path
               ++ match q with Some t => "?"%char :: t | None => [] end))
  = Js.str (Js.strip_trailing_slash (o ++ path)).
Proof.
  intros Hfirst Hq.
  assert (Hq' : ~ In "?"%char (o ++ Js.chars "/xrpc/" ++ path)).
  { intros H. apply Hq. apply in_app_or in H. apply in_or_app.
    destruct H as [H|H]; [left; exact H|]. apply in_app_or in H.
    destruct H as [H|H]; [cbn in H; intuition discriminate | right; exact H]. }
  unfold Handlers.nsid_of_url. rewrite chars_str.
  assert (Hfirst_piece :
    match Js.split_on "?"%char
            (o ++ Js.chars "/xrpc/" ++ path
               ++ match q with Some t => "?"%char :: t | None => [] end) with
    | w :: _ => w
    | [] => []
    end = o ++ Js.chars "/xrpc/" ++ path).
  { destruct q as [t|].
    - replace (o ++ Js.chars "/xrpc/" ++ path ++ "?"%char :: t)
        with ((o ++ Js.chars "/xrpc/" ++ path) ++ "?"%char :: t)
        by (now rewrite <- !app_assoc).
      rewrite (split_on_app _ _ t Hq'). reflexivity.
    - rewrite app_nil_r, (split_on_whole _ _ Hq'). reflexivity. }
  rewrite Hfirst_piece, (remove_first_after o path Hfirst). reflexivity.
Qed.

End Bearer.

(** X19. The string that [parseAuthHeaderDid] has the token verified
    for.  The url of a request is the whole URL: an origin [o], then
    [/xrpc/], then the method name [n], possibly a slash and possibly a
    query.  The handler cuts it at the first question mark and deletes
    the first [/xrpc/] and one slash at the end, so what the verifier is
    given is the origin followed directly by the method name; it is the
    method name only when there is no origin.  ([/xrpc/] is taken not to
    occur before the end of the origin, [o] and [n] to hold no question
    mark, and [n] not to end in a slash.) *)
Theorem nsid_keeps_the_origin (o n q : list ascii)
        (Hfirst : xrpc_first_after o)
        (Hq : ~ In "?"%char (o ++ n))
        (Hslash : forall m, o ++ n <> m ++ [Js.slash]) :
  Handlers.nsid_of_url (Js.str (o ++ Js.chars "/xrpc/" ++ n)) = Js.str (o ++ n)
  /\ Handlers.nsid_of_url (Js.str (o ++ Js.chars "/xrpc/" ++ n ++ "?"%char :: q))
     = Js.str (o ++ n)
  /\ Handlers.nsid_of_url (Js.str (o ++ Js.chars "/xrpc/" ++ n ++ [Js.slash]))
     = Js.str (o ++ n)
  /\ Handlers.nsid_of_url
       (Js.str (o ++ Js.chars "/xrpc/" ++ n ++ Js.slash :: "?"%char :: q))
     = Js.str (o ++ n)
  /\ (o <> [] -> Js.str (o ++ n) <> Js.str n).
Proof.
  assert (Hq' : ~ In "?"%char (o ++ n ++ [Js.slash])).
  { intros H. rewrite app_assoc in H. apply in_app_or in H.
    destruct H as [H|H]; [exact (Hq H)|]. cbn in H. intuition discriminate. }
  assert (Hstrip : Js.strip_trailing_slash (o ++ n ++ [Js.slash]) = o ++ n).
  { rewrite app_assoc. apply strip_trailing_slash_one. }
  split; [|split; [|split; [|split]]].
  - pose proof (nsid_of_url_origin o n None Hfirst Hq) as H.
    rewrite app_nil_r in H. rewrite H, (strip_trailing_slash_none _ Hslash). reflexivity.
  - rewrite (nsid_of_url_origin o n (Some q) Hfirst Hq),
      (strip_trailing_slash_none _ Hslash). reflexivity.
  - pose proof (nsid_of_url_origin o (n ++ [Js.slash]) None Hfirst Hq') as H.
    rewrite app_nil_r in H. rewrite H, Hstrip. reflexivity.
  - pose proof (nsid_of_url_origin o (n ++ [Js.slash]) (Some q) Hfirst Hq') as H.
    rewrite <- app_assoc in H. cbn [app] in H. rewrite H, Hstrip. reflexivity.
  - intros Ho Heq. apply (f_equal Js.chars) in Heq. rewrite !chars_str in Heq.
    apply (f_equal (@List.length ascii)) in Heq. rewrite length_app in Heq.
    destruct o; [congruence | cbn in Heq; lia].
Qed.

Lemma nsid_keeps_the_origin_witness :
  Handlers.nsid_of_url "http://localhost:4100/xrpc/tools.ozone.moderation.emitEvent?x=1"
  = "http://localhost:4100tools.ozone.moderation.emitEvent"
  /\ "http://localhost:4100tools.ozone.moderation.emitEvent"
     <> "tools.ozone.moderation.emitEvent".
Proof.
  destruct (nsid_keeps_the_origin (Js.chars "http://localhost:4100")
              (Js.chars "tools.ozone.moderation.emitEvent") (Js.chars "x=1"))
    as (_ & H2 & _ & _ & H5).
  - intros j Hj. do 21 (destruct j as [|j]; [reflexivity|]). cbn in Hj. lia.
  - cbn. intuition discriminate.
  - intros m H. apply (f_equal (@rev ascii)) in H. rewrite (rev_app_distr m) in H.
    cbn in H. discriminate H.
  - split; [exact H2 | apply H5; discriminate].
Defined.

(** X20. A well-formed Authorization header.  When the header is the
    word Bearer, one space and a token without spaces (whatever follows
    after a further space), [parseAuthHeaderDid] hands the verifier this
    token, the server's DID and, in the place of the method name, the
    origin of the request's URL followed directly by the name after
    [/xrpc/]; its outcome is the verifier's: the issuer, or the
    verifier's error.  The server state is not touched. *)
Theorem bearer_token_goes_to_verifier (E : Env) (req : Request) (s : Server)
        (tok rest o n : list ascii) (q : option (list ascii))
        (Hh : authorization req = Some (Js.str (Js.chars "Bearer " ++ tok ++ rest)))
        (Htok : tok <> [])
        (Hsp : ~ In " "%char tok)
        (Hrest : rest = [] \/ exists r, rest = " "%char :: r)
        (Hurl : url req
                = Js.str (o ++ Js.chars "/xrpc/" ++ n
                            ++ match q with Some t => "?"%char :: t | None => [] end))
        (Hfirst : xrpc_first_after o)
        (Hq : ~ In "?"%char (o ++ n))
        (Hslash : forall m, o ++ n <> m ++ [Js.slash]) :
  Handlers.parseAuthHeaderDid E req s
  = (verifyJwt E (Js.str tok) (did E) (Js.str (o ++ n)), s).
Proof.
  rewrite <- (strip_trailing_slash_none _ Hslash),
    <- (nsid_of_url_origin o n q Hfirst Hq), <- Hurl.
  unfold Handlers.parseAuthHeaderDid. rewrite Hh.
  change (Handlers.truthy_str (Some (Js.str (Js.chars "Bearer " ++ tok ++ rest))))
    with (Some (Js.str (Js.chars "Bearer " ++ tok ++ rest))).
  cbv beta iota. rewrite chars_str.
  change (Js.chars "Bearer " ++ tok ++ rest)
    with (Js.chars "Bearer" ++ " "%char :: tok ++ rest).
  rewrite (split_on_app " "%char (Js.chars "Bearer") (tok ++ rest))
    by (cbn; intuition discriminate).
  assert (Hsplit : exists more, Js.split_on " "%char (tok ++ rest) = tok :: more).
  { destruct Hrest as [->|[r ->]].
    - rewrite app_nil_r, (split_on_whole _ _ Hsp). eauto.
    - rewrite (split_on_app _ _ r Hsp). eauto. }
  destruct Hsplit as [more ->]. cbn [nth_error].
  destruct tok as [|c tk]; [congruence|].
  change (String.eqb (Js.str (Js.chars "Bearer")) "Bearer") with true. cbv iota.
  destruct (verifyJwt E _ _ _); reflexivity.
Qed.

Lemma bearer_token_goes_to_verifier_witness :
  Handlers.parseAuthHeaderDid Demo.E (Demo.emit_request None) (Demo.fresh [])
  = (verifyJwt Demo.E "good" "did:plc:labeler"
       "http://localhost:4100tools.ozone.moderation.emitEvent",
     Demo.fresh []).
Proof.
  apply (bearer_token_goes_to_verifier Demo.E (Demo.emit_request None) (Demo.fresh [])
           (Js.chars "good") [] (Js.chars "http://localhost:4100")
           (Js.chars "tools.ozone.moderation.emitEvent") None).
  - reflexivity.
  - discriminate.
  - cbn. intuition discriminate.
  - left. reflexivity.
  - reflexivity.
  - intros j Hj. do 21 (destruct j as [|j]; [reflexivity|]). cbn in Hj. lia.
  - cbn. intuition discriminate.
  - intros m H. apply (f_equal (@rev ascii)) in H. rewrite (rev_app_distr m) in H.
    cbn in H. discriminate H.
Defined.

Section EmitEvent.

Variable E : Env.


Lemma parseAuthHeaderDid_run (req : Request) (s : Server) :
  Handlers.parseAuthHeaderDid E req s
  = (fst (Handlers.parseAuthHeaderDid E req s), s).
Proof.
  rewrite <- (parseAuthHeaderDid_pure E req s) at 3.
  destruct (Handlers.parseAuthHeaderDid E req s); reflexivity.
Qed.

End EmitEvent.



(** X22. A request that [emitEventHandler] rejects with an XRPC error has
    had no effect: the rejection comes before the first label is created,
    so the table, the sockets and the clock are as before.  (An error of
    the store, by contrast, is a plain error and may come after some
    labels of the batch were stored.) *)
Theorem emitEvent_xrpc_rejection_is_clean (E : Env) (req : Request) (s s' : Server)
        (status : Z) (kind description : string)
        (Hrej : Handlers.emitEventHandler E req s
                = (inl (XRPCError status kind description), s')) :
  s' = s.
Proof.
  revert Hrej. unfold Handlers.emitEventHandler, bind. rewrite parseAuthHeaderDid_run.
  destruct (fst (Handlers.parseAuthHeaderDid E req s)) as [e|a];
    [intros H; now inversion H|].
  destruct (negb (auth E a)); [intros H; now inversion H|].
  destruct (event (body req)) as [ev|]; [|intros H; now inversion H].
  destruct (subject (body req)) as [subj|]; [|intros H; now inversion H].
  destruct (Handlers.truthy_str (createdBy (body req))) as [by_|];
    [|intros H; now inversion H].
  destruct (negb (Handlers.type_is (e_type ev) Handlers.modEventLabel));
    [intros H; now inversion H|].
  destruct (negb (Handlers.has_length (createLabelVals ev))
            && negb (Handlers.has_length (negateLabelVals ev)));
    [intros H; now inversion H|].
  destruct (Handlers.truthy_str _) as [u|]; [|intros H; now inversion H].
  destruct (LabelerServer.createLabels E _ _ s) as [[e|labels] s2] eqn:Hrun.
  - destruct (createLabels_error_kind E _ _ _ _ _ Hrun) as [m ->]. discriminate.
  - destruct labels as [|first rest]; [discriminate|].
    destruct (id first =? 0); discriminate.
Qed.

Lemma emitEvent_xrpc_rejection_is_clean_witness :
  snd (Handlers.emitEventHandler Demo.E (Demo.emit_request None) (Demo.fresh []))
  = Demo.fresh [].
Proof.
  apply (emitEvent_xrpc_rejection_is_clean Demo.E (Demo.emit_request None) (Demo.fresh [])
           (snd (Handlers.emitEventHandler Demo.E (Demo.emit_request None) (Demo.fresh [])))
           400 "InvalidRequest" "Missing required field(s)").
  reflexivity.
Defined.



(* ================================================================== *)
(** ** Properties of the query endpoint and of the constructor *)
(* ================================================================== *)

Section QueryEndpoint.

Lemma last_In (l : list SavedLabel) (r0 : SavedLabel) : l <> [] -> In (last l r0) l.
Proof.
  induction l as [|x l IH]; [congruence|]. intros _.
  destruct l as [|y l]; [cbn; auto|].
  right. apply IH. discriminate.
Qed.

Lemma last_default (t : list SavedLabel) :
  forall x a b, last (x :: t) a = last (x :: t) b.
Proof.
  induction t as [|y t IH]; intros x a b; [reflexivity|].
  change (last (y :: t) a = last (y :: t) b). apply IH.
Qed.

Lemma sorted_last_max (l : list SavedLabel) (r0 : SavedLabel) :
  Sorted id_le l -> forall r, In r l -> id r <= id (last l r0).
Proof.
  intros Hs. apply (Sorted_StronglySorted id_le_trans) in Hs.
  induction Hs as [|x l Hs IH Hall]; intros r Hr; [destruct Hr|].
  rewrite Forall_forall in Hall.
  destruct l as [|y l].
  - destruct Hr as [<-|[]]. cbn. lia.
  - change (last (x :: y :: l) r0) with (last (y :: l) r0).
    destruct Hr as [<-|Hr]; [|exact (IH r Hr)].
    apply (Hall (last (y :: l) r0)). apply last_In. discriminate.
Qed.

Lemma map_throw_inl (A B : Type) (f : A -> error + B) (xs : list A) (e : error) :
  DbProvider.map_throw f xs = inl e -> exists x, In x xs /\ f x = inl e.
Proof.
  induction xs as [|x xs IH]; cbn [DbProvider.map_throw]; [discriminate|].
  destruct (f x) as [e0|b] eqn:Hx.
  - intros H. inversion H; subst. exists x. cbn. auto.
  - destruct (DbProvider.map_throw f xs) as [e1|ys]; [|discriminate].
    intros H. inversion H; subst. destruct (IH eq_refl) as (y & Hin & Hy).
    exists y. cbn. auto.
Qed.

Lemma searchLabels_error (cursor limit : option Z) (uriPatterns sources : list string)
      (d : Db) (e : error) :
  DbProvider.searchLabels cursor limit uriPatterns sources d = inl e ->
  e = XRPCError 400 "InvalidRequest"
        "Only trailing wildcards are supported in uriPatterns".
Proof.
  unfold DbProvider.searchLabels, DbProvider.patterns_of.
  destruct (existsb (String.eqb "*") uriPatterns); [discriminate|].
  destruct (DbProvider.map_throw DbProvider.like_pattern uriPatterns) as [e0|ps] eqn:Hm;
    [|discriminate].
  intros H. inversion H; subst.
  destruct (map_throw_inl _ _ _ _ _ Hm) as (x & _ & Hx).
  exact (like_pattern_error x e Hx).
Qed.

Lemma searchLabels_rows (cursor limit : option Z) (uriPatterns sources : list string)
      (d : Db) (rs : list SavedLabel) :
  DbProvider.searchLabels cursor limit uriPatterns sources d = inr rs ->
  forall r, In r rs -> In r (rows d).
Proof.
  unfold DbProvider.searchLabels.
  destruct (DbProvider.patterns_of uriPatterns) as [e|ps]; [discriminate|].
  intros H r Hr. inversion H; subst.
  apply limit_rows_In, order_by_id_In, filter_In in Hr. tauto.
Qed.

End QueryEndpoint.

(** X24. An answer of [queryLabelsHandler].  Its labels are the
    formatted rows of a search of the table: rows of the table, in
    ascending id order, at most 250 of them (at most the limit asked
    for, which is between 1 and 250).  Its cursor is 0 when no row is
    returned, and otherwise the id of the last row, which is the largest
    id returned. *)
Theorem queryLabels_answer (parseInt : string -> option Z) (toString : Z -> string)
        (F : Type) (formatLabel : SavedLabel -> F)
        (q : LabelsQuery) (d : Db) (cur : string) (labels : list F)
        (Hrun : queryLabelsHandler parseInt toString F formatLabel q d
                = inr (cur, labels)) :
  exists rs,
    labels = map formatLabel rs
    /\ (forall r, In r rs -> In r (rows d))
    /\ Sorted id_le rs
    /\ (List.length rs <= 250)%nat
    /\ (rs = [] -> cur = "0")
    /\ forall r0, rs <> [] ->
         (forall r, In r rs -> id r <= id (last rs r0))
         /\ (toString (id (last rs r0)) <> "" -> cur = toString (id (last rs r0))).
Proof.
  revert Hrun. unfold queryLabelsHandler.
  destruct (parseInt (match q_cursor q with Some t => t | None => "0" end)) as [c|];
    [|discriminate].
  destruct (parseInt _) as [n|]; [|discriminate].
  destruct ((n <? 1) || (250 <? n)) eqn:Hn; [discriminate|].
  apply orb_false_iff in Hn. destruct Hn as [Hn1 Hn2].
  apply Z.ltb_ge in Hn1, Hn2.
  destruct (DbProvider.searchLabels _ _ _ _ d) as [e|rs] eqn:Hs; [discriminate|].
  intros H. inversion H; subst. exists rs.
  destruct (searchLabels_sorted_bounded _ _ _ _ _ _ Hs) as [Hsorted Hlen].
  cbn [limit_of] in Hlen.
  split; [reflexivity|]. split; [exact (searchLabels_rows _ _ _ _ _ _ Hs)|].
  split; [exact Hsorted|]. split; [lia|].
  split; [intros ->; reflexivity|].
  intros r0 Hne. split; [exact (sorted_last_max rs r0 Hsorted)|].
  destruct rs as [|x t]; [congruence|]. intros Hstr. unfold nextCursor.
  rewrite (last_default t x x r0).
  destruct (toString (id (last (x :: t) r0))); [congruence | reflexivity].
Qed.

Lemma queryLabels_answer_witness :
  exists rs,
    [1; 2] = map id rs
    /\ (forall r, In r rs -> In r (rows Demo.two_rows))
    /\ Sorted id_le rs
    /\ (List.length rs <= 250)%nat.
Proof.
  destruct (queryLabels_answer
              (fun t => if String.eqb t "0" then Some 0
                        else if String.eqb t "50" then Some 50 else None)
              (fun n => if n =? 2 then "2" else "?") Z id
              {| q_uriPatterns := None; q_sources := None;
                 q_cursor := None; q_limit := None |}
              Demo.two_rows "2" [1; 2])
    as (rs & Hl & Hin & Hs & Hlen & _).
  - reflexivity.
  - exists rs. auto.
Defined.

(** X25. The XRPC errors of [queryLabelsHandler].  Whenever the handler
    ends with an XRPCError, it is an InvalidRequest with status 400, and
    its description is one of three: about the cursor, about the limit,
    or about a wildcard that is not trailing.  (An error of the SQL
    engine, which the handler does not catch, is not an XRPCError; the
    store is modelled without such errors.) *)
Theorem queryLabels_xrpc_errors (parseInt : string -> option Z) (toString : Z -> string)
        (F : Type) (formatLabel : SavedLabel -> F)
        (q : LabelsQuery) (d : Db) (status : Z) (kind description : string)
        (Hrun : queryLabelsHandler parseInt toString F formatLabel q d
                = inl (XRPCError status kind description)) :
  status = 400
  /\ kind = "InvalidRequest"
  /\ In description
        ["Cursor must be an integer";
         "Limit must be an integer between 1 and 250";
         "Only trailing wildcards are supported in uriPatterns"].
Proof.
  revert Hrun. unfold queryLabelsHandler.
  destruct (parseInt (match q_cursor q with Some t => t | None => "0" end)) as [c|].
  - destruct (parseInt _) as [n|].
    + destruct ((n <? 1) || (250 <? n)).
      * intros H. inversion H; subst. cbn. auto 10.
      * destruct (DbProvider.searchLabels _ _ _ _ d) as [e0|rs] eqn:Hs; [|discriminate].
        intros H. inversion H; subst. apply searchLabels_error in Hs.
        inversion Hs; subst. cbn. auto 10.
    + intros H. inversion H; subst. cbn. auto 10.
  - intros H. inversion H; subst. cbn. auto 10.
Qed.

Lemma queryLabels_xrpc_errors_witness :
  queryLabelsHandler
    (fun t => if String.eqb t "0" then Some 0
              else if String.eqb t "251" then Some 251 else None)
    (fun _ => "?") Z id
    {| q_uriPatterns := None; q_sources := None;
       q_cursor := None; q_limit := Some "251" |}
    Demo.two_rows
  = inl (XRPCError 400 "InvalidRequest" "Limit must be an integer between 1 and 250")
  /\ 400 = 400
  /\ "InvalidRequest" = "InvalidRequest"
  /\ In "Limit must be an integer between 1 and 250"
        ["Cursor must be an integer";
         "Limit must be an integer between 1 and 250";
         "Only trailing wildcards are supported in uriPatterns"].
Proof.
  split; [reflexivity|].
  apply (queryLabels_xrpc_errors
           (fun t => if String.eqb t "0" then Some 0
                     else if String.eqb t "251" then Some 251 else None)
           (fun _ => "?") Z id
           {| q_uriPatterns := None; q_sources := None;
              q_cursor := None; q_limit := Some "251" |}
           Demo.two_rows).
  reflexivity.
Defined.

(* ================================================================== *)
(** ** What becomes of a record emitted in the window *)
(* ================================================================== *)

Section Lost.

Import LabelerServer Subscription.

Variable E : Env.
Variable ws : WS.
Variable c : Z.

Lemma delivered_send (q : Z) (f : Frame) (s : Server) :
  delivered ws q (ws_send ws f s) = delivered ws q s || is_message q f.
Proof.
  unfold delivered. rewrite received_ws_send, Nat.eqb_refl, existsb_app. cbn [existsb].
  now rewrite orb_false_r.
Qed.

Lemma delivered_emit_cases (q i : Z) (l : Label) (s : Server) :
  delivered ws q (emitLabel i l s) = true -> delivered ws q s = true \/ q = i.
Proof.
  intros H. destruct (Z.eq_dec i q) as [->|Hne]; [right; reflexivity|].
  left. rewrite <- (emitLabel_other ws i q l s Hne). exact H.
Qed.

Lemma delivered_emit_unregistered (q i : Z) (l : Label) (s : Server) :
  registered ws s = false -> delivered ws q (emitLabel i l s) = delivered ws q s.
Proof.
  intros Hreg. unfold delivered. now rewrite (emitLabel_unregistered ws i l s Hreg).
Qed.

Lemma drop_nth_nodup (k : nat) (pend : list (Z * Label)) (i : Z) (l : Label) :
  NoDup (map fst pend) -> nth_error pend k = Some (i, l) ->
  NoDup (map fst (drop_nth k pend)) /\ ~ In i (map fst (drop_nth k pend)).
Proof.
  intros Hn Hk. apply nth_error_split in Hk. destruct Hk as (l1 & l2 & -> & <-).
  rewrite drop_nth_middle. rewrite map_app in *. cbn [map fst] in Hn.
  split; [exact (NoDup_remove_1 _ _ _ Hn) | exact (NoDup_remove_2 _ _ _ Hn)].
Qed.

(** A scan that can no longer return a row inserted now stays so. *)
Lemma blind_stays (x : SavedLabel) (it : Iterator) (d : Db) :
  scan_blind (SubScanning (Some x) it) = true ->
  scan_blind (SubScanning (fst (DbProvider.next it d)) (snd (DbProvider.next it d)))
  = true.
Proof.
  intros H. destruct it as [n [|r b] pos [|]|pos|[|r rest]]; cbn in *;
    first [discriminate H | reflexivity].
Qed.

(** The rows in hand after a [next()] come from the buffer, or, when the
    scan can still fetch, from the table. *)
Lemma next_hand (it : Iterator) (d : Db) (r : SavedLabel) :
  In r (in_hand (SubScanning (fst (DbProvider.next it d)) (snd (DbProvider.next it d)))) ->
  In r (buffer_of it)
  \/ ((forall x, scan_blind (SubScanning (Some x) it) = false) /\ In r (rows d)).
Proof.
  destruct it as [n [|r0 b] pos [|]|pos|[|r0 rest]]; cbn [DbProvider.next].
  - pose proof (firstn_skipn (Pos.to_nat n) (DbProvider.iterateLabels pos d)) as Hsplit.
    destruct (firstn (Pos.to_nat n) (DbProvider.iterateLabels pos d)) as [|y batch];
      cbn [fst snd in_hand buffer_of]; [intros []|].
    intros Hr. right. split; [reflexivity|].
    assert (Hin : In r (DbProvider.iterateLabels pos d)).
    { rewrite <- Hsplit. apply in_or_app. left. exact Hr. }
    apply iterateLabels_In in Hin. tauto.
  - cbn. intros [].
  - cbn. auto.
  - cbn. auto.
  - destruct (DbProvider.next_row pos d) as [y|] eqn:Hn; cbn; [|intros []].
    intros [<-|[]]. right. split; [reflexivity|].
    apply next_row_some in Hn. tauto.
  - cbn. intros [].
  - cbn. auto.
Qed.

Lemma open_hand (d : Db) (r : SavedLabel) :
  In r (in_hand (SubScanning
                   (fst (DbProvider.next (DbProvider.open_scan (scan_mode E) c d) d))
                   (snd (DbProvider.next (DbProvider.open_scan (scan_mode E) c d) d)))) ->
  In r (rows d).
Proof.
  intros Hr. apply next_hand in Hr. destruct Hr as [Hr|[_ Hr]]; [|exact Hr].
  unfold DbProvider.open_scan in Hr. destruct (scan_mode E); cbn in Hr; try destruct Hr.
  apply iterateLabels_In in Hr. tauto.
Qed.

Lemma delivered_future (q : Z) (s : Server) :
  delivered ws q (ws_close ws (ws_send ws futureCursor s)) = delivered ws q s.
Proof.
  change (delivered ws q (ws_close ws (ws_send ws futureCursor s)))
    with (delivered ws q (ws_send ws futureCursor s)).
  rewrite delivered_send. cbn. apply orb_false_r.
Qed.

(** A [saveLabel] call up to its [await] keeps [seam_clean]. *)
Lemma seam_clean_call (l : Label) (w : World) (g : Seam) :
  seam_clean ws w g ->
  seam_clean ws (saveLabel_call E l w) (seam_step E w (CallSaveLabel l) g).
Proof.
  intros (K1 & (K2 & K3) & K4 & K5 & K6 & K7 & K8).
  unfold saveLabel_call, seam_step.
  destruct (DbProvider.saveLabel (sign E l) (db (server w))) as [[e|i] d] eqn:Hs.
  - apply saveLabel_fail_keeps in Hs. destruct Hs as (_ & _ & HL).
    replace (if scan_blind (pc w) then g else g) with g
      by (destruct (scan_blind (pc w)); reflexivity).
    unfold seam_clean, pending_ok. cbn [server pending pc].
    change (db (set_db d (server w))) with d. rewrite HL.
    split; [exact K1|]. split; [split; [exact K2 | exact K3]|].
    split; [exact K4|]. split; [exact K5|]. split; [exact K6|].
    split; [exact K7 | exact K8].
  - apply saveLabel_ok_id in Hs. destruct Hs as (Hi & _ & _ & HL).
    set (g' := if scan_blind (pc w)
               then {| seam_inserted := seam_inserted g ++ [i];
                       seam_emitted := seam_emitted g |}
               else g).
    assert (Hem : seam_emitted g' = seam_emitted g)
      by (subst g'; destruct (scan_blind (pc w)); reflexivity).
    assert (Hins : forall j, In j (seam_inserted g') ->
                             In j (seam_inserted g) \/ j = i).
    { subst g'. destruct (scan_blind (pc w)); cbn; intros j Hj; [|auto].
      apply in_app_or in Hj. destruct Hj as [Hj|[<-|[]]]; auto. }
    assert (Hsup : forall j, In j (seam_inserted g) -> In j (seam_inserted g')).
    { subst g'. destruct (scan_blind (pc w)); cbn; intros j Hj;
        [apply in_or_app; left|]; exact Hj. }
    unfold seam_clean, pending_ok. cbn [server pending pc].
    change (db (set_db d (server w))) with d. rewrite HL.
    split; [exact K1|].
    split.
    { split.
      - rewrite map_app. cbn [map fst].
        apply NoDup_app; [exact K2 | repeat constructor; intros [] |].
        intros a Ha [Heq|[]]. apply in_map_iff in Ha. destruct Ha as (p & Hp & Hin).
        specialize (K3 p Hin). lia.
      - intros p Hp. apply in_app_or in Hp.
        destruct Hp as [Hp|[<-|[]]]; [specialize (K3 p Hp); lia | cbn; lia]. }
    split. { intros q Hq. specialize (K4 q Hq). lia. }
    split.
    { intros r Hr. destruct (K5 r Hr) as [Hle Hlt]. split; [lia|].
      intros j Hj. destruct (Hins j Hj) as [Hj'| ->]; [auto | lia]. }
    split.
    { intros Hb Hlive. subst g'. rewrite Hb. exact (K6 Hb Hlive). }
    split.
    { intros Hlive j Hj. rewrite delivered_set_db.
      destruct (Hins j Hj) as [Hj'| ->]; [exact (K7 Hlive j Hj')|].
      destruct (delivered ws i (server w)) eqn:Hd; [|reflexivity].
      apply K4 in Hd. lia. }
    intros j Hj. rewrite Hem in Hj. destruct (K8 j Hj) as (H1 & H2 & H3 & H4).
    split; [apply Hsup, H1|]. split; [exact H2|]. split; [|lia].
    rewrite map_app. intros Hin. apply in_app_or in Hin.
    destruct Hin as [Hin|[Heq|[]]]; [exact (H3 Hin) | cbn in Heq; lia].
Qed.

(** The rest of a suspended [saveLabel] keeps [seam_clean]. *)
Lemma seam_clean_resume (k : nat) (w : World) (g : Seam) :
  seam_clean ws w g ->
  seam_clean ws (saveLabel_resume k w) (seam_step E w (ResumeSaveLabel k) g).
Proof.
  intros (K1 & (K2 & K3) & K4 & K5 & K6 & K7 & K8).
  unfold saveLabel_resume, seam_step.
  destruct (nth_error (pending w) k) as [[i l]|] eqn:Hk.
  2: { replace (if scan_blind (pc w) then g else g) with g
         by (destruct (scan_blind (pc w)); reflexivity).
       exact (conj K1 (conj (conj K2 K3) (conj K4 (conj K5 (conj K6 (conj K7 K8)))))). }
  set (g' := if scan_blind (pc w)
             then (if mem i (seam_inserted g)
                   then {| seam_inserted := seam_inserted g;
                           seam_emitted := seam_emitted g ++ [i] |}
                   else g)
             else g).
  assert (Hins : seam_inserted g' = seam_inserted g).
  { subst g'. destruct (scan_blind (pc w)); [destruct (mem i (seam_inserted g))|];
      reflexivity. }
  assert (Hem : forall j, In j (seam_emitted g') ->
                          In j (seam_emitted g)
                          \/ (j = i /\ scan_blind (pc w) = true
                              /\ In i (seam_inserted g))).
  { subst g'. destruct (scan_blind (pc w)); [|auto].
    destruct (mem i (seam_inserted g)) eqn:Hm; [|auto].
    cbn. intros j Hj. apply in_app_or in Hj. destruct Hj as [Hj|[<-|[]]]; [auto|].
    right. split; [reflexivity|]. split; [reflexivity|]. apply mem_In, Hm. }
  destruct (drop_nth_nodup k (pending w) i l K2 Hk) as [Hnd Hni].
  destruct (emitLabel_frame i l (server w)) as (Hdb & _).
  assert (Hip : In (i, l) (pending w)) by (eapply nth_error_In; exact Hk).
  unfold seam_clean, pending_ok. cbn [server pending pc]. rewrite Hdb, Hins.
  split. { intros Hlive. rewrite emitLabel_registered_same. exact (K1 Hlive). }
  split. { split; [exact Hnd|]. intros p Hp. apply K3. eapply drop_nth_incl. exact Hp. }
  split.
  { intros q Hq. destruct (delivered_emit_cases q i l (server w) Hq) as [Hd| ->];
      [exact (K4 q Hd) | exact (K3 _ Hip)]. }
  split; [exact K5|]. split; [exact K6|].
  split.
  { intros Hlive j Hj. rewrite (delivered_emit_unregistered j i l (server w) (K1 Hlive)).
    exact (K7 Hlive j Hj). }
  intros j Hj. destruct (Hem j Hj) as [Hj'|(-> & Hb & Hin)].
  - destruct (K8 j Hj') as (H1 & H2 & H3 & H4). split; [exact H1|]. split.
    + rewrite emitLabel_other; [exact H2|]. intros ->. apply H3.
      apply in_map_iff. exists (j, l). split; [reflexivity | exact Hip].
    + split; [|exact H4]. intros Hin. apply H3.
      apply in_map_iff in Hin. destruct Hin as (p & Hp & Hin).
      apply in_map_iff. exists p. split; [exact Hp|]. eapply drop_nth_incl. exact Hin.
  - assert (Hlive : pc w <> SubLive).
    { intros Heq. rewrite Heq in Hb. discriminate Hb. }
    split; [exact Hin|]. split.
    + rewrite (delivered_emit_unregistered _ _ _ _ (K1 Hlive)). exact (K7 Hlive i Hin).
    + split; [exact Hni | exact (K3 _ Hip)].
Qed.

(** A slice of the subscriber's callback keeps [seam_clean]. *)
Lemma seam_clean_sub (w : World) (g : Seam) :
  seam_clean ws w g ->
  seam_clean ws (onOpen_step E ws c w) (seam_step E w RunSubscriber g).
Proof.
  intros H.
  replace (seam_step E w RunSubscriber g) with g
    by (unfold seam_step; destruct (scan_blind (pc w)); reflexivity).
  unfold onOpen_step.
  destruct (pc w) as [|[|]|[x|] it| |] eqn:Hw;
    try exact H;
    unfold seam_clean, pending_ok in H; rewrite Hw in H;
    destruct H as (K1 & (K2 & K3) & K4 & K5 & K6 & K7 & K8);
    unfold seam_clean, pending_ok; cbn [server pending pc].
  - (* the check *)
    split; [intros _; apply K1; discriminate|]. split; [split; assumption|].
    split; [exact K4|]. split; [intros r []|].
    split; [intros _ _; apply K6; [reflexivity | discriminate]|].
    split; [intros _; apply K7; discriminate | exact K8].
  - (* the cursor is in the future *)
    split; [intros _; apply K1; discriminate|]. split; [split; assumption|].
    split; [intros q Hq; rewrite delivered_future in Hq; exact (K4 q Hq)|].
    split; [intros r []|].
    split; [intros _ _; apply K6; [reflexivity | discriminate]|].
    split.
    + intros _ i Hi. rewrite delivered_future. apply K7; [discriminate | exact Hi].
    + intros i Hi. rewrite delivered_future. exact (K8 i Hi).
  - (* the scan opens *)
    assert (Hnil : seam_inserted g = []) by (apply K6; [reflexivity | discriminate]).
    pose proof (open_hand (db (server w))) as Hopen.
    destruct (DbProvider.next (DbProvider.open_scan (scan_mode E) c (db (server w)))
                              (db (server w))) as [row it].
    cbn [fst snd] in Hopen. cbn [server pending pc].
    split; [intros _; apply K1; discriminate|]. split; [split; assumption|].
    split; [exact K4|].
    split.
    { intros r Hr. split.
      - apply (proj2 (largest_rowid_upper (db (server w)))). exact (Hopen r Hr).
      - rewrite Hnil. intros i []. }
    split; [intros _ _; exact Hnil|].
    split; [intros _ i Hi; rewrite Hnil in Hi; destruct Hi | exact K8].
  - (* a row is sent *)
    change (db (ws_send ws (MessageFrame (id x) (label x)) (server w)))
      with (db (server w)).
    pose proof (next_hand it (db (server w))) as Hhand.
    pose proof (blind_stays x it (db (server w))) as Hblind.
    destruct (DbProvider.next it (db (server w))) as [row it'].
    cbn [fst snd] in Hhand, Hblind. cbn [server pending pc].
    change (db (ws_send ws (MessageFrame (id x) (label x)) (server w)))
      with (db (server w)).
    destruct (K5 x (or_introl eq_refl)) as [Hx Hxlt].
    assert (Hsame : forall i, In i (seam_inserted g) ->
              delivered ws i (ws_send ws (MessageFrame (id x) (label x)) (server w))
              = delivered ws i (server w)).
    { intros i Hi. rewrite delivered_send. cbn [is_message].
      replace (id x =? i) with false; [apply orb_false_r|].
      symmetry. apply Z.eqb_neq. specialize (Hxlt i Hi). lia. }
    split; [intros _; apply K1; discriminate|]. split; [split; assumption|].
    split.
    { intros q Hq. rewrite delivered_send in Hq. apply orb_true_iff in Hq.
      destruct Hq as [Hq|Hq]; [exact (K4 q Hq)|].
      cbn [is_message] in Hq. apply Z.eqb_eq in Hq. lia. }
    split.
    { intros r Hr. destruct (Hhand r Hr) as [Hbuf|[Hfetch Hrow]].
      - apply K5. right. exact Hbuf.
      - assert (Hnil : seam_inserted g = []) by (apply K6; [apply Hfetch | discriminate]).
        split; [apply (proj2 (largest_rowid_upper (db (server w)))); exact Hrow|].
        rewrite Hnil. intros i []. }
    split.
    { intros Hb _. apply K6; [|discriminate].
      destruct (scan_blind (SubScanning (Some x) it)) eqn:Hold; [|reflexivity].
      rewrite (Hblind eq_refl) in Hb. discriminate Hb. }
    split.
    { intros _ i Hi. rewrite (Hsame i Hi). apply K7; [discriminate | exact Hi]. }
    intros i Hi. destruct (K8 i Hi) as (H1 & H2 & H3 & H4).
    split; [exact H1|]. split; [rewrite (Hsame i H1); exact H2|]. split; assumption.
  - (* the socket is registered *)
    change (db (addSubscription subscribeLabels ws (server w))) with (db (server w)).
    split; [intros Hlive; congruence|]. split; [split; assumption|].
    split; [exact K4|]. split; [intros r []|].
    split; [intros _ Hlive; congruence|].
    split; [intros Hlive; congruence | exact K8].
Qed.

Lemma seam_clean_run (sched : list Action) :
  forall w g,
    seam_clean ws w g ->
    seam_clean ws (fst (run_seam E ws c sched (w, g)))
                  (snd (run_seam E ws c sched (w, g))).
Proof.
  unfold run_seam. induction sched as [|a sched IH]; intros w g H; cbn [fold_left fst snd].
  - exact H.
  - apply IH. destruct a as [l|k|]; cbn [step].
    + apply seam_clean_call, H.
    + apply seam_clean_resume, H.
    + apply seam_clean_sub, H.
Qed.

(** What was emitted out of sight stays on the books. *)
Lemma seam_emitted_grows (sched : list Action) :
  forall w g i,
    In i (seam_emitted g) ->
    In i (seam_emitted (snd (run_seam E ws c sched (w, g)))).
Proof.
  unfold run_seam. induction sched as [|a sched IH]; intros w g i Hi;
    cbn [fold_left fst snd]; [exact Hi|].
  apply IH. unfold seam_step. destruct (scan_blind (pc w)); [|exact Hi].
  destruct a as [l|k|]; [| |exact Hi].
  - destruct (DbProvider.saveLabel (sign E l) (db (server w))) as [[e|j] d]; exact Hi.
  - destruct (nth_error (pending w) k) as [[j l]|]; [|exact Hi].
    destruct (mem j (seam_inserted g)); [|exact Hi].
    cbn. apply in_or_app. left. exact Hi.
Qed.

Lemma run_seam_app (s1 s2 : list Action) (wg : World * Seam) :
  run_seam E ws c (s1 ++ s2) wg = run_seam E ws c s2 (run_seam E ws c s1 wg).
Proof. unfold run_seam. apply fold_left_app. Qed.

End Lost.

(** X28. What is emitted in the window is lost.  Take a socket that is
    opened unregistered and has been sent nothing, while the suspended
    [saveLabel] calls hold ids of different rows of the table; and any
    interleaving of its callback with [saveLabel] calls, on any of the
    store iterators.  A record that was inserted when the scan could no
    longer return it and emitted before the socket was registered has
    not been sent to the socket, and is not sent to it whatever runs
    afterwards. *)
Theorem seam_lost_is_never_sent (E : Env) (ws : WS) (c : Z)
        (sched more : list Action) (w0 : World) (i : Z)
        (Hpc : pc w0 = SubOpening)
        (Hfresh : Subscription.registered ws (server w0) = false)
        (Hnone : received ws (server w0) = [])
        (Hpend : pending_ok w0)
        (Hlost : In i (Subscription.seam_lost E ws c sched w0)) :
  delivered ws i (server (Subscription.run E ws c (sched ++ more) w0)) = false.
Proof.
  assert (H0 : seam_clean ws w0 (Subscription.mkSeam [] [])).
  { unfold seam_clean. rewrite Hpc. cbn [in_hand Subscription.seam_inserted
                                          Subscription.seam_emitted].
    split; [intros _; exact Hfresh|]. split; [exact Hpend|].
    split; [intros q Hq; unfold delivered in Hq; rewrite Hnone in Hq; discriminate Hq|].
    split; [intros r []|]. split; [reflexivity|].
    split; [intros _ j []|intros j []]. }
  pose proof (seam_clean_run E ws c (sched ++ more) w0 _ H0) as Hrun.
  rewrite run_seam_fst in Hrun. destruct Hrun as (_ & _ & _ & _ & _ & _ & K8).
  apply K8. rewrite run_seam_app.
  destruct (Subscription.run_seam E ws c sched (w0, Subscription.mkSeam [] []))
    as [w1 g1] eqn:H1.
  apply seam_emitted_grows. unfold Subscription.seam_lost in Hlost.
  rewrite H1 in Hlost. exact Hlost.
Qed.

Lemma seam_lost_is_never_sent_witness :
  delivered 7%nat 3
    (server (Subscription.run Demo.E 7%nat 0
               (Demo.early_schedule
                  ++ [CallSaveLabel Demo.unsigned_spam; ResumeSaveLabel 0])
               Demo.opening)) = false
  /\ map (fun f => match f with MessageFrame q _ => q | ErrorFrame _ _ => 0 end)
       (received 7%nat
          (server (Subscription.run Demo.E 7%nat 0
                     (Demo.early_schedule
                        ++ [CallSaveLabel Demo.unsigned_spam; ResumeSaveLabel 0])
                     Demo.opening)))
     = [1; 2; 4].
Proof.
  split; [|vm_compute; reflexivity].
  apply (seam_lost_is_never_sent Demo.E 7%nat 0 Demo.early_schedule
           [CallSaveLabel Demo.unsigned_spam; ResumeSaveLabel 0] Demo.opening 3).
  - reflexivity.
  - reflexivity.
  - reflexivity.
  - split; [constructor | intros p []].
  - vm_compute. auto.
Defined.
